(** * FileServer.py: the path validator and the edit engine

    A shallow embedding of [src/FileServer.py] (a filesystem server exposing
    read/write/edit tools confined to a list of allowed directories) and the
    proofs of its specified properties.

    Layout:
    - Python values: exceptions, results, the [str] methods the source calls;
    - [difflib]: CPython's Lib/difflib.py, as far as [unified_diff] needs it;
    - the operating system: the interface [OS] of the [os], [os.path] and
      [open] calls the source makes, over an abstract machine state;
    - FileServer.py: the source's functions, one definition each, same names;
    - a POSIX machine: CPython's Lib/posixpath.py (version 3.11) over a model
      file system, the implementation of [OS] on which the properties about
      symlinks and missing files are settled;
    - the vocabulary of the properties, and the properties: of the validator
      and the edit engine first, then of the helpers that read ([head_file],
      [tail_file], [read_file_content]), print ([format_size],
      [get_file_stats]) and list ([build_directory_tree]), of the tools, of
      what is written and read back on the POSIX machine, and of [difflib] on
      a text compared with itself and with another.

    Text is modelled by [string]: a Python [str] whose code points are below
    256. *)

From stdpp Require Import base strings list gmap.
From Stdlib Require Import Ascii DecimalString.
From Stdlib Require Sorting.Sorted.

(** ** Python values *)

(** The exceptions the source raises or lets through, all of them
    subclasses of [Exception]: [except Exception] catches each. *)
Inductive exn : Type :=
| ValueError (msg : string)
| KeyError (key : string)
| OSError (msg : string)
| PermissionError (msg : string)
| UnicodeDecodeError
| RecursionError.

(** [PermissionError] is a subclass of [OSError]. *)
Definition is_OSError (e : exn) : bool :=
  match e with
  | OSError _ | PermissionError _ => true
  | _ => false
  end.

(** A call either returns a value or raises. *)
Inductive result (A : Type) : Type :=
| Ok (a : A)
| Raise (e : exn).
Arguments Ok {A} a.
Arguments Raise {A} e.

#[global] Instance result_ret : MRet result := fun A a => Ok a.
#[global] Instance result_bind : MBind result := fun A B f r =>
  match r with
  | Ok a => f a
  | Raise e => Raise e
  end.

Definition LF : string := String (ascii_of_nat 10) "".
Definition NUL : ascii := ascii_of_nat 0.

Module str.

(** [s[:n]] *)
Fixpoint take (n : nat) (s : string) : string :=
  match n, s with
  | S k, String c s' => String c (take k s')
  | _, _ => ""
  end.

(** [s[n:]] *)
Fixpoint drop (n : nat) (s : string) : string :=
  match n, s with
  | S k, String _ s' => drop k s'
  | _, _ => s
  end.

(** [s.startswith(prefix)] *)
Fixpoint startswith (s prefix : string) {struct prefix} : bool :=
  match prefix, s with
  | "", _ => true
  | String p prefix', String c s' => Ascii.eqb c p && startswith s' prefix'
  | String _ _, "" => false
  end.

(** [s.endswith(c)] for one character. *)
Fixpoint endswith (s : string) (c : ascii) : bool :=
  match s with
  | "" => false
  | String d "" => Ascii.eqb d c
  | String _ s' => endswith s' c
  end.

(** [sub in s] *)
Fixpoint contains (s sub : string) : bool :=
  startswith s sub ||
  match s with
  | "" => false
  | String _ s' => contains s' sub
  end.

(** [c in s] for one character. *)
Fixpoint has_char (c : ascii) (s : string) : bool :=
  match s with
  | "" => false
  | String d s' => Ascii.eqb d c || has_char c s'
  end.

(** [s.count(sub)] for a non-empty [sub]: the occurrences are counted from the
    left and do not overlap; after a match the scan resumes behind it
    ([skip] characters are still to be passed over). *)
Fixpoint count_from (skip : nat) (s sub : string) : nat :=
  match s with
  | "" => 0
  | String _ s' =>
      match skip with
      | S k => count_from k s' sub
      | O =>
          if startswith s sub
          then S (count_from (String.length sub - 1) s' sub)
          else count_from 0 s' sub
      end
  end.

(** [s.count(sub)]; the empty string is counted between all characters. *)
Definition count (s sub : string) : nat :=
  match sub with
  | "" => S (String.length s)
  | _ => count_from 0 s sub
  end.

(** [s.replace(old, new, 1)]: the leftmost occurrence only. *)
Fixpoint replace1 (s old new : string) : string :=
  if startswith s old then new +:+ drop (String.length old) s
  else
    match s with
    | "" => ""
    | String c s' => String c (replace1 s' old new)
    end.

(** [sep.join(parts)] *)
Fixpoint join (sep : string) (parts : list string) : string :=
  match parts with
  | [] => ""
  | [p] => p
  | p :: ps => p +:+ sep +:+ join sep ps
  end.

(** [s.split(sep)] for a one-character separator. *)
Fixpoint split (sep : ascii) (s : string) : list string :=
  match s with
  | "" => [""]
  | String c s' =>
      if Ascii.eqb c sep then "" :: split sep s'
      else
        match split sep s' with
        | field :: fields => String c field :: fields
        | [] => [String c ""]
        end
  end.

(** [s.rstrip(c)] for one character. *)
Fixpoint rstrip (c : ascii) (s : string) : string :=
  match s with
  | "" => ""
  | String d s' =>
      match rstrip c s' with
      | "" => if Ascii.eqb d c then "" else String d ""
      | r => String d r
      end
  end.

(** [s.find(c, start)] for one character: [None] is Python's [-1]. *)
Fixpoint find (c : ascii) (s : string) (start : nat) : option nat :=
  match s with
  | "" => None
  | String d s' =>
      match start with
      | S k => S <$> find c s' k
      | O => if Ascii.eqb d c then Some 0%nat else S <$> find c s' 0
      end
  end.

(** The characters at which [splitlines] breaks a line (those below 256):
    LF, VT, FF, CR, FS, GS, RS and NEL. CR LF is one break. *)
Definition is_linebreak (c : ascii) : bool :=
  let n := nat_of_ascii c in
  (n =? 10)%nat || (n =? 11)%nat || (n =? 12)%nat || (n =? 13)%nat ||
  (n =? 28)%nat || (n =? 29)%nat || (n =? 30)%nat || (n =? 133)%nat.

(** [s.splitlines()]: no line for the text after the last break when it is
    empty. *)
Fixpoint splitlines_go (line s : string) : list string :=
  match s with
  | "" => match line with "" => [] | _ => [line] end
  | String c s' =>
      if is_linebreak c then
        match s' with
        | String d s'' =>
            if (nat_of_ascii c =? 13)%nat && (nat_of_ascii d =? 10)%nat
            then line :: splitlines_go "" s''
            else line :: splitlines_go "" s'
        | "" => [line]
        end
      else splitlines_go (line +:+ String c "") s'
  end.
Definition splitlines (s : string) : list string := splitlines_go "" s.

(** [str(n)] for a natural number. *)
Definition of_nat (n : nat) : string := NilEmpty.string_of_uint (Nat.to_uint n).
Definition of_N (n : N) : string := NilEmpty.string_of_uint (N.to_uint n).

(** [s.ljust(width)] and [s.rjust(width)]: padded with spaces. *)
Fixpoint spaces (n : nat) : string :=
  match n with
  | O => ""
  | S k => String " "%char (spaces k)
  end.
Definition ljust (s : string) (width : nat) : string :=
  s +:+ spaces (width - String.length s).
Definition rjust (s : string) (width : nat) : string :=
  spaces (width - String.length s) +:+ s.

(** The lines of a text file as iterating over it or [readlines()] gives
    them: each with its ['\n']. *)
Fixpoint readlines_go (line s : string) : list string :=
  match s with
  | "" => match line with "" => [] | _ => [line] end
  | String c s' =>
      if (nat_of_ascii c =? 10)%nat then (line +:+ String c "") :: readlines_go "" s'
      else readlines_go (line +:+ String c "") s'
  end.
Definition readlines (s : string) : list string := readlines_go "" s.

(** What reading in text mode makes of the line ends: CR LF and CR become
    LF. *)
Fixpoint universal_newlines (s : string) : string :=
  match s with
  | "" => ""
  | String c s' =>
      if (nat_of_ascii c =? 13)%nat then
        match s' with
        | String d s'' =>
            if (nat_of_ascii d =? 10)%nat
            then String d (universal_newlines s'')
            else String (ascii_of_nat 10) (universal_newlines s')
        | "" => String (ascii_of_nat 10) ""
        end
      else String c (universal_newlines s')
  end.

End str.

(** [l[start:]] for a list and an integer, negative from the end. *)
Definition slice_from {A} (l : list A) (start : Z) : list A :=
  let n := Z.of_nat (length l) in
  let start := if (start <? 0)%Z then Z.max 0 (start + n) else Z.min start n in
  drop (Z.to_nat start) l.

(** [sorted(l, key)] by insertion: equal keys keep their order. *)
Fixpoint insert_sorted {A} (le : A -> A -> bool) (x : A) (l : list A) : list A :=
  match l with
  | [] => [x]
  | y :: l' => if le x y then x :: l else y :: insert_sorted le x l'
  end.
Definition sorted_by {A} (le : A -> A -> bool) (l : list A) : list A :=
  foldr (insert_sorted le) [] l.

(** ** difflib

    CPython's Lib/difflib.py as the source uses it:
    [difflib.unified_diff(a, b, lineterm='')], that is
    [SequenceMatcher(None, a, b)] (no junk predicate, [autojunk] on) with three
    lines of context. Indices are natural numbers. *)
Module difflib.

(** [b2j]: for each line of [b] the indices where it occurs, increasing. With
    200 lines or more, a line that makes up more than 1% of them (plus one) is
    "popular" and left out. *)
Definition chain_b (b : list string) : gmap string (list nat) :=
  let b2j :=
    foldl (fun (m : gmap string (list nat)) '(i, elt) =>
             <[elt := default [] (m !! elt) ++ [i]]> m)
          ∅ (imap pair b) in
  let n := length b in
  if (200 <=? n)%nat then
    let ntest := (n / 100 + 1)%nat in
    filter (fun p => (length p.2 <=? ntest)%nat = true) b2j
  else b2j.

Section matcher.
Variables a b : list string.
Let b2j := chain_b b.

(** [a[i] == b[j]], both in range. *)
Definition same_line (i j : nat) : bool :=
  match a !! i, b !! j with
  | Some x, Some y => String.eqb x y
  | _, _ => false
  end.

(** [j2len.get(j-1, 0)] *)
Definition j2len_get (j2len : gmap nat nat) (j : nat) : nat :=
  match j with
  | O => 0
  | S j' => default 0 (j2len !! j')
  end.

(** The loop [for j in b2j.get(a[i], nothing)]. *)
Fixpoint scan_js (blo bhi i : nat) (j2len : gmap nat nat) (js : list nat)
    (newj2len : gmap nat nat) (best : nat * nat * nat)
    : gmap nat nat * (nat * nat * nat) :=
  match js with
  | [] => (newj2len, best)
  | j :: js' =>
      if (j <? blo)%nat then scan_js blo bhi i j2len js' newj2len best
      else if (bhi <=? j)%nat then (newj2len, best)
      else
        let k := S (j2len_get j2len j) in
        let newj2len := <[j := k]> newj2len in
        let best :=
          if (best.2 <? k)%nat then (i + 1 - k, j + 1 - k, k)%nat else best in
        scan_js blo bhi i j2len js' newj2len best
  end.

(** The loop [for i in range(alo, ahi)]; [rng] lists the range. *)
Fixpoint scan_is (blo bhi : nat) (rng : list nat) (j2len : gmap nat nat)
    (best : nat * nat * nat) : nat * nat * nat :=
  match rng with
  | [] => best
  | i :: rng' =>
      let js := match a !! i with
                | Some x => default [] (b2j !! x)
                | None => []
                end in
      let '(newj2len, best) := scan_js blo bhi i j2len js ∅ best in
      scan_is blo bhi rng' newj2len best
  end.

(** [while besti > alo and bestj > blo and a[besti-1] == b[bestj-1]]; no
    line is junk. It runs at most [besti - alo] times. *)
Fixpoint extend_left (fuel alo blo : nat) (best : nat * nat * nat)
    : nat * nat * nat :=
  let '(besti, bestj, bestsize) := best in
  match fuel with
  | O => best
  | S fuel' =>
      if (alo <? besti)%nat && (blo <? bestj)%nat
         && same_line (besti - 1) (bestj - 1)
      then extend_left fuel' alo blo (besti - 1, bestj - 1, S bestsize)%nat
      else best
  end.

(** [while besti+bestsize < ahi and bestj+bestsize < bhi and
    a[besti+bestsize] == b[bestj+bestsize]]; at most [ahi] times. *)
Fixpoint extend_right (fuel ahi bhi : nat) (best : nat * nat * nat)
    : nat * nat * nat :=
  let '(besti, bestj, bestsize) := best in
  match fuel with
  | O => best
  | S fuel' =>
      if (besti + bestsize <? ahi)%nat && (bestj + bestsize <? bhi)%nat
         && same_line (besti + bestsize) (bestj + bestsize)
      then extend_right fuel' ahi bhi (besti, bestj, S bestsize)
      else best
  end.

(** [find_longest_match(alo, ahi, blo, bhi)]. The two loops that extend the
    match over junk lines do nothing, [bjunk] being empty. *)
Definition find_longest_match (alo ahi blo bhi : nat) : nat * nat * nat :=
  let best := scan_is blo bhi (seq alo (ahi - alo)) ∅ (alo, blo, 0)%nat in
  let best := extend_left (best.1.1 - alo) alo blo best in
  extend_right ahi ahi bhi best.

(** The loop [while queue] of [get_matching_blocks]; [queue.pop()] takes the
    entry pushed last. Every entry with a match shrinks into at most two
    smaller ones, so [2 * len(a) + 1] rounds empty the queue. *)
Fixpoint drain (fuel : nat) (queue : list (nat * nat * nat * nat))
    (blocks : list (nat * nat * nat)) : list (nat * nat * nat) :=
  match fuel, queue with
  | S fuel', (alo, ahi, blo, bhi) :: queue' =>
      let '(i, j, k) := find_longest_match alo ahi blo bhi in
      match k with
      | O => drain fuel' queue' blocks
      | S _ =>
          let q1 := if (alo <? i)%nat && (blo <? j)%nat
                    then (alo, i, blo, j) :: queue' else queue' in
          let q2 := if (i + k <? ahi)%nat && (j + k <? bhi)%nat
                    then (i + k, ahi, j + k, bhi)%nat :: q1 else q1 in
          drain fuel' q2 (blocks ++ [(i, j, k)])
      end
  | _, _ => blocks
  end.

(** Tuples compare lexicographically. *)
Definition block_le (x y : nat * nat * nat) : bool :=
  let '(i1, j1, k1) := x in
  let '(i2, j2, k2) := y in
  (i1 <? i2)%nat
  || (i1 =? i2)%nat && ((j1 <? j2)%nat || (j1 =? j2)%nat && (k1 <=? k2)%nat).

(** [matching_blocks.sort()] *)
Fixpoint insert_block (x : nat * nat * nat) (l : list (nat * nat * nat))
    : list (nat * nat * nat) :=
  match l with
  | [] => [x]
  | y :: l' => if block_le x y then x :: l else y :: insert_block x l'
  end.
Definition sort_blocks (l : list (nat * nat * nat)) : list (nat * nat * nat) :=
  foldr insert_block [] l.

(** Adjacent equal blocks are merged. *)
Fixpoint collapse (cur : nat * nat * nat) (blocks : list (nat * nat * nat))
    : list (nat * nat * nat) :=
  let '(i1, j1, k1) := cur in
  match blocks with
  | [] => match k1 with O => [] | S _ => [cur] end
  | (i2, j2, k2) :: rest =>
      if (i1 + k1 =? i2)%nat && (j1 + k1 =? j2)%nat
      then collapse (i1, j1, k1 + k2)%nat rest
      else match k1 with
           | O => collapse (i2, j2, k2) rest
           | S _ => cur :: collapse (i2, j2, k2) rest
           end
  end.

Definition get_matching_blocks : list (nat * nat * nat) :=
  let la := length a in
  let lb := length b in
  let matching_blocks := drain (2 * la + 1) [(0, la, 0, lb)%nat] [] in
  collapse (0, 0, 0)%nat (sort_blocks matching_blocks) ++ [(la, lb, 0)%nat].
End matcher.

Inductive tag : Type := replace | delete | insert | equal.

(** An opcode [(tag, i1, i2, j1, j2)]. *)
Record opcode : Type := Opcode {
  op_tag : tag; op_i1 : nat; op_i2 : nat; op_j1 : nat; op_j2 : nat
}.

Definition is_equal (c : opcode) : bool :=
  match op_tag c with equal => true | _ => false end.

(** The loop of [get_opcodes] from position [(i, j)]. *)
Fixpoint opcodes_from (i j : nat) (blocks : list (nat * nat * nat)) : list opcode :=
  match blocks with
  | [] => []
  | (ai, bj, size) :: rest =>
      let change :=
        if (i <? ai)%nat && (j <? bj)%nat then [Opcode replace i ai j bj]
        else if (i <? ai)%nat then [Opcode delete i ai j bj]
        else if (j <? bj)%nat then [Opcode insert i ai j bj]
        else [] in
      let same :=
        match size with
        | O => []
        | S _ => [Opcode equal ai (ai + size) bj (bj + size)]
        end in
      change ++ same ++ opcodes_from (ai + size) (bj + size) rest
  end.

Definition get_opcodes (a b : list string) : list opcode :=
  opcodes_from 0 0 (get_matching_blocks a b).

(** [codes[0] = ...] and [codes[-1] = ...]: an unchanged first or last range
    is cut to [n] lines. *)
Definition fix_first (n : nat) (codes : list opcode) : list opcode :=
  match codes with
  | Opcode equal i1 i2 j1 j2 :: rest =>
      Opcode equal (Nat.max i1 (i2 - n)) i2 (Nat.max j1 (j2 - n)) j2 :: rest
  | _ => codes
  end.
Fixpoint fix_last (n : nat) (codes : list opcode) : list opcode :=
  match codes with
  | [] => []
  | [Opcode equal i1 i2 j1 j2] =>
      [Opcode equal i1 (Nat.min i2 (i1 + n)) j1 (Nat.min j2 (j1 + n))]
  | c :: rest => c :: fix_last n rest
  end.

(** The loop of [get_grouped_opcodes]: a long unchanged range ends the group. *)
Fixpoint group_codes (n : nat) (group : list opcode) (codes : list opcode)
    : list (list opcode) :=
  match codes with
  | [] =>
      match group with
      | [] => []
      | [c] => if is_equal c then [] else [group]
      | _ => [group]
      end
  | Opcode t i1 i2 j1 j2 :: rest =>
      if is_equal (Opcode t i1 i2 j1 j2) && (n + n <? i2 - i1)%nat then
        (group ++ [Opcode t i1 (Nat.min i2 (i1 + n)) j1 (Nat.min j2 (j1 + n))])
        :: group_codes n
             [Opcode t (Nat.max i1 (i2 - n)) i2 (Nat.max j1 (j2 - n)) j2] rest
      else group_codes n (group ++ [Opcode t i1 i2 j1 j2]) rest
  end.

Definition get_grouped_opcodes (a b : list string) (n : nat) : list (list opcode) :=
  let codes := get_opcodes a b in
  let codes := match codes with [] => [Opcode equal 0 1 0 1] | _ => codes end in
  group_codes n [] (fix_last n (fix_first n codes)).

Definition format_range_unified (start stop : nat) : string :=
  let beginning := (start + 1)%nat in
  let length := (stop - start)%nat in
  if (length =? 1)%nat then str.of_nat beginning
  else
    let beginning := if (length =? 0)%nat then (beginning - 1)%nat else beginning in
    str.of_nat beginning +:+ "," +:+ str.of_nat length.

(** [a[i1:i2]] *)
Definition slice {A} (l : list A) (i1 i2 : nat) : list A :=
  take (i2 - i1) (drop i1 l).

(** The lines of one opcode. *)
Definition opcode_lines (a b : list string) (c : opcode) : list string :=
  match op_tag c with
  | equal => (fun line => " " +:+ line) <$> slice a (op_i1 c) (op_i2 c)
  | replace =>
      ((fun line => "-" +:+ line) <$> slice a (op_i1 c) (op_i2 c))
      ++ ((fun line => "+" +:+ line) <$> slice b (op_j1 c) (op_j2 c))
  | delete => (fun line => "-" +:+ line) <$> slice a (op_i1 c) (op_i2 c)
  | insert => (fun line => "+" +:+ line) <$> slice b (op_j1 c) (op_j2 c)
  end.

(** The lines of one group: the hunk header, then the group's opcodes. *)
Definition hunk (a b : list string) (lineterm : string) (group : list opcode)
    : list string :=
  match group, last group with
  | first :: _, Some last =>
      let file1_range := format_range_unified (op_i1 first) (op_i2 last) in
      let file2_range := format_range_unified (op_j1 first) (op_j2 last) in
      ("@@ -" +:+ file1_range +:+ " +" +:+ file2_range +:+ " @@" +:+ lineterm)
      :: concat (opcode_lines a b <$> group)
  | _, _ => []
  end.

(** [unified_diff(a, b, fromfile, tofile, lineterm=lineterm)] with no file
    dates and [n = 3]: before the first hunk it yields its own two header
    lines. *)
Definition unified_diff (a b : list string) (fromfile tofile lineterm : string)
    : list string :=
  match get_grouped_opcodes a b 3 with
  | [] => []
  | groups =>
      ("--- " +:+ fromfile +:+ lineterm)
      :: ("+++ " +:+ tofile +:+ lineterm)
      :: concat (hunk a b lineterm <$> groups)
  end.

End difflib.

(** ** The operating system

    The source reaches the machine through [os], [os.path] and [open]. [W] is
    the state of the machine (file system, working directory, environment);
    a call that only reads takes the state, a call that writes returns the new
    one. [posixpath] below implements the path functions; the theorems that do
    not depend on how paths resolve hold for every implementation.
    [abspath] and [normpath] do not raise (the working directory exists);
    [expanduser] and [realpath] may. *)

Inductive encoding : Type := utf_8 | latin_1.

(** What the source reads of [os.stat]'s result. *)
Record stat_result : Type := StatResult {
  st_size : N;
  st_mode : N;
  st_ctime : string;
  st_mtime : string;
  st_atime : string
}.

Class OS (W : Type) : Type := {
  (** [os.path.expanduser(path)] *)
  os_path_expanduser : W -> string -> result string;
  (** [os.path.abspath(path)] *)
  os_path_abspath : W -> string -> string;
  (** [os.path.realpath(path)] *)
  os_path_realpath : W -> string -> result string;
  (** [os.path.normpath(path)] *)
  os_path_normpath : string -> string;
  (** [os.path.dirname(path)] *)
  os_path_dirname : string -> string;
  (** [os.path.join(a, b)] *)
  os_path_join : string -> string -> string;
  (** [os.path.isdir(path)], [os.path.isfile(path)] *)
  os_path_isdir : W -> string -> bool;
  os_path_isfile : W -> string -> bool;
  (** [open(path, 'r', encoding=enc).read()] *)
  open_read : W -> string -> encoding -> result string;
  (** [open(path, 'rb').read()] *)
  open_read_binary : W -> string -> result string;
  (** [open(path, 'w', encoding='utf-8').write(content)] *)
  open_write : string -> string -> W -> W * result ();
  (** [os.makedirs(path, exist_ok=True)] *)
  os_makedirs : string -> W -> W * result ();
  (** [os.listdir(path)] *)
  os_listdir : W -> string -> result (list string);
  (** [os.stat(path)] *)
  os_stat : W -> string -> result stat_result;
  (** [os.rename(src, dst)] *)
  os_rename : string -> string -> W -> W * result ()
}.

(** Code that may change the machine and may raise. *)
Definition io (W A : Type) : Type := W -> W * result A.

#[global] Instance io_ret {W} : MRet (io W) := fun A a w => (w, Ok a).
#[global] Instance io_bind {W} : MBind (io W) := fun A B f m w =>
  match m w with
  | (w', Ok a) => f a w'
  | (w', Raise e) => (w', Raise e)
  end.

(** A call that reads the machine. *)
Definition io_read {W A} (f : W -> result A) : io W A := fun w => (w, f w).
(** A computation that does not touch the machine. *)
Definition io_pure {W A} (r : result A) : io W A := fun w => (w, r).

(** ** FileServer.py *)

(** The module's global [allowed_directories] and the machine. *)
Record ServerState (W : Type) : Type := {
  allowed_directories : list string;
  world : W
}.
Arguments allowed_directories {W} s.
Arguments world {W} s.

(** An edit is a dict; [mk_edit] is [{'oldText': old, 'newText': new}]. *)
Definition mk_edit (old new : string) : gmap string string :=
  <["oldText" := old]> (<["newText" := new]> ∅).

(** [edit[key]] *)
Definition getitem (d : gmap string string) (key : string) : result string :=
  match d !! key with
  | Some v => Ok v
  | None => Raise (KeyError key)
  end.

(** The result of [build_directory_tree]: a list of dicts
    [{'name', 'type': 'file'}] or [{'name', 'type': 'directory', 'children'}]. *)
#[warnings="-register-all"]
Inductive tree : Type :=
| TreeFile (name : string)
| TreeDir (name : string) (children : list tree).

(** What the media, tree and search tools take from the library and the
    interpreter, left open here: [base64.b64encode(data).decode('utf-8')],
    [mimetypes.guess_type(path)[0]], [json.dumps(tree, indent=2)],
    [fnmatch.fnmatch(name, pat)], and the number of nested calls the
    interpreter allows before it raises [RecursionError]. *)
Class Lib : Type := {
  base64_b64encode : string -> string;
  mimetypes_guess_type : string -> option string;
  json_dumps : list tree -> string;
  fnmatch : string -> string -> bool;
  recursion_limit : nat
}.

(** A tool: code that may read the module's global, change the machine, and
    raise. *)
Definition tool (W A : Type) : Type := ServerState W -> ServerState W * result A.

#[global] Instance tool_ret {W} : MRet (tool W) := fun A a s => (s, Ok a).
#[global] Instance tool_bind {W} : MBind (tool W) := fun A B f m s =>
  match m s with
  | (s', Ok a) => f a s'
  | (s', Raise e) => (s', Raise e)
  end.

(** [raise e] *)
Definition tool_raise {W A} (e : exn) : tool W A := fun s => (s, Raise e).
(** A call that reads the global and the machine. *)
Definition tool_get {W A} (f : ServerState W -> result A) : tool W A :=
  fun s => (s, f s).
(** A call that works on the machine only. *)
Definition tool_io {W A} (m : io W A) : tool W A := fun s =>
  let '(w', r) := m (world s) in
  ({| allowed_directories := allowed_directories s; world := w' |}, r).

(** [f"{x:.1f}"] for the float [num / den], exactly: the nearest tenth, a tie
    going to the even digit. *)
Definition fixed1 (num den : N) : string :=
  let q := (10 * num / den)%N in
  let r := (10 * num mod den)%N in
  let q := if (den <? 2 * r)%N || ((2 * r =? den)%N && N.odd q) then (q + 1)%N else q in
  str.of_N (q / 10) +:+ "." +:+ str.of_N (q mod 10).

(** The loop of [format_size]: [size] is [num / den], and dividing by
    [1024.0] is exact. *)
Fixpoint format_size_loop (units : list string) (num den : N) : string :=
  match units with
  | [] => fixed1 num den +:+ " PB"
  | unit :: units' =>
      if (num <? 1024 * den)%N then fixed1 num den +:+ " " +:+ unit
      else format_size_loop units' num (1024 * den)
  end.

(** [format_size(size)], as long as [float(size)] is exact (below [2^53]). *)
Definition format_size (size : N) : string :=
  format_size_loop ["B"; "KB"; "MB"; "GB"; "TB"] size 1.

(** [oct(n)] *)
Fixpoint oct_digits (fuel : nat) (n : N) (acc : string) : string :=
  match fuel with
  | O => acc
  | S fuel' =>
      let acc := str.of_N (n mod 8) +:+ acc in
      if (n <? 8)%N then acc else oct_digits fuel' (n / 8) acc
  end.
Definition oct (n : N) : string := "0o" +:+ oct_digits (S (N.size_nat n)) n "".

(** [str(b)] *)
Definition str_of_bool (b : bool) : string := if b then "True" else "False".

(** An [Optional[int]] in a condition. *)
Definition truthy (n : option Z) : bool :=
  match n with
  | Some n => negb (n =? 0)%Z
  | None => false
  end.

(** The characters of a string, as iterating over it gives them. *)
Fixpoint chars (s : string) : list string :=
  match s with
  | "" => []
  | String c s' => String c "" :: chars s'
  end.

(** How [main] ends: the server runs with the state [main] has set up, or the
    process exits. *)
Inductive startup (W : Type) : Type :=
| Serving (s : ServerState W)
| Exit (code : nat).
Arguments Serving {W} s.
Arguments Exit {W} code.

(** A tool leaves the global [allowed_directories] as it found it. *)
Definition preserves {W A} (m : tool W A) : Prop :=
  forall s, allowed_directories (m s).1 = allowed_directories s.

(** The calls of the public surface. *)
Inductive tool_call : Type :=
| ReadTextFile (path : string) (tail head : option Z)
| ReadMediaFile (path : string)
| WriteFile (path content : string)
| EditFile (path : string) (edits : list (gmap string string)) (dry_run : bool)
| CreateDirectory (path : string)
| ListDirectory (path : string)
| ListDirectoryWithSizes (path sort_by : string)
| DirectoryTree (path : string) (exclude_patterns : option (list string))
| MoveFile (source destination : string)
| SearchFiles (path pattern : string) (exclude_patterns : option (list string))
| GetFileInfo (path : string)
| ListAllowedDirectories.

Section FileServer.
Context {W : Type} `{OS W} `{Lib}.

Definition expand_home (w : W) (path : string) : result string :=
  os_path_expanduser w path.

Definition normalize_path (path : string) : string :=
  os_path_normpath path.

Definition set_allowed_directories (directories : list string)
    (s : ServerState W) : ServerState W :=
  {| allowed_directories := directories; world := world s |}.

(** The loop [for allowed_dir in allowed_directories] of [validate_path] and
    the [raise] behind it. *)
Fixpoint check_allowed (normalized file_path : string) (dirs : list string)
    : result string :=
  match dirs with
  | [] =>
      Raise (ValueError ("Access denied: " +:+ file_path
                         +:+ " is outside allowed directories"))
  | allowed_dir :: dirs' =>
      if str.startswith normalized allowed_dir then Ok normalized
      else check_allowed normalized file_path dirs'
  end.

(** The [normalized] of [validate_path]: the resolved path, or the absolute
    one when resolving raised. [expand_home] is called before the [try]: what
    it raises is not caught. *)
Definition normalized_path (w : W) (file_path : string) : result string :=
  expanded ← expand_home w file_path;
  let absolute := os_path_abspath w expanded in
  match os_path_realpath w absolute with
  | Ok resolved => Ok (normalize_path resolved)
  | Raise _ => Ok (normalize_path absolute)
  end.

Definition validate_path (s : ServerState W) (file_path : string)
    : result string :=
  normalized ← normalized_path (world s) file_path;
  check_allowed normalized file_path (allowed_directories s).

Definition read_file_content (w : W) (file_path : string) : result string :=
  match open_read w file_path utf_8 with
  | Raise UnicodeDecodeError => open_read w file_path latin_1
  | r => r
  end.

Definition write_file_content (file_path content : string) : io W () :=
  _ ← os_makedirs (os_path_dirname file_path);
  open_write file_path content.

(** The loop [for edit in edits] of [apply_file_edits]. *)
Fixpoint apply_edits (new_content : string) (edits : list (gmap string string))
    : result string :=
  match edits with
  | [] => Ok new_content
  | edit :: edits' =>
      old_text ← getitem edit "oldText";
      new_text ← getitem edit "newText";
      if negb (str.contains new_content old_text) then
        Raise (ValueError ("Text to replace not found: "
                           +:+ str.take 50 old_text +:+ "..."))
      else if (1 <? str.count new_content old_text)%nat then
        Raise (ValueError ("Text appears multiple times in file: "
                           +:+ str.take 50 old_text +:+ "..."))
      else apply_edits (str.replace1 new_content old_text new_text) edits'
  end.

Definition apply_file_edits (file_path : string)
    (edits : list (gmap string string)) (dry_run : bool) : io W string :=
  content ← io_read (fun w => read_file_content w file_path);
  new_content ← io_pure (apply_edits content edits);
  _ ← (if negb dry_run then write_file_content file_path new_content
       else mret ());
  let diff_lines := ["--- " +:+ file_path; "+++ " +:+ file_path] in
  let old_lines := str.splitlines content in
  let new_lines := str.splitlines new_content in
  let diff := difflib.unified_diff old_lines new_lines "" "" "" in
  mret (str.join LF (diff_lines ++ diff)).

Definition read_file_as_base64 (w : W) (file_path : string) : result string :=
  data ← open_read_binary w file_path;
  Ok (base64_b64encode data).

(** The dict of [get_file_stats], in the order of its keys, each value as
    [f"{v}"] prints it. *)
Definition get_file_stats (w : W) (file_path : string)
    : result (list (string * string)) :=
  stats ← os_stat w file_path;
  Ok [("size", format_size (st_size stats));
      ("created", st_ctime stats);
      ("modified", st_mtime stats);
      ("accessed", st_atime stats);
      ("isDirectory", str_of_bool (os_path_isdir w file_path));
      ("isFile", str_of_bool (os_path_isfile w file_path));
      ("permissions",
       let o := oct (st_mode stats) in str.drop (String.length o - 3) o)].

Definition tail_file (w : W) (file_path : string) (num_lines : Z) : result string :=
  text ← open_read w file_path utf_8;
  let lines := str.readlines text in
  Ok (str.join "" (slice_from lines (- num_lines))).

Definition head_file (w : W) (file_path : string) (num_lines : Z) : result string :=
  text ← open_read w file_path utf_8;
  Ok (str.join "" (take (Z.to_nat num_lines) (str.readlines text))).

(** The loop [for entry in sorted(entries)] of [build_directory_tree]; [rec]
    is the recursive call. *)
Fixpoint tree_entries (rec : string -> result (list tree)) (w : W)
    (directory : string) (exclude_patterns entries : list string)
    : result (list tree) :=
  match entries with
  | [] => Ok []
  | entry :: entries' =>
      let entry_path := os_path_join directory entry in
      let should_exclude := existsb (fun pat => fnmatch entry pat) exclude_patterns in
      if should_exclude then tree_entries rec w directory exclude_patterns entries'
      else
        tree_entry ←
          (if os_path_isdir w entry_path
           then children ← rec entry_path; Ok (TreeDir entry children)
           else Ok (TreeFile entry));
        others ← tree_entries rec w directory exclude_patterns entries';
        Ok (tree_entry :: others)
  end.

(** [build_directory_tree(directory, exclude_patterns)]; [depth] is the
    number of nested calls left. *)
Fixpoint build_directory_tree (depth : nat) (w : W) (directory : string)
    (exclude_patterns : list string) : result (list tree) :=
  match depth with
  | O => Raise RecursionError
  | S depth' =>
      match os_listdir w directory with
      | Raise (PermissionError _) => Ok []
      | Raise e => Raise e
      | Ok entries =>
          tree_entries
            (fun entry_path =>
               build_directory_tree depth' w entry_path exclude_patterns)
            w directory exclude_patterns (sorted_by String.leb entries)
      end
  end.

(** *** The tools *)

Definition read_text_file (path : string) (tail head : option Z) : tool W string :=
  if truthy head && truthy tail then
    tool_raise (ValueError "Cannot specify both head and tail parameters")
  else
    valid_path ← tool_get (fun s => validate_path s path);
    if truthy tail then
      tool_get (fun s => tail_file (world s) valid_path (default 0%Z tail))
    else if truthy head then
      tool_get (fun s => head_file (world s) valid_path (default 0%Z head))
    else tool_get (fun s => read_file_content (world s) valid_path).

Definition read_media_file (path : string) : tool W string :=
  valid_path ← tool_get (fun s => validate_path s path);
  let mime_type := default "application/octet-stream"
                     (match mimetypes_guess_type valid_path with
                      | Some "" => None
                      | m => m
                      end) in
  data ← tool_get (fun s => read_file_as_base64 (world s) valid_path);
  mret ("MIME Type: " +:+ mime_type +:+ LF +:+ LF
        +:+ "Base64 Data (first 100 chars):" +:+ LF +:+ str.take 100 data
        +:+ "..." +:+ LF +:+ LF +:+ "Full length: "
        +:+ str.of_nat (String.length data) +:+ " characters").

Definition write_file (path content : string) : tool W string :=
  valid_path ← tool_get (fun s => validate_path s path);
  _ ← tool_io (write_file_content valid_path content);
  mret ("Successfully wrote to " +:+ path).

Definition edit_file (path : string) (edits : list (gmap string string))
    (dry_run : bool) : tool W string :=
  valid_path ← tool_get (fun s => validate_path s path);
  tool_io (apply_file_edits valid_path edits dry_run).

Definition create_directory (path : string) : tool W string :=
  valid_path ← tool_get (fun s => validate_path s path);
  _ ← tool_io (os_makedirs valid_path);
  mret ("Successfully created directory " +:+ path).

Definition list_directory (path : string) : tool W string :=
  valid_path ← tool_get (fun s => validate_path s path);
  entries ← tool_get (fun s => os_listdir (world s) valid_path);
  tool_get (fun s =>
    Ok (str.join LF
          ((fun entry =>
              let entry_path := os_path_join valid_path entry in
              let prefix := if os_path_isdir (world s) entry_path
                            then "[DIR]" else "[FILE]" in
              prefix +:+ " " +:+ entry)
           <$> sorted_by String.leb entries))).

(** An entry of [detailed_entries]: name, is_directory, size. *)
Definition detailed_entry (w : W) (valid_path entry : string)
    : string * bool * N :=
  let entry_path := os_path_join valid_path entry in
  match os_stat w entry_path with
  | Ok stats => (entry, os_path_isdir w entry_path, st_size stats)
  | Raise _ => (entry, os_path_isdir w entry_path, 0%N)
  end.

Definition list_directory_with_sizes (path sort_by : string) : tool W string :=
  valid_path ← tool_get (fun s => validate_path s path);
  entries ← tool_get (fun s => os_listdir (world s) valid_path);
  tool_get (fun s =>
    let detailed_entries := detailed_entry (world s) valid_path <$> entries in
    let detailed_entries :=
      if String.eqb sort_by "size"
      then sorted_by (fun x y => (y.2 <=? x.2)%N) detailed_entries
      else sorted_by (fun x y => String.leb x.1.1 y.1.1) detailed_entries in
    let formatted :=
      (fun e : string * bool * N =>
         let prefix := if e.1.2 then "[DIR]" else "[FILE]" in
         let size_str := if e.1.2 then "" else str.rjust (format_size e.2) 10 in
         prefix +:+ " " +:+ str.ljust e.1.1 30 +:+ " " +:+ size_str)
      <$> detailed_entries in
    let files := filter (fun e : string * bool * N => e.1.2 = false) detailed_entries in
    let total_files := length files in
    let total_dirs := (length detailed_entries - total_files)%nat in
    let total_size := foldr (fun e acc => (e.2 + acc)%N) 0%N files in
    Ok (str.join LF
          (formatted
           ++ [""; "Total: " +:+ str.of_nat total_files +:+ " files, "
                   +:+ str.of_nat total_dirs +:+ " directories";
               "Combined size: " +:+ format_size total_size]))).

Definition directory_tree (path : string) (exclude_patterns : option (list string))
    : tool W string :=
  valid_path ← tool_get (fun s => validate_path s path);
  let exclude_patterns := default [] exclude_patterns in
  tree_data ← tool_get (fun s =>
    build_directory_tree recursion_limit (world s) valid_path exclude_patterns);
  mret (json_dumps tree_data).

Definition move_file (source destination : string) : tool W string :=
  valid_source ← tool_get (fun s => validate_path s source);
  valid_dest ← tool_get (fun s => validate_path s destination);
  _ ← tool_io (os_rename valid_source valid_dest);
  mret ("Successfully moved " +:+ source +:+ " to " +:+ destination).

(** The tool [search_files]. Its definition rebinds the module's name
    [search_files], which until then is the helper that walks the directory;
    the call in its body therefore enters the tool again, with the validated
    path, and the helper is never run. [depth] is the number of nested calls
    left; what the call returns would be a string, joined character by
    character. *)
Fixpoint search_files (depth : nat) (path pattern : string)
    (exclude_patterns : option (list string)) : tool W string :=
  match depth with
  | O => tool_raise RecursionError
  | S depth' =>
      valid_path ← tool_get (fun s => validate_path s path);
      let exclude_patterns := default [] exclude_patterns in
      results ← search_files depth' valid_path pattern (Some exclude_patterns);
      if negb (String.eqb results "") then mret (str.join LF (chars results))
      else mret "No matches found"
  end.

Definition get_file_info (path : string) : tool W string :=
  valid_path ← tool_get (fun s => validate_path s path);
  info ← tool_get (fun s => get_file_stats (world s) valid_path);
  mret (str.join LF ((fun kv : string * string => kv.1 +:+ ": " +:+ kv.2) <$> info)).

Definition list_allowed_directories : tool W string := fun s =>
  match allowed_directories s with
  | [] => (s, Ok "No allowed directories configured")
  | dirs => (s, Ok ("Allowed directories:" +:+ LF +:+ str.join LF dirs))
  end.

(** The dispatch of a call to its tool. *)
Definition call_tool (c : tool_call) : tool W string :=
  match c with
  | ReadTextFile path tail head => read_text_file path tail head
  | ReadMediaFile path => read_media_file path
  | WriteFile path content => write_file path content
  | EditFile path edits dry_run => edit_file path edits dry_run
  | CreateDirectory path => create_directory path
  | ListDirectory path => list_directory path
  | ListDirectoryWithSizes path sort_by => list_directory_with_sizes path sort_by
  | DirectoryTree path exclude_patterns => directory_tree path exclude_patterns
  | MoveFile source destination => move_file source destination
  | SearchFiles path pattern exclude_patterns =>
      search_files recursion_limit path pattern exclude_patterns
  | GetFileInfo path => get_file_info path
  | ListAllowedDirectories => list_allowed_directories
  end.

(** The server after [main] has set the allowed directories: the calls are
    served one after the other, a raised exception being the call's answer. *)
Fixpoint serve (calls : list tool_call) (s : ServerState W)
    : ServerState W * list (result string) :=
  match calls with
  | [] => (s, [])
  | c :: calls' =>
      let '(s', r) := call_tool c s in
      let '(s'', rs) := serve calls' s' in
      (s'', r :: rs)
  end.

(** The loop [for directory in args] of [main]; [None] is [sys.exit(1)],
    which the loop's [except Exception] handler calls as well. An exception
    of [expand_home], raised before the [try], is caught by nothing: the
    interpreter ends the process, with status 1 too. *)
Fixpoint initial_directories (w : W) (args : list string) : option (list string) :=
  match args with
  | [] => Some []
  | directory :: args' =>
      match expand_home w directory with
      | Ok expanded =>
          let absolute := os_path_abspath w expanded in
          match os_path_realpath w absolute with
          | Ok resolved =>
              let normalized := normalize_path resolved in
              if negb (os_path_isdir w normalized) then None
              else
                initial_dirs ← initial_directories w args';
                Some (normalized :: initial_dirs)
          | Raise _ => None
          end
      | Raise _ => None
      end
  end.

(** [main()] up to [mcp.run]; [args] is [sys.argv[1:]]. *)
Definition main (args : list string) (s : ServerState W) : startup W :=
  match args with
  | [] => Exit 1
  | _ =>
      match initial_directories (world s) args with
      | Some initial_dirs => Serving (set_allowed_directories initial_dirs s)
      | None => Exit 1
      end
  end.

End FileServer.

(** The spec's names for the failures. *)
Definition AccessDenied (file_path : string) : exn :=
  ValueError ("Access denied: " +:+ file_path +:+ " is outside allowed directories").
Definition TextNotFound (old_text : string) : exn :=
  ValueError ("Text to replace not found: " +:+ str.take 50 old_text +:+ "...").
Definition AmbiguousMatch (old_text : string) : exn :=
  ValueError ("Text appears multiple times in file: " +:+ str.take 50 old_text +:+ "...").

(** ** A POSIX machine

    The file system is a map from canonical absolute paths (["/a/b"]) to what
    is stored there; ["/"] is a directory without an entry of its own. A
    file holds bytes. *)
Inductive node : Type :=
| Dir
| File (data : string)
| Symlink (target : string).

Record posix : Type := {
  fs : gmap string node;
  (** [os.getcwd()] *)
  cwd : string;
  (** [os.environ.get('HOME')] *)
  environ_HOME : option string;
  (** [pwd.getpwuid(os.getuid()).pw_dir]; [None] is its [KeyError]. *)
  pw_uid_dir : option string;
  (** [pwd.getpwnam(name).pw_dir] by name. *)
  pw_dirs : gmap string string;
  (** The number of nested calls of [_joinrealpath] the interpreter allows
      where [os.path.realpath] is called, before it raises [RecursionError]:
      what the calls in progress leave of [sys.getrecursionlimit()]. *)
  nesting : nat
}.

(** [os.lstat(path)] for a path whose directory part holds no symlink: the
    entry itself. A path with a NUL character is refused before the system
    call, by a [ValueError]. *)
Definition lstat (w : posix) (path : string) : result node :=
  if str.has_char NUL path then Raise (ValueError "embedded null byte")
  else if String.eqb path "/" then Ok Dir
  else
    match fs w !! path with
    | Some n => Ok n
    | None => Raise (OSError "No such file or directory")
    end.

Definition is_symlink (n : node) : bool :=
  match n with Symlink _ => true | _ => false end.

(** CPython's Lib/posixpath.py. *)
Module posixpath.

Definition sep : ascii := "/"%char.
Definition curdir : string := ".".
Definition pardir : string := "..".

Definition isabs (s : string) : bool := str.startswith s "/".

(** [join(a, b)]; [join(a, b, c)] is [join (join a b) c]. *)
Definition join (a b : string) : string :=
  if str.startswith b "/" then b
  else if String.eqb a "" || str.endswith a sep then a +:+ b
  else a +:+ "/" +:+ b.

(** [(p[:i], p[i:])] for [i = p.rfind('/') + 1]. *)
Fixpoint cut_last (p : string) : string * string :=
  match p with
  | "" => ("", "")
  | String c p' =>
      let '(head, tail) := cut_last p' in
      match head with
      | String _ _ => (String c head, tail)
      | "" => if Ascii.eqb c sep then (String c "", tail) else ("", String c tail)
      end
  end.

(** [head == sep * len(head)] *)
Fixpoint all_sep (s : string) : bool :=
  match s with
  | "" => true
  | String c s' => Ascii.eqb c sep && all_sep s'
  end.

Definition split (p : string) : string * string :=
  let '(head, tail) := cut_last p in
  let head :=
    if negb (String.eqb head "") && negb (all_sep head)
    then str.rstrip sep head else head in
  (head, tail).

Definition dirname (p : string) : string := (split p).1.

(** The loop [for comp in comps] of [normpath]. *)
Fixpoint norm_comps (initial_slashes : nat) (new_comps comps : list string)
    : list string :=
  match comps with
  | [] => new_comps
  | comp :: comps' =>
      if String.eqb comp "" || String.eqb comp "." then
        norm_comps initial_slashes new_comps comps'
      else if negb (String.eqb comp "..")
              || ((initial_slashes =? 0)%nat && bool_decide (new_comps = []))
              || bool_decide (last new_comps = Some "..")
      then norm_comps initial_slashes (new_comps ++ [comp]) comps'
      else norm_comps initial_slashes (take (length new_comps - 1) new_comps) comps'
  end.

Definition normpath (path : string) : string :=
  if String.eqb path "" then "."
  else
    let initial_slashes :=
      if str.startswith path "/" then
        if str.startswith path "//" && negb (str.startswith path "///")
        then 2%nat else 1%nat
      else 0%nat in
    let comps := norm_comps initial_slashes [] (str.split sep path) in
    let path := str.join "/" comps in
    let path := match initial_slashes with
                | O => path
                | S O => "/" +:+ path
                | _ => "//" +:+ path
                end in
    if String.eqb path "" then "." else path.

Definition abspath (w : posix) (path : string) : string :=
  let path := if negb (isabs path) then join (cwd w) path else path in
  normpath path.

(** [pwd.getpwnam(name).pw_dir]; [None] is its [KeyError]. A name with a NUL
    character is refused before the lookup, by a [ValueError]. *)
Definition getpwnam_dir (w : posix) (name : string) : result (option string) :=
  if str.has_char NUL name then Raise (ValueError "embedded null byte")
  else Ok (pw_dirs w !! name).

(** [expanduser(path)]. It catches the [KeyError] of a name that is not
    known, and nothing else. *)
Definition expanduser (w : posix) (path : string) : result string :=
  if negb (str.startswith path "~") then Ok path
  else
    let i := default (String.length path) (str.find sep path 1) in
    userhome ←
      (if (i =? 1)%nat then
         Ok match environ_HOME w with
            | Some home => Some home
            | None => pw_uid_dir w
            end
       else getpwnam_dir w (str.take (i - 1) (str.drop 1 path)));
    match userhome with
    | None => Ok path
    | Some userhome =>
        let userhome := str.rstrip sep userhome in
        let expanded := userhome +:+ str.drop i path in
        Ok (if String.eqb expanded "" then "/" else expanded)
    end.

(** [seen] of [_joinrealpath]: a symlink's path maps to [None] while it is
    being resolved and to its target afterwards. *)
Abbreviation seen_map := (gmap string (option string)).

(** What [_joinrealpath] returns, [(path, ok)], with [seen] as it leaves it. *)
Definition resolved : Type := string * bool * seen_map.

(** The loop [while rest] of [_joinrealpath], one round per component of
    [rest]: [names] is [rest.split('/')], and the [rest] left after a
    component is the others joined by ['/']. [rec] is the recursive call. *)
Fixpoint walk (rec : string -> string -> seen_map -> result resolved)
    (w : posix) (strict : bool) (path : string) (names : list string)
    (seen : seen_map) : result resolved :=
  match names with
  | [] => Ok (path, true, seen)
  | name :: rest =>
      if String.eqb name "" || String.eqb name curdir then
        walk rec w strict path rest seen
      else if String.eqb name pardir then
        let path :=
          if negb (String.eqb path "") then
            let '(path, name) := split path in
            if String.eqb name pardir then join (join path pardir) pardir
            else path
          else pardir in
        walk rec w strict path rest seen
      else
        let newpath := join path name in
        match lstat w newpath with
        | Raise e =>
            if is_OSError e && negb strict
            then walk rec w strict newpath rest seen
            else Raise e
        | Ok (Symlink target) =>
            match seen !! newpath with
            | Some (Some path) => walk rec w strict path rest seen
            | Some None =>
                if strict then Raise (OSError "Too many levels of symbolic links")
                else Ok (join newpath (str.join "/" rest), false, seen)
            | None =>
                match rec path target (<[newpath := None]> seen) with
                | Raise e => Raise e
                | Ok (path, false, seen) =>
                    Ok (join path (str.join "/" rest), false, seen)
                | Ok (path, true, seen) =>
                    walk rec w strict path rest (<[newpath := Some path]> seen)
                end
            end
        | Ok _ => walk rec w strict newpath rest seen
        end
  end.

(** [_joinrealpath(path, rest, strict, seen)]. A recursive call is made for a
    symlink that is not in [seen]; [depth] is the number of nested calls the
    interpreter allows, this one included. *)
Fixpoint joinrealpath (depth : nat) (w : posix) (strict : bool)
    (path rest : string) (seen : seen_map) : result resolved :=
  match depth with
  | O => Raise RecursionError
  | S depth' =>
      let '(path, rest) :=
        if isabs rest then ("/", str.drop 1 rest) else (path, rest) in
      walk (joinrealpath depth' w strict) w strict path (str.split sep rest) seen
  end.

(** The symlinks of the file system. *)
Definition symlinks (w : posix) : gmap string node :=
  filter (fun p => is_symlink p.2 = true) (fs w).

(** [realpath(filename, strict=strict)]. A symlink that leads to a symlink,
    and so on, nests the calls of [_joinrealpath]; beyond what the interpreter
    allows the call raises [RecursionError]. *)
Definition realpath (w : posix) (strict : bool) (filename : string)
    : result string :=
  '(path, ok, _) ← joinrealpath (nesting w) w strict "" filename ∅;
  Ok (abspath w path).

End posixpath.

(** *** System calls and files of the POSIX machine

    The system calls behind [open], [os.stat], [os.makedirs], [os.listdir] and
    [os.rename], kept small: a call resolves its path with every component
    present ([namei]) and then reads or updates the entry. Permissions, times
    and open files are not modelled. *)

(** The path a system call acts on: relative paths start at the working
    directory, all symlinks are followed, every component exists. The kernel
    resolves a path the way [_joinrealpath] does with [strict]; the
    interpreter's stack is none of its concern, so the depth here is one
    that every chain of symlinks can be followed with (nested calls resolve
    different symlinks). Two things the kernel checks are left out: a bound
    on the number of symlinks followed (only a loop is refused), and that
    what a [.] or [..] follows is a directory. The paths the server passes
    are normalized. *)
Definition namei (w : posix) (path : string) : result string :=
  '(r, _, _) ← posixpath.joinrealpath (S (size (posixpath.symlinks w))) w true ""
                 (posixpath.join (cwd w) path) ∅;
  Ok (posixpath.abspath w r).

(** The entry a path leads to. *)
Definition stat_node (w : posix) (path : string) : result node :=
  r ← namei w path; lstat w r.

(** The parent directory, resolved, and the last component of a path that
    names an entry to create or to move. *)
Definition parent_and_name (w : posix) (path : string) : result (string * string) :=
  let '(head, tail) := posixpath.split (posixpath.join (cwd w) path) in
  let '(head, tail) :=
    if String.eqb tail "" then posixpath.split head else (head, tail) in
  if String.eqb tail "" || String.eqb tail "." || String.eqb tail ".."
  then Raise (OSError "Invalid argument")
  else
    d ← namei w head;
    n ← lstat w d;
    match n with
    | Dir => Ok (d, tail)
    | _ => Raise (OSError "Not a directory")
    end.

(** UTF-8 over the code points below 256: one byte below 128, two bytes
    (0xC2 or 0xC3, then a continuation byte) from 128 on. Bytes that encode
    nothing, or a code point this model of text does not have, are refused. *)
Fixpoint utf8_decode (data : string) : result string :=
  match data with
  | "" => Ok ""
  | String b rest =>
      let n := nat_of_ascii b in
      if (n <? 128)%nat then s ← utf8_decode rest; Ok (String b s)
      else
        match rest with
        | String b2 rest' =>
            let m := nat_of_ascii b2 in
            if ((n =? 194)%nat || (n =? 195)%nat) && (128 <=? m)%nat && (m <? 192)%nat
            then s ← utf8_decode rest';
                 Ok (String (ascii_of_nat ((n - 192) * 64 + (m - 128))) s)
            else Raise UnicodeDecodeError
        | "" => Raise UnicodeDecodeError
        end
  end.

Fixpoint utf8_encode (text : string) : string :=
  match text with
  | "" => ""
  | String c rest =>
      let n := nat_of_ascii c in
      if (n <? 128)%nat then String c (utf8_encode rest)
      else String (ascii_of_nat (192 + n / 64))
             (String (ascii_of_nat (128 + n mod 64)) (utf8_encode rest))
  end.

Definition decode (enc : encoding) (data : string) : result string :=
  match enc with
  | utf_8 => utf8_decode data
  | latin_1 => Ok data
  end.

Definition with_fs (w : posix) (fs' : gmap string node) : posix :=
  {| fs := fs'; cwd := cwd w; environ_HOME := environ_HOME w;
     pw_uid_dir := pw_uid_dir w; pw_dirs := pw_dirs w; nesting := nesting w |}.

Definition posix_open_read_binary (w : posix) (path : string) : result string :=
  n ← stat_node w path;
  match n with
  | File data => Ok data
  | _ => Raise (OSError "Is a directory")
  end.

Definition posix_open_read (w : posix) (path : string) (enc : encoding)
    : result string :=
  data ← posix_open_read_binary w path;
  text ← decode enc data;
  Ok (str.universal_newlines text).

(** [open(path, 'w')]: an existing file is overwritten; a missing one is
    created in its parent directory, which must exist. Where the last
    component is a symlink that leads to nothing, the file is created where
    the symlink leads, in the same way; [links] is the number of such
    symlinks that may follow one another. A path whose last component is
    empty (it ends with a slash), [.] or [..] names a directory, not a file. *)
Fixpoint open_write_at (links : nat) (path content : string) : io posix () := fun w =>
  let tail := (posixpath.split path).2 in
  if String.eqb tail "" || String.eqb tail "." || String.eqb tail ".."
  then (w, Raise (OSError "Is a directory"))
  else
    match namei w path with
    | Ok r =>
        match lstat w r with
        | Ok (File _) => (with_fs w (<[r := File (utf8_encode content)]> (fs w)), Ok ())
        | Ok _ => (w, Raise (OSError "Is a directory"))
        | Raise e => (w, Raise e)
        end
    | Raise (OSError _) =>
        match parent_and_name w path with
        | Ok (d, name) =>
            let target := posixpath.join d name in
            match lstat w target with
            | Raise (OSError _) =>
                (with_fs w (<[target := File (utf8_encode content)]> (fs w)), Ok ())
            | Raise e => (w, Raise e)
            | Ok (Symlink link) =>
                match links with
                | S links' => open_write_at links' (posixpath.join d link) content w
                | O => (w, Raise (OSError "Too many levels of symbolic links"))
                end
            | Ok _ => (w, Raise (OSError "Not a directory"))
            end
        | Raise e => (w, Raise e)
        end
    | Raise e => (w, Raise e)
    end.

(** A chain of symlinks that ends has no more links than there are
    symlinks. *)
Definition posix_open_write (path content : string) : io posix () := fun w =>
  open_write_at (size (posixpath.symlinks w)) path content w.

(** [os.mkdir(path)] *)
Definition mkdir (path : string) : io posix () := fun w =>
  match parent_and_name w path with
  | Ok (d, name) =>
      let target := posixpath.join d name in
      match lstat w target with
      | Raise (OSError _) => (with_fs w (<[target := Dir]> (fs w)), Ok ())
      | Raise e => (w, Raise e)
      | Ok _ => (w, Raise (OSError "File exists"))
      end
  | Raise e => (w, Raise e)
  end.

Definition exists_ (w : posix) (path : string) : bool :=
  match stat_node w path with Ok _ => true | Raise _ => false end.

Definition isdir (w : posix) (path : string) : bool :=
  match stat_node w path with Ok Dir => true | _ => false end.

Definition isfile (w : posix) (path : string) : bool :=
  match stat_node w path with Ok (File _) => true | _ => false end.

(** [os.makedirs(name, exist_ok=True)]: the missing ancestors first, then
    [name] itself; the head gets shorter with every call. *)
Fixpoint makedirs (fuel : nat) (name : string) : io posix () := fun w =>
  match fuel with
  | O => (w, Raise RecursionError)
  | S fuel' =>
      let '(head, tail) := posixpath.split name in
      let '(head, tail) :=
        if String.eqb tail "" then posixpath.split head else (head, tail) in
      let '(w1, stop) :=
        if negb (String.eqb head "") && negb (String.eqb tail "")
           && negb (exists_ w head)
        then
          let '(w1, _) := makedirs fuel' head w in
          (w1, String.eqb tail posixpath.curdir)
        else (w, false) in
      if stop then (w1, Ok ())
      else
        match mkdir name w1 with
        | (w2, Raise (OSError msg)) =>
            if isdir w2 name then (w2, Ok ()) else (w2, Raise (OSError msg))
        | r => r
        end
  end.

Definition posix_makedirs (name : string) : io posix () :=
  makedirs (S (String.length name)) name.

(** [os.listdir(path)]: the names of the entries of a directory. *)
Definition posix_listdir (w : posix) (path : string) : result (list string) :=
  r ← namei w path;
  n ← lstat w r;
  match n with
  | Dir =>
      Ok (omap (fun p : string * node =>
                  let '(head, tail) := posixpath.split p.1 in
                  if String.eqb head r && negb (String.eqb tail "")
                  then Some tail else None)
               (map_to_list (fs w)))
  | _ => Raise (OSError "Not a directory")
  end.

Definition posix_stat (w : posix) (path : string) : result stat_result :=
  n ← stat_node w path;
  Ok match n with
     | File data => StatResult (N.of_nat (String.length data)) 33188 "0.0" "0.0" "0.0"
     | _ => StatResult 4096 16877 "0.0" "0.0" "0.0"
     end.

(** The file system after the entry at [from] and all below it have moved to
    [to], in the place of what was there. *)
Definition move_entries (from to : string) (files : gmap string node)
    : gmap string node :=
  let moved (k : string) : string :=
    if String.eqb k from then to
    else if str.startswith k (from +:+ "/")
    then to +:+ str.drop (String.length from) k
    else k in
  let kept :=
    filter (fun p : string * node =>
              p.1 ≠ to ∧ str.startswith p.1 (to +:+ "/") = false) files in
  list_to_map ((fun p : string * node => (moved p.1, p.2)) <$> map_to_list kept).

(** [os.rename(src, dst)]: the entry, a symlink itself and not what it leads
    to, moves to [dst] with all below it. Renaming an entry to itself does
    nothing. What is at [dst] is replaced where it can be: a directory
    replaces an empty directory only, any other entry replaces what is not a
    directory. A directory does not move below itself, and only a directory
    is named with a slash at the end. *)
Definition posix_rename (src dst : string) : io posix () := fun w =>
  match parent_and_name w src, parent_and_name w dst with
  | Ok (ds, ns), Ok (dd, nd) =>
      let from := posixpath.join ds ns in
      let to := posixpath.join dd nd in
      match lstat w from with
      | Ok n =>
          let is_dir := match n with Dir => true | _ => false end in
          if negb is_dir
             && (str.endswith src posixpath.sep || str.endswith dst posixpath.sep)
          then (w, Raise (OSError "Not a directory"))
          else if String.eqb from to then (w, Ok ())
          else if str.startswith to (from +:+ "/")
          then (w, Raise (OSError "Invalid argument"))
          else
            let moved := (with_fs w (move_entries from to (fs w)), Ok ()) in
            match lstat w to with
            | Ok Dir =>
                if negb is_dir then (w, Raise (OSError "Is a directory"))
                else if bool_decide
                          (filter (fun p : string * node =>
                                     str.startswith p.1 (to +:+ "/") = true) (fs w) = ∅)
                then moved
                else (w, Raise (OSError "Directory not empty"))
            | Ok _ =>
                if is_dir then (w, Raise (OSError "Not a directory")) else moved
            | Raise (OSError _) => moved
            | Raise e => (w, Raise e)
            end
      | Raise e => (w, Raise e)
      end
  | Raise e, _ => (w, Raise e)
  | _, Raise e => (w, Raise e)
  end.

(** The POSIX machine as an implementation of [OS]. *)
#[global] Instance posix_OS : OS posix := {|
  os_path_expanduser := posixpath.expanduser;
  os_path_abspath := posixpath.abspath;
  os_path_realpath := fun w path => posixpath.realpath w false path;
  os_path_normpath := posixpath.normpath;
  os_path_dirname := posixpath.dirname;
  os_path_join := posixpath.join;
  os_path_isdir := isdir;
  os_path_isfile := isfile;
  open_read := posix_open_read;
  open_read_binary := posix_open_read_binary;
  open_write := posix_open_write;
  os_makedirs := posix_makedirs;
  os_listdir := posix_listdir;
  os_stat := posix_stat;
  os_rename := posix_rename
|}.

(** A machine with no home directories, working in ["/"], its interpreter
    allowing 900 nested calls of [_joinrealpath]. *)
Definition machine (files : gmap string node) : posix :=
  {| fs := files; cwd := "/"; environ_HOME := None; pw_uid_dir := None;
     pw_dirs := ∅; nesting := 900 |}.

(** ** Vocabulary of the properties *)

(** A component free of the separator. *)
Definition sep_free (s : string) : Prop := str.has_char posixpath.sep s = false.

(** A component [normpath] keeps: not empty, not [.] or [..], no separator. *)
Definition normal (c : string) : Prop :=
  c <> "" /\ c <> "." /\ c <> ".." /\ sep_free c.

(** A name a directory entry can have: normal, and without NUL. *)
Definition plain (c : string) : Prop := normal c /\ str.has_char NUL c = false.

(** The absolute path with the components [cs]. *)
Definition render (cs : list string) : string := "/" +:+ str.join "/" cs.

(** One or two leading slashes. *)
Definition slashes (k : nat) : string :=
  match k with
  | S O => "/"
  | _ => "//"
  end.

(** [lstat] finds no symlink at the path: another entry, or none. *)
Definition not_link (w : posix) (p : string) : Prop :=
  match lstat w p with
  | Ok (Symlink _) => False
  | Ok _ => True
  | Raise e => is_OSError e = true
  end.

(** A resolved path: plain components, and no symlink on the way. *)
Inductive real (w : posix) : list string -> Prop :=
| real_nil : real w []
| real_snoc cs c :
    real w cs -> plain c -> not_link w (render (cs ++ [c])) -> real w (cs ++ [c]).

(** Every resolved symlink that [seen] remembers has a resolved path. *)
Definition seen_real (w : posix) (seen : posixpath.seen_map) : Prop :=
  forall k v, seen !! k = Some (Some v) -> exists cs, v = render cs /\ real w cs.

(** A call of [_joinrealpath] that starts from a resolved path and returns
    [ok] returns a resolved path. *)
Definition resolves_real (w : posix)
    (f : string -> string -> posixpath.seen_map -> result posixpath.resolved) : Prop :=
  forall cs0 rest seen r seen',
    real w cs0 -> seen_real w seen ->
    f (render cs0) rest seen = Ok (r, true, seen') ->
    exists cs, r = render cs /\ real w cs /\ seen_real w seen'.

(** [_joinrealpath], as [realpath] calls it, did not give up on a symlink
    loop while resolving [p]. *)
Definition loop_free (w : posix) (p : string) : Prop :=
  forall r seen,
    posixpath.joinrealpath (nesting w) w false "" p ∅ <> Ok (r, false, seen).

(** The absolute path [validate_path] resolves. (Where [expand_home] raises
    there is none, [validate_path] raising as well; the raw path made
    absolute stands in.) *)
Definition absolute_path (w : posix) (file_path : string) : string :=
  posixpath.abspath w
    match posixpath.expanduser w file_path with
    | Ok expanded => expanded
    | Raise _ => file_path
    end.



(** [realpath] resolves [p] to [r] without meeting a symlink loop (and
    within the nesting the interpreter allows). *)
Definition resolves_to (w : posix) (p r : string) : Prop :=
  exists seen,
    posixpath.joinrealpath (nesting w) w false "" p ∅ = Ok (r, true, seen).


(** Machines for the examples. *)

(** A directory with a symlink [link] that leads out of it, to ["/etc"]. *)
Definition escaping_link : posix :=
  machine (<["/data" := Dir]> (<["/data/link" := Symlink "/etc"]> (<["/etc" := Dir]> ∅))).

(** A directory ["/data"] and nothing in it. *)
Definition empty_data : posix := machine (<["/data" := Dir]> ∅).

(** A file behind a symlink: ["/data/cur"] points to the directory ["v1"]. *)
Definition linked_dir : posix :=
  machine (<["/data" := Dir]> (<["/data/v1" := Dir]> (<["/data/v1/f" := File "x"]>
          (<["/data/cur" := Symlink "v1"]> ∅)))).

(** A symlink that leads into itself: ["/data/l"] points to ["/data/l/x"]. *)
Definition looping_link : posix :=
  machine (<["/data" := Dir]> (<["/data/l" := Symlink "/data/l/x"]> ∅)).

(** A file ["/data/f"] holding [data], in a directory ["/data"]. *)
Definition one_file (data : string) : posix :=
  machine (<["/data" := Dir]> (<["/data/f" := File data]> ∅)).

(** [sub] occurs in [s] at index [i]. *)
Definition occurs_at (s sub : string) (i : nat) : Prop :=
  (i <= String.length s)%nat /\ str.startswith (str.drop i s) sub = true.

(** Two occurrences of [sub] in [s] that do not overlap. *)
Definition occurs_twice_apart (s sub : string) : Prop :=
  exists i j, occurs_at s sub i /\ occurs_at s sub j
              /\ (i < j)%nat /\ (i + String.length sub <= j)%nat.

(** A symlink loop whose target leaves the loop by [..]: ["/data/l"] points
    to ["/data/l/../m"], and ["/data/m"] points out of the directory. *)
Definition loop_escape : posix :=
  machine (<["/data" := Dir]> (<["/data/l" := Symlink "/data/l/../m"]>
          (<["/data/m" := Symlink "/etc/passwd"]> (<["/etc" := Dir]>
          (<["/etc/passwd" := File "secret"]> ∅))))).

(** A directory with a file, a subdirectory holding a file, and a
    directory [tmp]. *)
Definition small_tree : posix :=
  machine (<["/data" := Dir]> (<["/data/b.txt" := File "b"]> (<["/data/a" := Dir]>
          (<["/data/a/x" := File "x"]> (<["/data/tmp" := Dir]>
          (<["/data/tmp/y" := File "y"]> ∅)))))).


(** A text of three lines. *)
Definition three_lines : string := "a" +:+ LF +:+ "b" +:+ LF +:+ "c" +:+ LF.

(** A library for the examples. Its patterns are names: [fnmatch] with a
    pattern that has none of [*], [?] and [[] compares the two texts. The
    examples do not look at the other answers. *)
#[global] Instance example_lib : Lib := {|
  base64_b64encode := fun _ => "";
  mimetypes_guess_type := fun _ => None;
  json_dumps := fun _ => "";
  fnmatch := String.eqb;
  recursion_limit := 1000
|}.


(** The calls that are meant to change nothing. *)
Definition read_only (c : tool_call) : bool :=
  match c with
  | WriteFile _ _ | CreateDirectory _ | MoveFile _ _ => false
  | EditFile _ _ dry_run => dry_run
  | _ => true
  end.

(** A tool returns the state it was given. *)
Definition keeps_state {W A} (m : tool W A) : Prop := forall s, (m s).1 = s.

(** The name of an entry of the tree. *)
Definition tree_name (t : tree) : string :=
  match t with
  | TreeFile name => name
  | TreeDir name _ => name
  end.

(** All the names of a tree, the entry's own first. *)
Fixpoint tree_names (t : tree) : list string :=
  match t with
  | TreeFile name => [name]
  | TreeDir name children => name :: concat (map tree_names children)
  end.

(** No pattern of the list matches the name. *)
Definition kept `{Lib} (exclude_patterns : list string) (name : string) : bool :=
  negb (existsb (fun pat => fnmatch name pat) exclude_patterns).

(** The units of [format_size], in the order it tries them. *)
Definition size_units : list string := ["B"; "KB"; "MB"; "GB"; "TB"; "PB"].

(** A text whose characters are all ASCII. *)
Fixpoint is_ascii (s : string) : bool :=
  match s with
  | "" => true
  | String c s' => (nat_of_ascii c <? 128)%nat && is_ascii s'
  end.

(** The machines agree on the working directory, the home directories and
    the nesting the interpreter allows, and on where the symlinks are and
    where they lead. *)
Definition same_links (w w' : posix) : Prop :=
  cwd w' = cwd w /\ environ_HOME w' = environ_HOME w
  /\ pw_uid_dir w' = pw_uid_dir w /\ pw_dirs w' = pw_dirs w
  /\ nesting w' = nesting w
  /\ forall p t, fs w !! p = Some (Symlink t) <-> fs w' !! p = Some (Symlink t).

(** What resolving a path without [strict] sees of an entry: the target of a
    symlink, or that there is none (another entry, or nothing). *)
Definition link_view (w : posix) (p : string) : result (option string) :=
  match lstat w p with
  | Ok (Symlink target) => Ok (Some target)
  | Ok _ => Ok None
  | Raise e => if is_OSError e then Ok None else Raise e
  end.

(** A resolved path all of whose components exist. *)
Inductive existing (w : posix) : list string -> Prop :=
| existing_nil : existing w []
| existing_snoc cs c n :
    existing w cs -> plain c ->
    lstat w (render (cs ++ [c])) = Ok n -> is_symlink n = false ->
    existing w (cs ++ [c]).

(** [plain] and [real], decided. *)
Definition plainb (c : string) : bool :=
  negb (String.eqb c "") && negb (String.eqb c ".") && negb (String.eqb c "..")
  && negb (str.has_char posixpath.sep c) && negb (str.has_char NUL c).

Fixpoint realb_from (w : posix) (cs0 names : list string) : bool :=
  match names with
  | [] => true
  | c :: rest =>
      plainb c
      && match lstat w (render (cs0 ++ [c])) with
         | Ok (Symlink _) => false
         | Ok _ => true
         | Raise e => is_OSError e
         end
      && realb_from w (cs0 ++ [c]) rest
  end.

Definition realb (w : posix) (cs : list string) : bool := realb_from w [] cs.

(** The indices at which [x] occurs in [l], increasing. *)
Definition positions (l : list string) (x : string) : list nat :=
  filter (fun j => l !! j = Some x) (seq 0 (length l)).

(** Lines [i] and [j] of [a] are equal, and [b2j] knows the line. *)
Definition same_known (a : list string) (i j : nat) : bool :=
  match a !! i, a !! j with
  | Some x, Some y => bool_decide (x = y) && bool_decide (is_Some (difflib.chain_b a !! x))
  | _, _ => false
  end.

(** The length of the run of such pairs that ends at [(i, j)]. *)
Fixpoint run (a : list string) (i j : nat) : nat :=
  if same_known a i j then
    S (match i, j with
       | S i', S j' => run a i' j'
       | _, _ => 0
       end)
  else 0.

(** The run that ends in the row before [i]. *)
Definition prev_run (a : list string) (i j : nat) : nat :=
  match i with
  | O => 0
  | S i' => run a i' j
  end.

(** What [find_longest_match] keeps from row to row when a sequence is
    compared with itself: the best match lies on the diagonal, within the
    sequence. *)
Definition diagonal (a : list string) (best : nat * nat * nat) : Prop :=
  best.1.1 = best.1.2 /\ (best.1.1 + best.2 <= length a)%nat.

(** Lines [i .. i+k) of [a] are the lines [j .. j+k) of [b]. *)
Definition matching (a b : list string) (blk : nat * nat * nat) : Prop :=
  forall t, (t < blk.2)%nat ->
    difflib.same_line a b (blk.1.1 + t) (blk.1.2 + t) = true.

(** A block within the ranges [alo, ahi) of [a] and [blo, bhi) of [b]. *)
Definition block_in (box : nat * nat * nat * nat) (blk : nat * nat * nat) : Prop :=
  (box.1.1.1 <= blk.1.1 /\ blk.1.1 + blk.2 <= box.1.1.2
   /\ box.1.2 <= blk.1.2 /\ blk.1.2 + blk.2 <= box.2)%nat.

(** The ranges a block covers. *)
Definition box_of (blk : nat * nat * nat) : nat * nat * nat * nat :=
  (blk.1.1, blk.1.1 + blk.2, blk.1.2, blk.1.2 + blk.2)%nat.

(** [x] ends, in both sequences, where [y] begins or before it. *)
Definition before (x y : nat * nat * nat * nat) : Prop :=
  (x.1.1.2 <= y.1.1.1 /\ x.2 <= y.1.2)%nat.

(** One of the two comes before the other. *)
Definition apart (x y : nat * nat * nat * nat) : Prop := before x y \/ before y x.

(** Ranges that are pairwise apart. *)
Fixpoint chain (l : list (nat * nat * nat * nat)) : Prop :=
  match l with
  | [] => True
  | x :: l' => Forall (apart x) l' /\ chain l'
  end.

(** Ranges that begin before they end. *)
Definition proper (box : nat * nat * nat * nat) : Prop :=
  (box.1.1.1 <= box.1.1.2 /\ box.1.2 <= box.2)%nat.

(** [j2len] on entering row [i]: the runs of equal lines that end in row
    [i - 1], each within the ranges. *)
Definition runs (a b : list string) (alo blo bhi i : nat) (j2len : gmap nat nat)
    : Prop :=
  forall j k, j2len !! j = Some k ->
    (1 <= k /\ k <= i - alo /\ k <= j + 1 - blo /\ j < bhi)%nat
    /\ matching a b (i - k, j + 1 - k, k)%nat.

(** Blocks of equal lines in increasing order, none before [(i, j)], none
    beyond the ends of the sequences. *)
Fixpoint ordered (a b : list string) (i j : nat) (l : list (nat * nat * nat))
    : Prop :=
  match l with
  | [] => True
  | blk :: rest =>
      (i <= blk.1.1 /\ j <= blk.1.2)%nat
      /\ matching a b blk
      /\ (blk.1.1 + blk.2 <= length a /\ blk.1.2 + blk.2 <= length b)%nat
      /\ ordered a b (blk.1.1 + blk.2) (blk.1.2 + blk.2) rest
  end.

(** Blocks each of which ends where the next begins or before it. *)
Fixpoint increasing (l : list (nat * nat * nat)) : Prop :=
  match l with
  | [] => True
  | x :: l' => Forall (fun y => before (box_of x) (box_of y)) l' /\ increasing l'
  end.

(** * Properties *)

#[local] Arguments String.append !_ _ / : simpl nomatch.

(** ** Strings *)

Lemma append_assoc (a b c : string) : (a +:+ b) +:+ c = a +:+ (b +:+ c).
Proof. induction a as [|x a IH]; simpl; [reflexivity | now f_equal]. Qed.

Lemma append_nil_r (a : string) : a +:+ "" = a.
Proof. induction a as [|x a IH]; simpl; [reflexivity | now f_equal]. Qed.

Lemma append_length (a b : string) :
  String.length (a +:+ b) = (String.length a + String.length b)%nat.
Proof. induction a as [|x a IH]; simpl; [reflexivity | now f_equal]. Qed.

(** [startswith] is the plain prefix test: some string follows the prefix. *)
Lemma startswith_spec (s p : string) :
  str.startswith s p = true <-> exists rest, s = p +:+ rest.
Proof.
  revert s. induction p as [|c p IH]; intros s; simpl.
  - split; [intros _; now exists s | reflexivity].
  - destruct s as [|d s].
    + split; [discriminate | intros [rest Hr]; discriminate].
    + rewrite andb_true_iff, Ascii.eqb_eq, IH. split.
      * intros [-> [rest ->]]. now exists rest.
      * intros [rest Hr]. injection Hr as -> ->. split; [reflexivity | now exists rest].
Qed.

Lemma startswith_app (p rest : string) : str.startswith (p +:+ rest) p = true.
Proof. apply startswith_spec. now exists rest. Qed.

Lemma startswith_refl (s : string) : str.startswith s s = true.
Proof. apply startswith_spec. exists "". now rewrite append_nil_r. Qed.


Lemma drop_app_length (a b : string) : str.drop (String.length a) (a +:+ b) = b.
Proof. induction a as [|x a IH]; simpl; [now destruct b | exact IH]. Qed.

(** ** The path validator *)

Section validator.
Context {W : Type} `{OS W}.

(** The loop accepts exactly when some allowed directory is a prefix. *)
Lemma check_allowed_spec (normalized file_path : string) (dirs : list string) :
  check_allowed normalized file_path dirs
  = if existsb (str.startswith normalized) dirs then Ok normalized
    else Raise (AccessDenied file_path).
Proof.
  induction dirs as [|d dirs IH]; simpl; [reflexivity |].
  destruct (str.startswith normalized d); simpl; [reflexivity | exact IH].
Qed.



(** What [validate_path] returns is the normalized form, and the loop accepts
    it whatever the raw path was. *)
Lemma validate_path_ok (s : ServerState W) (P V : string) :
  validate_path s P = Ok V ->
  normalized_path (world s) P = Ok V
  /\ forall P', check_allowed V P' (allowed_directories s) = Ok V.
Proof.
  unfold validate_path.
  destruct (normalized_path (world s) P) as [normalized|e]; [| discriminate].
  simpl. rewrite check_allowed_spec.
  destruct (existsb _ _) eqn:E; [| discriminate]. intros [= ->].
  split; [reflexivity |]. intros P'. now rewrite check_allowed_spec, E.
Qed.




End validator.

(** ** Paths on the POSIX machine *)

Lemma has_char_app c a b : str.has_char c (a +:+ b) = str.has_char c a || str.has_char c b.
Proof. induction a as [|x a IH]; simpl; [reflexivity |]. now rewrite IH, orb_assoc. Qed.

Lemma join_cons sep c cs : cs <> [] -> str.join sep (c :: cs) = c +:+ sep +:+ str.join sep cs.
Proof. now destruct cs. Qed.

Lemma join_snoc sep cs c : cs <> [] -> str.join sep (cs ++ [c]) = str.join sep cs +:+ sep +:+ c.
Proof.
  induction cs as [|x cs IH]; [congruence |]. intros _.
  destruct cs as [|y cs]; [reflexivity |].
  change (str.join sep ((x :: y :: cs) ++ [c]))
    with (x +:+ sep +:+ str.join sep ((y :: cs) ++ [c])).
  rewrite IH by done.
  change (str.join sep (x :: y :: cs)) with (x +:+ sep +:+ str.join sep (y :: cs)).
  now rewrite !append_assoc.
Qed.

Lemma render_snoc cs c : cs <> [] -> render (cs ++ [c]) = render cs +:+ "/" +:+ c.
Proof.
  intros Hne. unfold render. rewrite join_snoc by exact Hne.
  now rewrite !append_assoc.
Qed.

(** Splitting at the separator. *)
Lemma split_sep_free sep s : str.has_char sep s = false -> str.split sep s = [s].
Proof.
  induction s as [|c s IH]; simpl; [reflexivity |].
  rewrite orb_false_iff. intros [Hc Hs]. rewrite Hc, (IH Hs). reflexivity.
Qed.

Lemma split_app sep a b :
  str.has_char sep a = false ->
  str.split sep (a +:+ String sep b) = a :: str.split sep b.
Proof.
  induction a as [|c a IH]; simpl.
  - intros _. now rewrite Ascii.eqb_refl.
  - rewrite orb_false_iff. intros [Hc Ha]. rewrite Hc, (IH Ha). reflexivity.
Qed.

Lemma split_join cs :
  cs <> [] -> Forall sep_free cs -> str.split posixpath.sep (str.join "/" cs) = cs.
Proof.
  induction cs as [|c cs IH]; [congruence |]. intros _ Hf.
  apply Forall_cons in Hf as [Hc Hf].
  destruct cs as [|d cs]; [now apply split_sep_free |].
  rewrite join_cons by done.
  change ("/" +:+ str.join "/" (d :: cs)) with (String posixpath.sep (str.join "/" (d :: cs))).
  rewrite split_app by exact Hc. now rewrite IH.
Qed.

Lemma split_components sep s : Forall (fun c => str.has_char sep c = false) (str.split sep s).
Proof.
  induction s as [|c s IH]; simpl; [now repeat constructor |].
  destruct (Ascii.eqb c sep) eqn:E; [now constructor |].
  destruct (str.split sep s) as [|f fs]; [repeat constructor; simpl; now rewrite E |].
  apply Forall_cons in IH as [Hf Hfs]. constructor; [| exact Hfs].
  simpl. now rewrite E, Hf.
Qed.

Lemma sep_free_first c s : sep_free (String c s) -> Ascii.eqb c posixpath.sep = false.
Proof. unfold sep_free. simpl. now intros [H _]%orb_false_iff. Qed.

Lemma normal_cons c :
  normal c -> exists x s, c = String x s /\ Ascii.eqb x posixpath.sep = false.
Proof.
  intros (Hne & _ & _ & Hs). destruct c as [|x s]; [congruence |].
  exists x, s. split; [reflexivity | now apply sep_free_first in Hs].
Qed.

Lemma endswith_app a b c : b <> "" -> str.endswith (a +:+ b) c = str.endswith b c.
Proof.
  intros Hb. induction a as [|x a IH]; [reflexivity |].
  simpl. rewrite IH. destruct (a +:+ b) eqn:E; [| reflexivity].
  destruct a, b; simpl in E; congruence.
Qed.

Lemma endswith_sep_free s c : str.has_char c s = false -> str.endswith s c = false.
Proof.
  induction s as [|d s IH]; [reflexivity |]. simpl.
  intros [Hd Hs]%orb_false_iff. destruct s; [exact Hd | now apply IH].
Qed.

Lemma render_endswith cs :
  cs <> [] -> Forall normal cs -> str.endswith (render cs) posixpath.sep = false.
Proof.
  intros Hne Hf. induction cs as [|l cs' _] using rev_ind; [congruence |].
  apply Forall_app in Hf as [_ Hl]. apply Forall_inv in Hl.
  destruct Hl as (Hl & _ & _ & Hs).
  destruct cs' as [|x cs'].
  - unfold render. simpl str.join. rewrite endswith_app by exact Hl.
    now apply endswith_sep_free.
  - rewrite render_snoc by done. rewrite <- append_assoc.
    rewrite endswith_app by exact Hl. now apply endswith_sep_free.
Qed.

Lemma render_nonempty cs : String.eqb (render cs) "" = false.
Proof. reflexivity. Qed.

Lemma startswith_sep_false name :
  name <> "" -> sep_free name -> str.startswith name "/" = false.
Proof.
  intros Hne Hs. destruct name as [|x name]; [congruence |].
  apply sep_free_first in Hs. simpl. unfold posixpath.sep in Hs. now rewrite Hs.
Qed.

Lemma join_render cs name :
  Forall normal cs -> name <> "" -> sep_free name ->
  posixpath.join (render cs) name = render (cs ++ [name]).
Proof.
  intros Hf Hne Hs. unfold posixpath.join.
  rewrite startswith_sep_false, render_nonempty, orb_false_l by assumption.
  destruct cs as [|c cs].
  - reflexivity.
  - rewrite render_endswith by (done || assumption).
    now rewrite render_snoc by done.
Qed.

Lemma cut_last_sep_free t : sep_free t -> posixpath.cut_last t = ("", t).
Proof.
  induction t as [|c t IH]; [reflexivity |]. unfold sep_free. simpl.
  intros [Hc Ht]%orb_false_iff. rewrite (IH Ht). now rewrite Hc.
Qed.

Lemma cut_last_cons c p :
  posixpath.cut_last (String c p)
  = let '(head, tail) := posixpath.cut_last p in
    match head with
    | String _ _ => (String c head, tail)
    | "" => if Ascii.eqb c posixpath.sep then (String c "", tail) else ("", String c tail)
    end.
Proof. reflexivity. Qed.

Lemma cut_last_app a t :
  sep_free t -> posixpath.cut_last (a +:+ "/" +:+ t) = (a +:+ "/", t).
Proof.
  intros Ht. induction a as [|c a IH].
  - change ("" +:+ "/" +:+ t) with (String posixpath.sep t).
    now rewrite cut_last_cons, (cut_last_sep_free t Ht), Ascii.eqb_refl.
  - change (String c a +:+ "/" +:+ t) with (String c (a +:+ "/" +:+ t)).
    rewrite cut_last_cons, IH. now destruct a.
Qed.

Lemma all_sep_app a b :
  posixpath.all_sep (a +:+ b) = posixpath.all_sep a && posixpath.all_sep b.
Proof. induction a as [|c a IH]; simpl; [reflexivity |]. now rewrite IH, andb_assoc. Qed.

Lemma all_sep_normal c : normal c -> posixpath.all_sep c = false.
Proof. intros (x & s & -> & Hx)%normal_cons. simpl. now rewrite Hx. Qed.

Lemma all_sep_render cs : cs <> [] -> Forall normal cs -> posixpath.all_sep (render cs) = false.
Proof.
  intros Hne Hf. destruct cs as [|c cs]; [congruence |].
  apply Forall_cons in Hf as [Hc _]. unfold render.
  destruct cs as [|d cs].
  - simpl str.join. rewrite all_sep_app, (all_sep_normal c Hc). apply andb_false_r.
  - rewrite join_cons by done. rewrite !all_sep_app, (all_sep_normal c Hc).
    now rewrite andb_false_r.
Qed.

Lemma rstrip_snoc c a : str.rstrip c (a +:+ String c "") = str.rstrip c a.
Proof.
  induction a as [|d a IH]; simpl.
  - now rewrite Ascii.eqb_refl.
  - now rewrite IH.
Qed.

Lemma rstrip_id c a : str.endswith a c = false -> str.rstrip c a = a.
Proof.
  induction a as [|d a IH]; [reflexivity |]. simpl.
  destruct a as [|e a].
  - simpl. now intros ->.
  - intros H. now rewrite (IH H).
Qed.

Lemma split_render_snoc cs c :
  Forall normal cs -> normal c ->
  posixpath.split (render (cs ++ [c])) = (render cs, c).
Proof.
  intros Hf Hc. pose proof Hc as (Hne & _ & _ & Hs).
  unfold posixpath.split. destruct cs as [|d cs].
  - change (render ([] ++ [c])) with ("" +:+ "/" +:+ c).
    rewrite cut_last_app by exact Hs. reflexivity.
  - rewrite render_snoc by done. rewrite cut_last_app by exact Hs.
    assert (E : String.eqb (render (d :: cs) +:+ "/") "" = false) by reflexivity.
    rewrite E, all_sep_app, all_sep_render by (done || assumption).
    simpl negb. simpl andb. cbv iota.
    change "/" with (String posixpath.sep "") at 1.
    rewrite rstrip_snoc, rstrip_id; [reflexivity |].
    now apply render_endswith.
Qed.



Lemma has_nul_render_snoc cs c :
  str.has_char NUL (render (cs ++ [c])) = false -> str.has_char NUL c = false.
Proof.
  destruct cs as [|d cs].
  - unfold render. simpl str.join. rewrite has_char_app. now intros [_ H]%orb_false_iff.
  - rewrite render_snoc by done. rewrite !has_char_app.
    now intros [_ [_ H]%orb_false_iff]%orb_false_iff.
Qed.

Lemma normal_eqb c :
  normal c -> String.eqb c "" = false /\ String.eqb c "." = false /\ String.eqb c ".." = false.
Proof. intros (H1 & H2 & H3 & _). now rewrite !String.eqb_neq. Qed.

Lemma norm_comps_normal k acc cs :
  Forall normal cs -> posixpath.norm_comps k acc cs = acc ++ cs.
Proof.
  revert acc. induction cs as [|c cs IH]; intros acc Hf; simpl.
  - now rewrite app_nil_r.
  - apply Forall_cons in Hf as [Hc Hf].
    destruct (normal_eqb c Hc) as (-> & -> & ->). simpl.
    rewrite IH by exact Hf. now rewrite <- app_assoc.
Qed.

Lemma norm_comps_inv k acc comps :
  k <> 0%nat -> Forall normal acc ->
  Forall (fun c => str.has_char posixpath.sep c = false) comps ->
  Forall normal (posixpath.norm_comps k acc comps).
Proof.
  intros Hk. revert acc. induction comps as [|c comps IH]; intros acc Ha Hc; simpl.
  - exact Ha.
  - apply Forall_cons in Hc as [Hc Hcs].
    destruct (String.eqb c "") eqn:E1; [now apply IH |].
    destruct (String.eqb c ".") eqn:E2; [now apply IH |]. simpl.
    destruct (String.eqb c "..") eqn:E3; simpl.
    + assert (Hz : (k =? 0)%nat = false) by now apply Nat.eqb_neq.
      rewrite Hz. simpl.
      rewrite bool_decide_eq_false_2.
      * apply IH; [now apply Forall_take | exact Hcs].
      * intros Hl. apply last_Some_elem_of in Hl.
        rewrite Forall_forall in Ha. now destruct (Ha _ Hl) as (_ & _ & H & _).
    + apply IH; [| exact Hcs]. apply Forall_app. split; [exact Ha |].
      apply Forall_singleton. apply String.eqb_neq in E1, E2, E3. now repeat split.
Qed.

Lemma split_cons_sep s :
  str.split posixpath.sep (String posixpath.sep s) = "" :: str.split posixpath.sep s.
Proof. reflexivity. Qed.

Lemma join_not_sep cs : Forall normal cs -> str.startswith (str.join "/" cs) "/" = false.
Proof.
  intros Hf. destruct cs as [|c cs]; [reflexivity |].
  apply Forall_cons in Hf as [(x & s & -> & Hx)%normal_cons _].
  unfold posixpath.sep in Hx.
  destruct cs; [simpl; now rewrite Hx |].
  rewrite join_cons by done. simpl. now rewrite Hx.
Qed.

Lemma norm_split_join k cs :
  Forall normal cs ->
  posixpath.norm_comps k [] (str.split posixpath.sep (str.join "/" cs)) = cs.
Proof.
  intros Hf. destruct cs as [|c cs]; [reflexivity |].
  rewrite split_join; [now apply norm_comps_normal | done |].
  eapply Forall_impl; [exact Hf |]. now intros ? (_ & _ & _ & ?).
Qed.

(** A normalized absolute path is a fixed point of [normpath]. *)
Lemma normpath_fixed k cs :
  (k = 1 \/ k = 2)%nat -> Forall normal cs ->
  posixpath.normpath (slashes k +:+ str.join "/" cs) = slashes k +:+ str.join "/" cs.
Proof.
  intros Hk Hf. pose proof (join_not_sep cs Hf) as Hj.
  pose proof (norm_split_join 1 cs Hf) as H1.
  pose proof (norm_split_join 2 cs Hf) as H2.
  unfold posixpath.normpath.
  destruct Hk as [-> | ->]; simpl slashes.
  - change ("/" +:+ str.join "/" cs) with (String posixpath.sep (str.join "/" cs)).
    assert (E : str.startswith (String posixpath.sep (str.join "/" cs)) "//" = false).
    { simpl. destruct (str.join "/" cs); [reflexivity |]. simpl in Hj. exact Hj. }
    rewrite E. simpl andb. cbv iota.
    rewrite split_cons_sep. change (String.eqb (String posixpath.sep _) "") with false.
    cbv iota. change (str.startswith (String posixpath.sep (str.join "/" cs)) "/") with true.
    cbv iota. simpl posixpath.norm_comps. rewrite H1. reflexivity.
  - set (j := str.join "/" cs) in *.
    change ("//" +:+ j) with (String posixpath.sep (String posixpath.sep j)).
    assert (E : str.startswith (String posixpath.sep (String posixpath.sep j)) "///"
                = false).
    { simpl. destruct j; [reflexivity |]. simpl in Hj. exact Hj. }
    rewrite E. rewrite !split_cons_sep.
    change (String.eqb (String posixpath.sep _) "") with false. cbv iota.
    change (str.startswith (String posixpath.sep (String posixpath.sep j)) "/")
      with true.
    change (str.startswith (String posixpath.sep (String posixpath.sep j)) "//")
      with true.
    simpl negb. simpl andb. cbv iota. simpl posixpath.norm_comps. rewrite H2.
    reflexivity.
Qed.

(** [normpath] of an absolute path: one or two slashes, then normal
    components. *)
Lemma normpath_abs_form X :
  posixpath.isabs X = true ->
  exists k cs, (k = 1 \/ k = 2)%nat /\ Forall normal cs
               /\ posixpath.normpath X = slashes k +:+ str.join "/" cs.
Proof.
  intros Habs. unfold posixpath.isabs in Habs. unfold posixpath.normpath.
  destruct X as [|x X]; [discriminate |].
  change (String.eqb (String x X) "") with false. cbv iota. rewrite Habs.
  set (k := if str.startswith (String x X) "//" && negb (str.startswith (String x X) "///")
            then 2%nat else 1%nat).
  assert (Hk : (k = 1 \/ k = 2)%nat) by (subst k; destruct (_ && _); auto).
  pose proof (norm_comps_inv k [] (str.split posixpath.sep (String x X))
                ltac:(lia) ltac:(constructor) (split_components _ _)) as Hn.
  exists k, (posixpath.norm_comps k [] (str.split posixpath.sep (String x X))).
  repeat split; [exact Hk | exact Hn |].
  destruct Hk as [-> | ->]; reflexivity.
Qed.

Lemma normpath_idem X :
  posixpath.isabs X = true -> posixpath.normpath (posixpath.normpath X) = posixpath.normpath X.
Proof.
  intros (k & cs & Hk & Hf & ->)%normpath_abs_form. now apply normpath_fixed.
Qed.

Lemma normpath_isabs X :
  posixpath.isabs X = true -> posixpath.isabs (posixpath.normpath X) = true.
Proof.
  intros (k & cs & [-> | ->] & Hf & ->)%normpath_abs_form; reflexivity.
Qed.

Lemma normpath_render cs : Forall normal cs -> posixpath.normpath (render cs) = render cs.
Proof. intros Hf. apply (normpath_fixed 1 cs); auto. Qed.

Lemma abspath_abs w p :
  posixpath.isabs p = true -> posixpath.abspath w p = posixpath.normpath p.
Proof. intros Hp. unfold posixpath.abspath. now rewrite Hp. Qed.

Lemma isabs_app a b : posixpath.isabs a = true -> posixpath.isabs (a +:+ b) = true.
Proof.
  unfold posixpath.isabs. intros [r ->]%startswith_spec.
  apply startswith_spec. exists (r +:+ b). now rewrite append_assoc.
Qed.

Lemma abspath_isabs w p :
  posixpath.isabs (cwd w) = true -> posixpath.isabs (posixpath.abspath w p) = true.
Proof.
  intros Hc. unfold posixpath.abspath. apply normpath_isabs.
  destruct (posixpath.isabs p) eqn:Hp; simpl; [exact Hp |].
  unfold posixpath.join. unfold posixpath.isabs in Hp. rewrite Hp.
  destruct (_ || _); now apply isabs_app.
Qed.

Lemma expanduser_abs w p : posixpath.isabs p = true -> posixpath.expanduser w p = Ok p.
Proof.
  unfold posixpath.isabs, posixpath.expanduser. destruct p as [|x p]; [discriminate |].
  simpl. rewrite andb_true_r. intros ->%Ascii.eqb_eq. reflexivity.
Qed.

Lemma real_plain w cs : real w cs -> Forall plain cs.
Proof.
  induction 1 as [|cs c _ IH Hc _]; [constructor |].
  apply Forall_app. split; [exact IH | now apply Forall_singleton].
Qed.

Lemma real_normal w cs : real w cs -> Forall normal cs.
Proof. intros H%real_plain. eapply Forall_impl; [exact H |]. now intros c [Hc _]. Qed.

Lemma real_snoc_inv w cs c :
  real w (cs ++ [c]) -> real w cs /\ plain c /\ not_link w (render (cs ++ [c])).
Proof.
  inversion 1 as [E | cs' c' Hr Hp Hn E].
  - now destruct cs.
  - apply app_inj_tail in E as [-> ->]. auto.
Qed.

Lemma real_app_l w a b : real w (a ++ b) -> real w a.
Proof.
  induction b as [|x b IH] using rev_ind.
  - now rewrite app_nil_r.
  - rewrite app_assoc. intros (H & _ & _)%real_snoc_inv. now apply IH.
Qed.

Lemma walk_cons rec w strict path name rest seen :
  posixpath.walk rec w strict path (name :: rest) seen
  = if String.eqb name "" || String.eqb name "." then
      posixpath.walk rec w strict path rest seen
    else if String.eqb name ".." then
      let path :=
        if negb (String.eqb path "") then
          let '(path, name) := posixpath.split path in
          if String.eqb name ".." then posixpath.join (posixpath.join path "..") ".."
          else path
        else ".." in
      posixpath.walk rec w strict path rest seen
    else
      let newpath := posixpath.join path name in
      match lstat w newpath with
      | Raise e =>
          if is_OSError e && negb strict
          then posixpath.walk rec w strict newpath rest seen
          else Raise e
      | Ok (Symlink target) =>
          match seen !! newpath with
          | Some (Some path) => posixpath.walk rec w strict path rest seen
          | Some None =>
              if strict then Raise (OSError "Too many levels of symbolic links")
              else Ok (posixpath.join newpath (str.join "/" rest), false, seen)
          | None =>
              match rec path target (<[newpath := None]> seen) with
              | Raise e => Raise e
              | Ok (path, false, seen) =>
                  Ok (posixpath.join path (str.join "/" rest), false, seen)
              | Ok (path, true, seen) =>
                  posixpath.walk rec w strict path rest (<[newpath := Some path]> seen)
              end
          end
      | Ok _ => posixpath.walk rec w strict newpath rest seen
      end.
Proof. reflexivity. Qed.

(** Walking along a resolved path changes nothing. *)
Lemma walk_real rec w names : forall cs0 seen,
  real w (cs0 ++ names) ->
  posixpath.walk rec w false (render cs0) names seen
  = Ok (render (cs0 ++ names), true, seen).
Proof.
  induction names as [|name rest IH]; intros cs0 seen Hr.
  - now rewrite app_nil_r.
  - rewrite (cons_middle name cs0 rest), app_assoc in Hr.
    pose proof (real_app_l _ _ _ Hr) as (Hc0 & [Hn Hnul] & Hl)%real_snoc_inv.
    rewrite walk_cons. destruct (normal_eqb name Hn) as (-> & -> & ->).
    simpl orb. cbv iota zeta.
    destruct Hn as (Hne & _ & _ & Hs).
    rewrite join_render by (eauto using real_normal).
    unfold not_link in Hl.
    rewrite (cons_middle name cs0 rest), app_assoc.
    destruct (lstat w (render (cs0 ++ [name]))) as [[| |]|e];
      [now apply IH | now apply IH | contradiction |].
    rewrite Hl. simpl. now apply IH.
Qed.

Lemma joinrealpath_real depth w path cs seen :
  real w cs ->
  posixpath.joinrealpath (S depth) w false path (render cs) seen
  = Ok (render cs, true, seen).
Proof.
  intros Hr. simpl. change (str.drop 1 (render cs)) with (str.join "/" cs).
  destruct cs as [|c cs]; [reflexivity |].
  rewrite split_join.
  - apply (walk_real _ w (c :: cs) []). exact Hr.
  - done.
  - eapply Forall_impl; [exact (real_normal _ _ Hr) |]. now intros ? (_ & _ & _ & ?).
Qed.

(** [realpath] returns a resolved path as it is, where the interpreter lets
    it run at all. *)
Lemma realpath_real w cs :
  real w cs ->
  posixpath.realpath w false (render cs)
  = match nesting w with
    | O => Raise RecursionError
    | S _ => Ok (render cs)
    end.
Proof.
  intros Hr. unfold posixpath.realpath. destruct (nesting w) as [|depth]; [reflexivity |].
  rewrite joinrealpath_real by exact Hr.
  simpl. rewrite abspath_abs by reflexivity.
  now rewrite normpath_render by (eauto using real_normal).
Qed.

Lemma lstat_nul_free w p n : lstat w p = Ok n -> str.has_char NUL p = false.
Proof. unfold lstat. now destruct (str.has_char NUL p). Qed.

Lemma lstat_oserror_nul_free w p e :
  lstat w p = Raise e -> is_OSError e = true -> str.has_char NUL p = false.
Proof.
  unfold lstat. destruct (str.has_char NUL p); [| reflexivity].
  now intros [= <-].
Qed.

Lemma split_root : posixpath.split "/" = ("/", "").
Proof. reflexivity. Qed.

(** The loop keeps to resolved paths when the recursive call does. *)
Lemma walk_resolves w rec :
  resolves_real w rec ->
  forall names cs0 seen r seen',
    Forall (fun c => str.has_char posixpath.sep c = false) names ->
    real w cs0 -> seen_real w seen ->
    posixpath.walk rec w false (render cs0) names seen = Ok (r, true, seen') ->
    exists cs, r = render cs /\ real w cs /\ seen_real w seen'.
Proof.
  intros Hrec. induction names as [|name rest IH]; intros cs0 seen r seen' Hf Hr Hs Hw.
  - injection Hw as <- <-. eauto.
  - apply Forall_cons in Hf as [Hsep Hf]. rewrite walk_cons in Hw.
    destruct (String.eqb name "") eqn:E1; [simpl in Hw; eauto |].
    destruct (String.eqb name ".") eqn:E2; [simpl in Hw; eauto |].
    simpl orb in Hw. cbv iota in Hw.
    destruct (String.eqb name "..") eqn:E3.
    + rewrite render_nonempty in Hw. simpl negb in Hw. cbv iota zeta in Hw.
      destruct cs0 as [|c cs0 _] using rev_ind.
      * change (render []) with "/" in Hw. rewrite split_root in Hw.
        simpl in Hw. change "/" with (render []) in Hw. eauto.
      * apply real_snoc_inv in Hr as (Hr0 & [Hn _] & _).
        rewrite split_render_snoc in Hw by (eauto using real_normal).
        destruct Hn as (_ & _ & Hdd & _). apply String.eqb_neq in Hdd.
        rewrite Hdd in Hw. eauto.
    + apply String.eqb_neq in E1, E2, E3. cbv zeta in Hw.
      rewrite join_render in Hw by (eauto using real_normal).
      assert (Hext : str.has_char NUL (render (cs0 ++ [name])) = false ->
                     not_link w (render (cs0 ++ [name])) -> real w (cs0 ++ [name])).
      { intros Hnul Hl. constructor; [exact Hr | | exact Hl].
        split; [now repeat split | now apply has_nul_render_snoc in Hnul]. }
      destruct (lstat w (render (cs0 ++ [name]))) as [[| data |target]|e] eqn:El.
      * apply (IH (cs0 ++ [name]) seen); auto. apply Hext; [eapply lstat_nul_free, El |].
        unfold not_link. now rewrite El.
      * apply (IH (cs0 ++ [name]) seen); auto. apply Hext; [eapply lstat_nul_free, El |].
        unfold not_link. now rewrite El.
      * destruct (seen !! render (cs0 ++ [name])) as [[p|]|] eqn:Es.
        -- destruct (Hs _ _ Es) as (cs & -> & Hcs). eauto.
        -- discriminate.
        -- destruct (rec (render cs0) target _) as [[[p [|]] seen1]|] eqn:Er;
             try discriminate.
           apply Hrec in Er as (cs & -> & Hcs & Hs1); auto.
           ++ eapply IH; [exact Hf | exact Hcs | | exact Hw].
              intros k v. 
              rewrite lookup_insert. case_decide.
              ** intros [= <-]. eauto.
              ** apply Hs1.
           ++ intros k v. 
              rewrite lookup_insert. case_decide; [discriminate | apply Hs].
      * destruct (is_OSError e) eqn:Ee; [| discriminate]. simpl in Hw.
        apply (IH (cs0 ++ [name]) seen); auto.
        apply Hext; [eapply lstat_oserror_nul_free; eauto |].
        unfold not_link. now rewrite El.
Qed.

Lemma joinrealpath_resolves w depth : resolves_real w (posixpath.joinrealpath depth w false).
Proof.
  induction depth as [|depth IH]; intros cs0 rest seen r seen' Hr Hs Hj; [discriminate |].
  simpl in Hj. destruct (posixpath.isabs rest).
  - change "/" with (render []) in Hj.
    eapply (walk_resolves w _ IH); [apply split_components | constructor | exact Hs | exact Hj].
  - eapply (walk_resolves w _ IH); [apply split_components | exact Hr | exact Hs | exact Hj].
Qed.

(** What [_joinrealpath] returns with [ok] for an absolute path is a resolved
    path. *)
Lemma joinrealpath_ok_real w depth path filename r seen' :
  posixpath.isabs filename = true ->
  posixpath.joinrealpath depth w false path filename ∅ = Ok (r, true, seen') ->
  exists cs, r = render cs /\ real w cs.
Proof.
  intros Habs Hj. destruct depth as [|depth]; [discriminate |].
  simpl in Hj. rewrite Habs in Hj. change "/" with (render []) in Hj.
  eapply (walk_resolves w _ (joinrealpath_resolves w depth)) in Hj
    as (cs & -> & Hcs & _); eauto using split_components, real_nil.
  intros k v. now rewrite lookup_empty.
Qed.

(** [normalized_path] on the POSIX machine, where expanding returns. *)
Lemma normalized_path_posix (w : posix) (file_path expanded : string) :
  posixpath.expanduser w file_path = Ok expanded ->
  normalized_path w file_path
  = Ok match posixpath.realpath w false (absolute_path w file_path) with
       | Ok resolved => posixpath.normpath resolved
       | Raise _ => posixpath.normpath (absolute_path w file_path)
       end.
Proof.
  intros He. unfold normalized_path, expand_home, absolute_path. simpl.
  rewrite He. simpl. now destruct (posixpath.realpath w false _).
Qed.

(** [validate_path] returns only where expanding has returned. *)
Lemma validate_path_expanded (s : ServerState posix) (P V : string) :
  validate_path s P = Ok V ->
  exists expanded, posixpath.expanduser (world s) P = Ok expanded.
Proof.
  unfold validate_path, normalized_path, expand_home. simpl.
  destruct (posixpath.expanduser (world s) P) as [expanded|e]; [eauto | discriminate].
Qed.

Lemma absolute_path_render w cs : Forall normal cs -> absolute_path w (render cs) = render cs.
Proof.
  intros Hf. unfold absolute_path.
  rewrite expanduser_abs, abspath_abs by reflexivity. now apply normpath_render.
Qed.

(** A resolved path is its own normalized form, resolving raise or not. *)
Lemma normalized_path_real w cs : real w cs -> normalized_path w (render cs) = Ok (render cs).
Proof.
  intros Hr. pose proof (real_normal _ _ Hr) as Hn.
  rewrite (normalized_path_posix w _ (render cs)) by now apply expanduser_abs.
  rewrite absolute_path_render by exact Hn.
  rewrite realpath_real by exact Hr.
  destruct (nesting w); now rewrite normpath_render.
Qed.

Lemma check_allowed_ok normalized file_path file_path' dirs V :
  check_allowed normalized file_path dirs = Ok V ->
  V = normalized /\ check_allowed normalized file_path' dirs = Ok normalized.
Proof.
  rewrite !check_allowed_spec. destruct (existsb _ _); [| discriminate].
  now intros [= ->].
Qed.

Lemma validate_path_real (s : ServerState posix) cs root :
  real (world s) cs -> root ∈ allowed_directories s ->
  str.startswith (render cs) root = true ->
  validate_path s (render cs) = Ok (render cs).
Proof.
  intros Hr Hin Hp. unfold validate_path.
  rewrite normalized_path_real by exact Hr. simpl. rewrite check_allowed_spec.
  assert (E : existsb (str.startswith (render cs)) (allowed_directories s) = true).
  { apply existsb_exists. exists root. split; [now apply list_elem_of_In | exact Hp]. }
  now rewrite E.
Qed.











(** ** The validator on the POSIX machine *)





















(** C8 as stated fails: ["/data/l"] validates to ["/data/l/x"], and that
    validates to ["/data/l/x/x"]. *)
Lemma validate_path_not_idempotent :
  ~ (forall (s : ServerState posix) (P V : string),
        validate_path s P = Ok V -> validate_path s V = Ok V).
Proof.
  intros H.
  specialize (H {| allowed_directories := ["/data"]; world := looping_link |}
                "/data/l" "/data/l/x" ltac:(vm_compute; reflexivity)).
  vm_compute in H. discriminate H.
Qed.

(** C8, amended. When resolving the raw path did not run into a symlink loop
    (and the working directory is absolute, as [os.getcwd()] gives it),
    [validate_path] is idempotent: what it returns validates to itself. *)
Theorem validate_path_idempotent (s : ServerState posix) (P V : string) :
  posixpath.isabs (cwd (world s)) = true ->
  loop_free (world s) (absolute_path (world s) P) ->
  validate_path s P = Ok V ->
  validate_path s V = Ok V.
Proof.
  intros Hcwd Hloop Hv.
  destruct (validate_path_expanded _ _ _ Hv) as [expanded He].
  apply validate_path_ok in Hv as [Hn Hv]. unfold validate_path.
  set (w := world s) in *. set (A := absolute_path w P) in *.
  assert (HA : posixpath.isabs A = true) by now apply abspath_isabs.
  assert (Hfix : normalized_path w V = Ok V); [| rewrite Hfix; apply Hv].
  rewrite (normalized_path_posix w P expanded He) in Hn. fold A in Hn.
  destruct (posixpath.realpath w false A) as [resolved|e] eqn:Hreal.
  - unfold posixpath.realpath in Hreal.
    destruct (posixpath.joinrealpath _ w false "" A ∅) as [[[path ok] seen]|] eqn:Hj;
      [| discriminate].
    simpl in Hreal. injection Hreal as <-.
    destruct ok; [| now destruct (Hloop path seen)].
    apply joinrealpath_ok_real in Hj as (cs & -> & Hcs); [| exact HA].
    pose proof (real_normal _ _ Hcs) as Hnorm.
    rewrite abspath_abs, !normpath_render in Hn by (reflexivity || exact Hnorm).
    injection Hn as <-. now apply normalized_path_real.
  - assert (HN : posixpath.normpath A = A).
    { unfold A, absolute_path, posixpath.abspath. rewrite He. apply normpath_idem.
      destruct (posixpath.isabs expanded) eqn:HE; simpl; [exact HE |].
      unfold posixpath.join. unfold posixpath.isabs in HE. rewrite HE.
      destruct (_ || _); now apply isabs_app. }
    rewrite HN in Hn. injection Hn as <-.
    rewrite (normalized_path_posix w A A) by now apply expanduser_abs.
    assert (HAA : absolute_path w A = A).
    { unfold absolute_path. rewrite expanduser_abs, abspath_abs by exact HA. exact HN. }
    now rewrite HAA, Hreal, HN.
Qed.

(** C8 at work: ["/data/./cur/f"] validates to ["/data/v1/f"], which
    validates to itself. *)
Lemma validate_path_idempotent_witness :
  validate_path {| allowed_directories := ["/data"]; world := linked_dir |} "/data/./cur/f"
  = Ok "/data/v1/f"
  /\ validate_path {| allowed_directories := ["/data"]; world := linked_dir |} "/data/v1/f"
     = Ok "/data/v1/f".
Proof.
  split; [vm_compute; reflexivity |].
  apply (validate_path_idempotent
           {| allowed_directories := ["/data"]; world := linked_dir |}
           "/data/./cur/f" "/data/v1/f").
  - reflexivity.
  - intros r seen. vm_compute. discriminate.
  - vm_compute. reflexivity.
Defined.

(** An example: the prefix test does not look at components: with ["/data"] allowed,
    ["/data2/x"] is let in. *)
Lemma validate_path_prefix_not_component :
  validate_path {| allowed_directories := ["/data"]; world := empty_data |} "/data2/x"
  = Ok "/data2/x".
Proof. vm_compute. reflexivity. Qed.

(** An example: a symlink inside an allowed directory that leads out of it is
    refused. *)
Lemma validate_path_symlink_escape :
  validate_path {| allowed_directories := ["/data"]; world := escaping_link |} "/data/link"
  = Raise (AccessDenied "/data/link").
Proof. vm_compute. reflexivity. Qed.

(** ** The edit engine *)

Lemma getitem_oldText (old new : string) : getitem (mk_edit old new) "oldText" = Ok old.
Proof. unfold getitem, mk_edit. now rewrite lookup_insert_eq. Qed.

Lemma getitem_newText (old new : string) : getitem (mk_edit old new) "newText" = Ok new.
Proof.
  unfold getitem, mk_edit.
  rewrite lookup_insert_ne by discriminate. now rewrite lookup_insert_eq.
Qed.

(** One round of the loop, for a well-formed edit. *)
Lemma apply_edits_cons (content old new : string) (edits : list (gmap string string)) :
  apply_edits content (mk_edit old new :: edits)
  = if negb (str.contains content old) then Raise (TextNotFound old)
    else if (1 <? str.count content old)%nat then Raise (AmbiguousMatch old)
    else apply_edits (str.replace1 content old new) edits.
Proof.
  simpl. rewrite getitem_oldText. simpl. rewrite getitem_newText. reflexivity.
Qed.

(** The loop runs the edits in list order, each on what the ones before it
    left; it stops at the first that fails. *)
Lemma apply_edits_app (content : string) (es1 es2 : list (gmap string string)) :
  apply_edits content (es1 ++ es2)
  = (c ← apply_edits content es1; apply_edits c es2).
Proof.
  revert content. induction es1 as [|e es1 IH]; intros content; [reflexivity |].
  simpl. destruct (getitem e "oldText") as [old|]; [simpl | reflexivity].
  destruct (getitem e "newText") as [new|]; [simpl | reflexivity].
  destruct (negb _); [reflexivity |].
  destruct (_ <? _)%nat; [reflexivity | apply IH].
Qed.

Lemma contains_spec (s sub : string) :
  str.contains s sub = true <-> exists pre post, s = pre +:+ sub +:+ post.
Proof.
  split.
  - induction s as [|c s IH]; simpl; rewrite orb_true_iff; intros [Hs|Hc].
    + apply startswith_spec in Hs as [post ->]. now exists "", post.
    + discriminate.
    + apply startswith_spec in Hs as [post ->]. now exists "", post.
    + destruct (IH Hc) as (pre & post & ->). now exists (String c pre), post.
  - intros (pre & post & ->). induction pre as [|c pre IH].
    + change ("" +:+ sub +:+ post) with (sub +:+ post).
      assert (Hu : forall s,
                 str.contains s sub
                 = str.startswith s sub
                   || match s with
                      | "" => false
                      | String _ s' => str.contains s' sub
                      end)
        by (now intros []).
      rewrite Hu, startswith_app. reflexivity.
    + simpl. apply orb_true_iff. right. exact IH.
Qed.

(** [replace1] rewrites the leftmost occurrence and nothing else. *)
Lemma replace1_spec (s old new : string) :
  str.contains s old = true ->
  exists pre post,
    s = pre +:+ old +:+ post
    /\ str.replace1 s old new = pre +:+ new +:+ post
    /\ forall i, occurs_at s old i -> (String.length pre <= i)%nat.
Proof.
  induction s as [|c s IH]; intros Hc.
  - destruct old as [|o old]; [| discriminate Hc].
    exists "", "". simpl. repeat split; intros; lia.
  - simpl in Hc. simpl. destruct (str.startswith (String c s) old) eqn:Hs.
    + apply startswith_spec in Hs as [post Hp]. exists "", post. simpl.
      repeat split; [exact Hp | | intros; lia].
      rewrite Hp. now rewrite drop_app_length.
    + simpl in Hc. destruct (IH Hc) as (pre & post & -> & Hr & Hmin).
      exists (String c pre), post. simpl. repeat split; [now rewrite Hr |].
      intros [|i] [Hle Hocc].
      * simpl in Hocc. congruence.
      * simpl in Hle, Hocc. apply le_n_S, Hmin. split; [lia | exact Hocc].
Qed.

Lemma occurs_at_S c s sub i : occurs_at (String c s) sub (S i) <-> occurs_at s sub i.
Proof. unfold occurs_at. simpl. split; intros [? ?]; split; (lia || assumption). Qed.

Lemma occurs_at_0 s sub : occurs_at s sub 0 <-> str.startswith s sub = true.
Proof.
  unfold occurs_at. destruct s; simpl; split; try tauto; intros; split; (lia || assumption).
Qed.

Lemma occurs_at_nil sub i : sub <> "" -> ~ occurs_at "" sub i.
Proof.
  intros Hne [Hi Hs]. destruct i; [| simpl in Hi; lia].
  destruct sub; [congruence | discriminate].
Qed.

Lemma contains_occurs s sub : str.contains s sub = true <-> exists i, occurs_at s sub i.
Proof.
  induction s as [|c s IH]; simpl; rewrite orb_true_iff.
  - split.
    + intros [H | H]; [| discriminate]. exists 0%nat. now apply occurs_at_0.
    + intros [[|i] [Hi Hs]]; [now left | simpl in Hi; lia].
  - rewrite IH. split.
    + intros [H | [i H]]; [exists 0%nat; now apply occurs_at_0 |].
      exists (S i). now apply occurs_at_S.
    + intros [[|i] H]; [left; now apply occurs_at_0 in H |].
      right. exists i. now apply occurs_at_S in H.
Qed.

(** [count_from] finds an occurrence: there is one at [skip] or behind. *)
Lemma count_from_pos sub s : sub <> "" -> forall skip,
  (1 <= str.count_from skip s sub)%nat
  <-> exists i, (skip <= i)%nat /\ occurs_at s sub i.
Proof.
  intros Hne. induction s as [|c s IH]; intros skip; simpl.
  - split; [lia | intros (i & _ & H); now apply occurs_at_nil in H].
  - destruct skip as [|k].
    + destruct (str.startswith (String c s) sub) eqn:E.
      * split; [intros _; exists 0%nat; split; [lia | now apply occurs_at_0] | lia].
      * rewrite IH. split.
        -- intros (i & _ & H). exists (S i). split; [lia | now apply occurs_at_S].
        -- intros ([|i] & _ & H); [apply occurs_at_0 in H; congruence |].
           exists i. split; [lia | now apply occurs_at_S in H].
    + rewrite IH. split.
      * intros (i & Hi & H). exists (S i). split; [lia | now apply occurs_at_S].
      * intros ([|i] & Hi & H); [lia |].
        exists i. split; [lia | now apply occurs_at_S in H].
Qed.

(** [count_from] finds two: there are two that do not overlap. *)
Lemma count_from_two sub s : sub <> "" -> forall skip,
  (2 <= str.count_from skip s sub)%nat
  <-> exists i j, (skip <= i)%nat /\ occurs_at s sub i /\ occurs_at s sub j
                  /\ (i + String.length sub <= j)%nat.
Proof.
  intros Hne.
  assert (HL : (1 <= String.length sub)%nat) by (destruct sub; [congruence | simpl; lia]).
  induction s as [|c s IH]; intros skip; simpl.
  - split; [lia | intros (i & j & _ & H & _); now apply occurs_at_nil in H].
  - destruct skip as [|k].
    + destruct (str.startswith (String c s) sub) eqn:E.
      * rewrite <- Nat.succ_le_mono, (count_from_pos sub s Hne). split.
        -- intros (j & Hj & H). exists 0%nat, (S j).
           split_and!; [lia | now apply occurs_at_0 | now apply occurs_at_S | lia].
        -- intros (i & [|j] & _ & Hi & Hj & Hij); [lia |].
           exists j. split; [lia | now apply occurs_at_S in Hj].
      * rewrite IH. split.
        -- intros (i & j & _ & Hi & Hj & Hij). exists (S i), (S j).
           split_and!; try lia; now apply occurs_at_S.
        -- intros ([|i] & j & _ & Hi & Hj & Hij); [apply occurs_at_0 in Hi; congruence |].
           destruct j as [|j]; [lia |]. exists i, j.
           apply occurs_at_S in Hi, Hj. split_and!; (lia || assumption).
    + rewrite IH. split.
      * intros (i & j & Hk & Hi & Hj & Hij). exists (S i), (S j).
        split_and!; try lia; now apply occurs_at_S.
      * intros ([|i] & j & Hk & Hi & Hj & Hij); [lia |].
        destruct j as [|j]; [lia |]. exists i, j.
        apply occurs_at_S in Hi, Hj. split_and!; (lia || assumption).
Qed.

(** [count] exceeds one exactly when there are two occurrences that do not
    overlap. *)
Lemma count_two s sub : (1 <? str.count s sub)%nat = true <-> occurs_twice_apart s sub.
Proof.
  rewrite Nat.ltb_lt. unfold occurs_twice_apart. destruct sub as [|x sub].
  - simpl. split.
    + intros Hl. exists 0%nat, 1%nat. unfold occurs_at.
      split_and!; try lia; split; simpl in *; try lia; now destruct s as [|? []].
    + intros (i & j & _ & [Hj _] & Hij & _). lia.
  - change (str.count s (String x sub)) with (str.count_from 0 s (String x sub)).
    change (1 < ?n)%nat with (2 <= n)%nat.
    rewrite (count_from_two (String x sub) s ltac:(discriminate) 0). split.
    + intros (i & j & _ & Hi & Hj & Hij). exists i, j. simpl in *. split_and!; auto; lia.
    + intros (i & j & Hi & Hj & _ & Hij). exists i, j. split_and!; auto; lia.
Qed.

(** X1. What one edit does, exactly: [TextNotFound] when the text occurs
    nowhere, [AmbiguousMatch] when it occurs twice without overlap, and
    otherwise the leftmost occurrence is replaced. *)
Lemma apply_edits_step (content old new : string) (edits : list (gmap string string)) :
  ((~ exists i, occurs_at content old i) ->
   apply_edits content (mk_edit old new :: edits) = Raise (TextNotFound old))
  /\ (occurs_twice_apart content old ->
      apply_edits content (mk_edit old new :: edits) = Raise (AmbiguousMatch old))
  /\ ((exists i, occurs_at content old i) -> ~ occurs_twice_apart content old ->
      exists pre post,
        content = pre +:+ old +:+ post
        /\ (forall i, occurs_at content old i -> (String.length pre <= i)%nat)
        /\ apply_edits content (mk_edit old new :: edits)
           = apply_edits (pre +:+ new +:+ post) edits).
Proof.
  rewrite apply_edits_cons. split_and!.
  - intros Hno. destruct (str.contains content old) eqn:E; [| reflexivity].
    apply contains_occurs in E. contradiction.
  - intros Htwo. pose proof Htwo as (i & _ & Hi & _).
    assert (E : str.contains content old = true) by (apply contains_occurs; eauto).
    rewrite E. simpl. apply count_two in Htwo. now rewrite Htwo.
  - intros Hocc Hone. apply contains_occurs in Hocc.
    destruct (replace1_spec content old new Hocc) as (pre & post & Hc & Hr & Hmin).
    exists pre, post. split_and!; [exact Hc | exact Hmin |].
    rewrite Hocc. simpl.
    destruct (1 <? str.count content old)%nat eqn:E;
      [apply count_two in E; contradiction | now rewrite Hr].
Qed.

(** C6. Sequential visibility: the edits run in list order on the working
    copy, so a later edit sees what an earlier one wrote. On ["foo"], the
    edits foo->bar, bar->baz give ["baz"]; in the other order the first
    fails with [TextNotFound]. *)
Theorem apply_edits_sequential :
  (forall content es1 es2,
      apply_edits content (es1 ++ es2)
      = (c ← apply_edits content es1; apply_edits c es2))
  /\ apply_edits "foo" [mk_edit "foo" "bar"; mk_edit "bar" "baz"] = Ok "baz"
  /\ apply_edits "foo" [mk_edit "bar" "baz"; mk_edit "foo" "bar"]
     = Raise (TextNotFound "bar")
  /\ apply_edits "foo" [mk_edit "bar" "baz"] = Raise (TextNotFound "bar").
Proof.
  split; [exact apply_edits_app |].
  repeat split; rewrite ?apply_edits_cons; reflexivity.
Qed.

(** C2, where the code departs from it: in ["aaa"] the text ["aa"] occurs at
    index 0 and at index 1, yet the edit is applied, to the occurrence at 0;
    [count] passes over occurrences that overlap one it has counted. *)
Theorem apply_edits_overlapping_occurrences :
  occurs_at "aaa" "aa" 0 /\ occurs_at "aaa" "aa" 1
  /\ str.count "aaa" "aa" = 1%nat
  /\ apply_edits "aaa" [mk_edit "aa" "x"] = Ok "xa".
Proof.
  repeat split; try (simpl; lia); rewrite ?apply_edits_cons; reflexivity.
Qed.

(** The examples of C2: ["ab ab"] is ambiguous, ["ab"] is not. *)
Lemma apply_edits_uniqueness_examples :
  apply_edits "ab ab" [mk_edit "ab" "x"] = Raise (AmbiguousMatch "ab")
  /\ apply_edits "ab" [mk_edit "ab" "x"] = Ok "x".
Proof. split; rewrite apply_edits_cons; reflexivity. Qed.

Section edit_engine.
Context {W : Type} `{OS W}.

(** C3. Atomic failure: when an edit of the list fails, after the edits
    before it succeeded on the working copy, the call raises that edit's
    error and leaves the machine, so the file, as it was. *)
Theorem apply_file_edits_atomic (w : W) (file_path content c1 : string)
    (es1 es2 : list (gmap string string)) (e : gmap string string)
    (err : exn) (dry_run : bool) :
  read_file_content w file_path = Ok content ->
  apply_edits content es1 = Ok c1 ->
  apply_edits c1 [e] = Raise err ->
  apply_file_edits file_path (es1 ++ e :: es2) dry_run w = (w, Raise err).
Proof.
  intros Hread H1 He.
  assert (Hall : apply_edits content (es1 ++ e :: es2) = Raise err).
  { rewrite apply_edits_app, H1.
    change (apply_edits c1 ([e] ++ es2) = Raise err).
    rewrite apply_edits_app, He. reflexivity. }
  unfold apply_file_edits, mbind, io_bind, io_read, io_pure.
  rewrite Hread, Hall. reflexivity.
Qed.

(** C7. Dry run: the machine is left as it was, whatever the edits; and the
    diff is the one of the call that writes: whenever that call returns a
    diff the dry run returns the same, and when the dry run returns a diff
    the call that writes returns it too, unless the write itself raises. *)
Theorem apply_file_edits_dry_run (w : W) (file_path : string)
    (edits : list (gmap string string)) :
  (apply_file_edits file_path edits true w).1 = w
  /\ (forall diff, (apply_file_edits file_path edits false w).2 = Ok diff
                   -> (apply_file_edits file_path edits true w).2 = Ok diff)
  /\ (forall diff, (apply_file_edits file_path edits true w).2 = Ok diff
                   -> (apply_file_edits file_path edits false w).2 = Ok diff
                      \/ exists new_content e,
                           (write_file_content file_path new_content w).2 = Raise e
                           /\ (apply_file_edits file_path edits false w).2 = Raise e).
Proof.
  unfold apply_file_edits, mbind, io_bind, io_read, io_pure, mret, io_ret.
  destruct (read_file_content w file_path) as [content|]; simpl;
    [| repeat split; intros; discriminate].
  destruct (apply_edits content edits) as [new_content|]; simpl;
    [| repeat split; intros; discriminate].
  destruct (write_file_content file_path new_content w) as [w' [[]|e]] eqn:Hw;
    simpl; repeat split; intros diff Hd; try discriminate; try exact Hd.
  - now left.
  - right. exists new_content, e. rewrite Hw. now split.
Qed.

End edit_engine.

(** ** The diff *)

(** When [unified_diff] yields anything, it starts with two header lines of
    its own; the source passes no file names, so they carry none. *)
Lemma unified_diff_headers (a b : list string) :
  difflib.unified_diff a b "" "" "" = []
  \/ exists hunks, difflib.unified_diff a b "" "" "" = "--- " :: "+++ " :: hunks.
Proof.
  unfold difflib.unified_diff.
  destruct (difflib.get_grouped_opcodes a b 3); [now left | right; eauto].
Qed.

(** No group of opcodes is empty. *)
Lemma group_codes_groups (n : nat) (codes group : list difflib.opcode) :
  Forall (fun g => g <> []) (difflib.group_codes n group codes).
Proof.
  revert group. induction codes as [|[t i1 i2 j1 j2] codes IH]; intros group.
  - simpl. destruct group as [|c [|c' group]]; [constructor | |].
    + destruct (difflib.is_equal c); now repeat constructor.
    + now repeat constructor.
  - simpl. destruct (_ && _).
    + constructor; [now destruct group | apply IH].
    + apply IH.
Qed.

(** What [unified_diff] yields behind its header lines begins with the header
    of a hunk. *)
Lemma unified_diff_hunk (a b : list string) :
  difflib.unified_diff a b "" "" "" = []
  \/ exists ranges lines,
       difflib.unified_diff a b "" "" ""
       = "--- " :: "+++ " :: ("@@ -" +:+ ranges) :: lines.
Proof.
  unfold difflib.unified_diff, difflib.get_grouped_opcodes.
  set (codes := difflib.fix_last 3 _).
  pose proof (group_codes_groups 3 codes []) as Hg.
  destruct (difflib.group_codes 3 [] codes) as [|group groups]; [now left | right].
  apply Forall_cons in Hg as [Hne _].
  destruct group as [|first group]; [congruence |].
  destruct (last (first :: group)) as [l|] eqn:Hl.
  - rewrite fmap_cons. unfold difflib.hunk at 1. rewrite Hl. simpl concat.
    eexists _, _. reflexivity.
  - apply last_None in Hl. discriminate.
Qed.

(** C5, where the code departs from it: the file holds [ab] and the edit
    replaces [ab] by [x]. The diff returned has the two header lines with the
    path and, behind them, the two header lines [unified_diff] yields itself,
    with empty labels: four header lines. *)
Theorem apply_file_edits_duplicate_headers :
  apply_file_edits "/data/f" [mk_edit "ab" "x"] true (one_file "ab")
  = (one_file "ab",
     Ok (str.join LF ["--- /data/f"; "+++ /data/f"; "--- "; "+++ ";
                      "@@ -1 +1 @@"; "-ab"; "+x"])).
Proof. vm_compute. reflexivity. Qed.

(** An example: the call that writes returns the same diff and the file holds [x]. *)
Lemma apply_file_edits_writes :
  exists w',
    apply_file_edits "/data/f" [mk_edit "ab" "x"] false (one_file "ab")
    = (w', Ok (str.join LF ["--- /data/f"; "+++ /data/f"; "--- "; "+++ ";
                            "@@ -1 +1 @@"; "-ab"; "+x"]))
    /\ read_file_content w' "/data/f" = Ok "x"
    /\ read_file_content (one_file "ab") "/data/f" = Ok "ab".
Proof. eexists. repeat split; vm_compute; reflexivity. Qed.

(** C3 at work: on a file holding [foo], the first edit succeeds on the
    working copy, the second finds nothing, and the file is as before. *)
Lemma apply_file_edits_atomic_witness :
  apply_file_edits "/data/f" ([mk_edit "foo" "bar"] ++ mk_edit "zzz" "y" :: [])
                   false (one_file "foo")
  = (one_file "foo", Raise (TextNotFound "zzz")).
Proof.
  apply (apply_file_edits_atomic (one_file "foo") "/data/f" "foo" "bar"
           [mk_edit "foo" "bar"] [] (mk_edit "zzz" "y") (TextNotFound "zzz") false);
    vm_compute; reflexivity.
Defined.

(** ** The allowed directories *)

Section immutable.
Context {W : Type} `{OS W} `{Lib}.

Lemma preserves_ret {A} (a : A) : preserves (mret a : tool W A).
Proof. now intros s. Qed.

Lemma preserves_raise {A} (e : exn) : preserves (tool_raise e : tool W A).
Proof. now intros s. Qed.

Lemma preserves_get {A} (f : ServerState W -> result A) : preserves (tool_get f).
Proof. now intros s. Qed.

Lemma preserves_io {A} (m : io W A) : preserves (tool_io m).
Proof. intros s. unfold tool_io. now destruct (m (world s)). Qed.

Lemma preserves_bind {A B} (m : tool W A) (f : A -> tool W B) :
  preserves m -> (forall a, preserves (f a)) -> preserves (m ≫= f).
Proof.
  intros Hm Hf s. unfold mbind, tool_bind.
  specialize (Hm s). destruct (m s) as [s' [a|e]]; simpl in *; [| exact Hm].
  now rewrite Hf.
Qed.

Lemma search_files_preserves (depth : nat) (path pattern : string)
    (exclude_patterns : option (list string)) :
  preserves (search_files depth path pattern exclude_patterns).
Proof.
  revert path exclude_patterns.
  induction depth as [|depth IH]; intros path exclude_patterns; simpl.
  - apply preserves_raise.
  - apply preserves_bind; [apply preserves_get | intros valid_path].
    apply preserves_bind; [apply IH | intros results].
    destruct (negb _); apply preserves_ret.
Qed.

Lemma call_tool_preserves (c : tool_call) : preserves (call_tool c).
Proof.
  destruct c; simpl;
    unfold read_text_file, read_media_file, write_file, edit_file,
      create_directory, list_directory, list_directory_with_sizes,
      directory_tree, move_file, get_file_info;
    try solve
      [ repeat first
          [ apply preserves_ret | apply preserves_raise | apply preserves_get
          | apply preserves_io | apply preserves_bind; [| intros ?]
          | match goal with
            | |- preserves (if ?b then _ else _) => destruct b
            end ] ].
  - apply search_files_preserves.
  - intros s. unfold list_allowed_directories.
    destruct (allowed_directories s) eqn:E; simpl; congruence.
Qed.

Lemma serve_preserves (calls : list tool_call) (s : ServerState W) :
  allowed_directories (serve calls s).1 = allowed_directories s.
Proof.
  revert s. induction calls as [|c calls IH]; intros s; simpl; [reflexivity |].
  pose proof (call_tool_preserves c s) as Hc.
  destruct (call_tool c s) as [s' r]. specialize (IH s').
  destruct (serve calls s') as [s'' rs]. simpl in *. congruence.
Qed.

(** C9. No tool of the public surface changes [allowed_directories]: after a
    call, and after any sequence of calls, the list is the one the server
    started the calls with, element by element. ([validate_path] returns no
    state at all; [set_allowed_directories] is called by [main] alone.) *)
Theorem allowed_directories_immutable :
  (forall (c : tool_call) (s : ServerState W),
      allowed_directories (call_tool c s).1 = allowed_directories s)
  /\ (forall (calls : list tool_call) (s : ServerState W),
         allowed_directories (serve calls s).1 = allowed_directories s).
Proof. split; [exact call_tool_preserves | exact serve_preserves]. Qed.

(** What [main] stores is what the calls are served with. *)
Lemma main_then_serve (args : list string) (calls : list tool_call)
    (s s0 : ServerState W) :
  main args s = Serving s0 ->
  exists dirs, initial_directories (world s) args = Some dirs
               /\ allowed_directories s0 = dirs
               /\ allowed_directories (serve calls s0).1 = dirs.
Proof.
  unfold main. destruct args as [|a args]; [discriminate |].
  destruct (initial_directories (world s) (a :: args)) as [dirs|]; [| discriminate].
  intros [= <-]. exists dirs. repeat split.
  now rewrite serve_preserves.
Qed.

End immutable.

(** ** More on the edit engine *)

Lemma startswith_nil s : str.startswith s "" = true.
Proof. now destruct s. Qed.

Lemma contains_nil s : str.contains s "" = true.
Proof. now destruct s. Qed.

(** X28. An empty [oldText] is found everywhere: in an empty text it is
    replaced by [newText]; in any other text it counts as appearing more than
    once, and the edit is refused. *)
Theorem apply_edits_empty_old_text (content new : string)
    (edits : list (gmap string string)) :
  apply_edits "" (mk_edit "" new :: edits) = apply_edits new edits
  /\ (content <> "" ->
      apply_edits content (mk_edit "" new :: edits) = Raise (AmbiguousMatch "")).
Proof.
  split.
  - rewrite apply_edits_cons. simpl. now rewrite append_nil_r.
  - intros Hne. rewrite apply_edits_cons, contains_nil. simpl.
    destruct content as [|c content]; [done|]. reflexivity.
Qed.

Lemma app_inj_length (a b a' b' : string) :
  a +:+ b = a' +:+ b' -> String.length a = String.length a' -> a = a' /\ b = b'.
Proof.
  revert a'. induction a as [|x a IH]; intros [|x' a']; simpl; try done.
  intros [= -> H] [= Hl]. destruct (IH _ H Hl) as [-> ->]. done.
Qed.

Lemma occurs_at_app pre sub post : occurs_at (pre +:+ sub +:+ post) sub (String.length pre).
Proof.
  split.
  - rewrite append_length. lia.
  - rewrite drop_app_length. apply startswith_app.
Qed.

(** X29. An edit is undone by the edit that swaps its two texts, when the new
    text occurs once in the result. *)
Theorem apply_edits_undo (content old new result : string) :
  apply_edits content [mk_edit old new] = Ok result ->
  (forall i j, occurs_at result new i -> occurs_at result new j -> i = j) ->
  apply_edits result [mk_edit new old] = Ok content.
Proof.
  rewrite !apply_edits_cons. intros He Huniq.
  destruct (str.contains content old) eqn:Hc; [|discriminate]. simpl in He.
  destruct (1 <? str.count content old)%nat; [discriminate|]. simpl in He.
  injection He as <-.
  destruct (replace1_spec content old new Hc) as (pre & post & Hcontent & Hres & _).
  rewrite Hres in *.
  assert (str.contains (pre +:+ new +:+ post) new = true) as Hc'.
  { apply contains_spec. eauto. }
  rewrite Hc'. simpl negb. cbv iota.
  destruct (1 <? str.count (pre +:+ new +:+ post) new)%nat eqn:Hcount.
  { apply count_two in Hcount as (i & j & Hi & Hj & Hlt & _).
    specialize (Huniq i j Hi Hj). lia. }
  destruct (replace1_spec _ new old Hc') as (pre' & post' & Hsame & -> & _).
  simpl. f_equal. rewrite Hcontent.
  assert (String.length pre = String.length pre') as Hlen.
  { apply Huniq; [apply occurs_at_app|]. rewrite Hsame. apply occurs_at_app. }
  destruct (app_inj_length _ _ _ _ Hsame Hlen) as [<- Hpost].
  destruct (app_inj_length new post new post' Hpost eq_refl) as [_ <-]. reflexivity.
Qed.

Section edit_keys.
Context {W : Type} `{OS W}.

(** X30. An edit that lacks a key fails with [KeyError], [oldText] looked up
    first and [newText] second, both before any text is searched for; the
    file is left as it was. *)
Theorem apply_file_edits_missing_key (w : W) (file_path content c1 : string)
    (es1 es2 : list (gmap string string)) (e : gmap string string) (dry_run : bool) :
  read_file_content w file_path = Ok content ->
  apply_edits content es1 = Ok c1 ->
  (e !! "oldText" = None ->
   apply_file_edits file_path (es1 ++ e :: es2) dry_run w = (w, Raise (KeyError "oldText")))
  /\ (e !! "oldText" <> None -> e !! "newText" = None ->
      apply_file_edits file_path (es1 ++ e :: es2) dry_run w
      = (w, Raise (KeyError "newText"))).
Proof.
  intros Hread Hes1.
  assert (forall err, apply_edits c1 (e :: es2) = Raise err ->
            apply_file_edits file_path (es1 ++ e :: es2) dry_run w = (w, Raise err)) as Hfail.
  { intros err Herr.
    assert (apply_edits content (es1 ++ e :: es2) = Raise err) as Hall.
    { rewrite apply_edits_app, Hes1. exact Herr. }
    unfold apply_file_edits, mbind, io_bind, io_read, io_pure.
    rewrite Hread, Hall. reflexivity. }
  split.
  - intros Hold. apply Hfail. simpl. unfold getitem. now rewrite Hold.
  - intros Hold Hnew. apply Hfail. simpl. unfold getitem.
    destruct (e !! "oldText"); [|done]. now rewrite Hnew.
Qed.

End edit_keys.


(** ** Reading lines *)

Lemma join_empty_cons (x : string) (xs : list string) :
  str.join "" (x :: xs) = x +:+ str.join "" xs.
Proof.
  destruct xs as [|y ys]; simpl; [now rewrite append_nil_r | reflexivity].
Qed.

Lemma join_empty_app (l1 l2 : list string) :
  str.join "" (l1 ++ l2) = str.join "" l1 +:+ str.join "" l2.
Proof.
  induction l1 as [|x l1 IH]; [reflexivity|].
  rewrite <- app_comm_cons, !join_empty_cons, IH. now rewrite append_assoc.
Qed.

Lemma readlines_go_join (s line : string) :
  str.join "" (str.readlines_go line s) = line +:+ s.
Proof.
  revert line. induction s as [|c s IH]; intros line; simpl.
  - destruct line; simpl; [reflexivity | now rewrite append_nil_r].
  - destruct (nat_of_ascii c =? 10)%nat.
    + rewrite join_empty_cons, IH. now rewrite append_assoc.
    + rewrite IH. now rewrite append_assoc.
Qed.

Lemma readlines_join (text : string) : str.join "" (str.readlines text) = text.
Proof. apply readlines_go_join. Qed.

Section reading.
Context {W : Type} `{OS W}.

(** X18. The first [n] lines and the last [len - n] lines make up the file:
    [head_file] and [tail_file] cut the text at the same place. *)
Theorem head_file_tail_file_partition (w : W) (file_path text : string) (n : Z) :
  open_read w file_path utf_8 = Ok text ->
  (0 <= n < Z.of_nat (length (str.readlines text)))%Z ->
  exists h t,
    head_file w file_path n = Ok h
    /\ tail_file w file_path (Z.of_nat (length (str.readlines text)) - n) = Ok t
    /\ h +:+ t = text.
Proof.
  intros Hr Hn. unfold head_file, tail_file. rewrite Hr. simpl.
  eexists _, _. split; [reflexivity|]. split; [reflexivity|].
  unfold slice_from.
  replace (- (Z.of_nat (length (str.readlines text)) - n) <? 0)%Z with true
    by (symmetry; apply Z.ltb_lt; lia).
  replace (Z.max 0 (- (Z.of_nat (length (str.readlines text)) - n)
                    + Z.of_nat (length (str.readlines text)))) with n by lia.
  rewrite <- join_empty_app, take_drop. apply readlines_join.
Qed.

(** X19. Asked for at least as many lines as the file has, [head_file] and
    [tail_file] return the whole text. *)
Theorem head_file_tail_file_whole (w : W) (file_path text : string) (n : Z) :
  open_read w file_path utf_8 = Ok text ->
  (Z.of_nat (length (str.readlines text)) <= n)%Z ->
  head_file w file_path n = Ok text /\ tail_file w file_path n = Ok text.
Proof.
  intros Hr Hn. unfold head_file, tail_file. rewrite Hr. simpl. split.
  - rewrite take_ge by lia. now rewrite readlines_join.
  - unfold slice_from.
    assert (Z.to_nat (if (- n <? 0)%Z
                      then Z.max 0 (- n + Z.of_nat (length (str.readlines text)))
                      else Z.min (- n) (Z.of_nat (length (str.readlines text)))) = 0%nat)
      as ->.
    { destruct (Z.ltb_spec (- n) 0); lia. }
    rewrite drop_0. now rewrite readlines_join.
Qed.

(** X20. A count that is not positive: [head_file] returns nothing, and
    [tail_file], slicing with [lines[-num_lines:]], returns the text without
    its first [-num_lines] lines (all of it for 0). *)
Theorem head_file_tail_file_nonpositive (w : W) (file_path text : string) (k : nat) :
  open_read w file_path utf_8 = Ok text ->
  head_file w file_path (- Z.of_nat k) = Ok ""
  /\ tail_file w file_path (- Z.of_nat k)
     = Ok (str.join "" (drop k (str.readlines text))).
Proof.
  intros Hr. unfold head_file, tail_file. rewrite Hr. simpl. split.
  - replace (Z.to_nat (- Z.of_nat k)) with 0%nat by lia. reflexivity.
  - unfold slice_from. rewrite Z.opp_involutive.
    replace (Z.of_nat k <? 0)%Z with false by (symmetry; apply Z.ltb_ge; lia).
    destruct (Nat.le_gt_cases k (length (str.readlines text))) as [Hk|Hk].
    + now replace (Z.to_nat (Z.min (Z.of_nat k) (Z.of_nat (length (str.readlines text)))))
        with k by lia.
    + replace (Z.to_nat (Z.min (Z.of_nat k) (Z.of_nat (length (str.readlines text)))))
        with (length (str.readlines text)) by lia.
      rewrite !drop_ge by lia. reflexivity.
Qed.

End reading.


(** ** Sizes and permissions *)

(** [format_size] *)

Lemma fixed1_spec (num den : N) :
  (0 < den)%N ->
  exists q : N,
    fixed1 num den = str.of_N (q / 10) +:+ "." +:+ str.of_N (q mod 10)
    /\ (2 * Z.abs (10 * Z.of_N num - Z.of_N q * Z.of_N den) <= Z.of_N den)%Z.
Proof.
  intros Hden. unfold fixed1.
  pose proof (N.div_mod (10 * num) den ltac:(lia)) as Hdm.
  pose proof (N.mod_lt (10 * num) den ltac:(lia)) as Hlt.
  set (q := (10 * num / den)%N) in *. set (r := (10 * num mod den)%N) in *.
  destruct ((den <? 2 * r)%N || (2 * r =? den)%N && N.odd q) eqn:Hup.
  - exists (q + 1)%N. split; [reflexivity|].
    assert (den <= 2 * r)%N.
    { apply orb_true_iff in Hup as [Hup|Hup].
      - apply N.ltb_lt in Hup. lia.
      - apply andb_true_iff in Hup as [Hup _]. apply N.eqb_eq in Hup. lia. }
    lia.
  - exists q. split; [reflexivity|].
    apply orb_false_iff in Hup as [Hup _]. apply N.ltb_ge in Hup. lia.
Qed.

Lemma format_size_loop_spec (num : N) (units : list string) : forall den : N,
  (0 < den)%N ->
  exists (k : nat) (unit : string) (q : N),
    (units ++ ["PB"]) !! k = Some unit
    /\ format_size_loop units num den
       = str.of_N (q / 10) +:+ "." +:+ str.of_N (q mod 10) +:+ " " +:+ unit
    /\ (k = 0%nat \/ 1024 ^ N.of_nat k * den <= num)%N
    /\ (k = length units \/ num < 1024 ^ N.of_nat (S k) * den)%N
    /\ (2 * Z.abs (10 * Z.of_N num - Z.of_N q * Z.of_N (1024 ^ N.of_nat k * den))
        <= Z.of_N (1024 ^ N.of_nat k * den))%Z.
Proof.
  induction units as [|u units IH]; intros den Hden; simpl.
  - destruct (fixed1_spec num den Hden) as (q & -> & Hq).
    exists 0%nat, "PB", q. split; [reflexivity|]. split; [now rewrite !append_assoc|].
    split; [now left|]. split; [now left|].
    now replace (1024 ^ N.of_nat 0 * den)%N with den by (simpl; lia).
  - destruct (N.ltb_spec num (1024 * den)) as [Hlt|Hge].
    + destruct (fixed1_spec num den Hden) as (q & -> & Hq).
      exists 0%nat, u, q. split; [reflexivity|]. split; [now rewrite !append_assoc|].
      split; [now left|]. split; [right; simpl; lia|].
      now replace (1024 ^ N.of_nat 0 * den)%N with den by (simpl; lia).
    + destruct (IH (1024 * den)%N ltac:(lia)) as (k & unit & q & Hk & -> & Hlo & Hhi & Hq).
      assert (forall j : nat, 1024 ^ N.of_nat (S j) * den = 1024 ^ N.of_nat j * (1024 * den))%N
        as Hpow.
      { intros j. rewrite Nat2N.inj_succ, N.pow_succ_r'. lia. }
      exists (S k), unit, q. split; [exact Hk|]. split; [reflexivity|].
      split; [right|split].
      * rewrite Hpow. destruct Hlo as [->|Hlo]; [simpl; lia | exact Hlo].
      * destruct Hhi as [->|Hhi]; [now left | right; now rewrite Hpow].
      * now rewrite Hpow.
Qed.

(** X22. [format_size] prints the size divided by [1024 ^ k], rounded to the
    nearest tenth, with the [k]-th unit: [k] is the first for which the size
    is below [1024 ^ (k + 1)], or the last unit. (The size is below [2 ^ 53],
    where the source's floating point division is exact.) *)
Theorem format_size_rounds (size : N) :
  (size < 2 ^ 53)%N ->
  exists (k : nat) (unit : string) (q : N),
    size_units !! k = Some unit
    /\ format_size size
       = str.of_N (q / 10) +:+ "." +:+ str.of_N (q mod 10) +:+ " " +:+ unit
    /\ (k = 0%nat \/ 1024 ^ N.of_nat k <= size)%N
    /\ (k = 5%nat \/ size < 1024 ^ N.of_nat (S k))%N
    /\ (2 * Z.abs (10 * Z.of_N size - Z.of_N q * Z.of_N (1024 ^ N.of_nat k))
        <= Z.of_N (1024 ^ N.of_nat k))%Z.
Proof.
  intros _.
  destruct (format_size_loop_spec size ["B"; "KB"; "MB"; "GB"; "TB"] 1 ltac:(lia))
    as (k & unit & q & Hk & Hf & Hlo & Hhi & Hq).
  exists k, unit, q. rewrite !N.mul_1_r in *. repeat split; assumption.
Qed.

(** [oct] and the permissions *)

Lemma oct_digits_acc (fuel : nat) : forall n acc,
  oct_digits fuel n acc = oct_digits fuel n "" +:+ acc.
Proof.
  induction fuel as [|fuel IH]; intros n acc; simpl; [reflexivity|].
  destruct (n <? 8)%N.
  - now rewrite append_nil_r.
  - rewrite IH, (IH _ (str.of_N (n mod 8) +:+ "")), append_nil_r.
    now rewrite append_assoc.
Qed.

Lemma digit_length (d : N) : (d < 8)%N -> String.length (str.of_N d) = 1%nat.
Proof.
  intros Hd.
  assert (d = 0 \/ d = 1 \/ d = 2 \/ d = 3 \/ d = 4 \/ d = 5 \/ d = 6 \/ d = 7)%N
    as Hc by lia.
  destruct Hc as [->|[->|[->|[->|[->|[->|[->| ->]]]]]]]; reflexivity.
Qed.

Lemma size_nat_ge (n : N) : (64 <= n)%N -> (7 <= N.size_nat n)%nat.
Proof.
  intros Hn. destruct n as [|p]; [lia|]. simpl.
  assert (forall q, (1 <= Pos.size_nat q)%nat) as Hq by (intros [q|q|]; simpl; lia).
  do 6 (destruct p as [p|p|]; [| |lia]; simpl); pose proof (Hq p); lia.
Qed.

Lemma oct_last_three (n : N) :
  (64 <= n)%N ->
  exists pre, oct n = pre +:+ str.of_N (n / 64 mod 8) +:+ str.of_N (n / 8 mod 8)
                      +:+ str.of_N (n mod 8).
Proof.
  intros Hn. unfold oct. pose proof (size_nat_ge n Hn) as Hs.
  destruct (N.size_nat n) as [|[|f]]; [lia | lia |].
  simpl oct_digits.
  replace (n <? 8)%N with false by (symmetry; apply N.ltb_ge; lia).
  replace (n / 8 <? 8)%N with false.
  2:{ symmetry. apply N.ltb_ge. apply N.div_le_lower_bound; lia. }
  rewrite N.Div0.div_div. change (8 * 8)%N with 64%N.
  destruct (n / 64 <? 8)%N.
  - exists "0o". now rewrite !append_nil_r, <- !append_assoc.
  - rewrite oct_digits_acc. exists ("0o" +:+ oct_digits f (n / 64 / 8) "").
    now rewrite !append_nil_r, <- !append_assoc.
Qed.

Lemma drop_app_le (a b : string) :
  str.drop (String.length (a +:+ b) - String.length b) (a +:+ b) = b.
Proof.
  rewrite append_length. replace (String.length a + String.length b - String.length b)%nat
    with (String.length a) by lia.
  apply drop_app_length.
Qed.

Lemma oct_permissions (n : N) :
  (64 <= n)%N ->
  str.drop (String.length (oct n) - 3) (oct n)
  = str.of_N (n / 64 mod 8) +:+ str.of_N (n / 8 mod 8) +:+ str.of_N (n mod 8).
Proof.
  intros Hn. destruct (oct_last_three _ Hn) as [pre ->].
  set (d2 := str.of_N (n / 64 mod 8)).
  set (d1 := str.of_N (n / 8 mod 8)).
  set (d0 := str.of_N (n mod 8)).
  assert (String.length (d2 +:+ d1 +:+ d0) = 3%nat) as Hlen.
  { rewrite !append_length. unfold d2, d1, d0.
    rewrite !digit_length; [reflexivity | | |]; apply N.mod_lt; lia. }
  rewrite <- Hlen at 1. apply drop_app_le.
Qed.

Section stats.
Context {W : Type} `{OS W}.

(** X23. The [permissions] of [get_file_stats] are the last three octal
    digits of the mode, for every mode that has at least three. *)
Theorem get_file_stats_permissions (w : W) (file_path : string) (st : stat_result) :
  os_stat w file_path = Ok st ->
  (64 <= st_mode st)%N ->
  exists info,
    get_file_stats w file_path = Ok info
    /\ last info
       = Some ("permissions",
               str.of_N (st_mode st / 64 mod 8) +:+ str.of_N (st_mode st / 8 mod 8)
               +:+ str.of_N (st_mode st mod 8)).
Proof.
  intros Hst Hm. unfold get_file_stats. rewrite Hst.
  eexists. split; [reflexivity|]. rewrite <- (oct_permissions _ Hm). reflexivity.
Qed.

End stats.


(** ** The directory tree *)

(** [sorted] *)

Lemma insert_sorted_perm {A} (le : A -> A -> bool) (x : A) (l : list A) :
  insert_sorted le x l ≡ₚ x :: l.
Proof.
  induction l as [|y l IH]; simpl; [reflexivity|].
  destruct (le x y); [reflexivity|]. rewrite IH. apply perm_swap.
Qed.

Lemma sorted_by_perm {A} (le : A -> A -> bool) (l : list A) : sorted_by le l ≡ₚ l.
Proof.
  induction l as [|x l IH]; simpl; [reflexivity|].
  unfold sorted_by in *. simpl. rewrite insert_sorted_perm. now rewrite IH.
Qed.

Lemma insert_sorted_sorted {A} (le : A -> A -> bool) (x : A) (l : list A) :
  (forall a b, le a b = true \/ le b a = true) ->
  Sorted.Sorted (fun a b => le a b = true) l ->
  Sorted.Sorted (fun a b => le a b = true) (insert_sorted le x l).
Proof.
  intros Htot. induction 1 as [|y l Hs IH Hd]; simpl.
  - repeat constructor.
  - destruct (le x y) eqn:Hxy.
    + constructor; [now constructor | now constructor].
    + constructor; [exact IH|].
      destruct Hd as [|z l Hyz]; simpl.
      * constructor. destruct (Htot x y); congruence.
      * destruct (le x z); constructor; [|exact Hyz].
        destruct (Htot x y); congruence.
Qed.

Lemma sorted_by_sorted {A} (le : A -> A -> bool) (l : list A) :
  (forall a b, le a b = true \/ le b a = true) ->
  Sorted.Sorted (fun a b => le a b = true) (sorted_by le l).
Proof.
  intros Htot. induction l as [|x l IH]; [constructor|].
  now apply insert_sorted_sorted.
Qed.

Lemma leb_trans (s1 s2 s3 : string) :
  String.leb s1 s2 = true -> String.leb s2 s3 = true -> String.leb s1 s3 = true.
Proof.
  unfold String.leb. revert s2 s3.
  induction s1 as [|c1 s1 IH]; intros [|c2 s2] [|c3 s3]; simpl; try done.
  unfold Ascii.compare.
  destruct (N.compare_spec (N_of_ascii c1) (N_of_ascii c2)) as [E12|L12|G12];
    destruct (N.compare_spec (N_of_ascii c2) (N_of_ascii c3)) as [E23|L23|G23];
    try done.
  - rewrite E12, E23, N.compare_refl. apply IH.
  - intros _ _. rewrite E12. now apply N.compare_lt_iff in L23 as ->.
  - intros _ _. rewrite <- E23. now apply N.compare_lt_iff in L12 as ->.
  - intros _ _. assert (N_of_ascii c1 < N_of_ascii c3)%N as L by lia.
    now apply N.compare_lt_iff in L as ->.
Qed.

Lemma sorted_filter {A} (R : A -> A -> Prop) (P : A -> Prop) `{forall x, Decision (P x)}
    (l : list A) :
  Sorted.StronglySorted R l -> Sorted.StronglySorted R (filter P l).
Proof.
  induction 1 as [|x l Hs IH Hx]; [constructor|].
  rewrite filter_cons. destruct (decide (P x)); [|exact IH].
  constructor; [exact IH|].
  apply Forall_forall. intros y Hy.
  apply list_elem_of_filter in Hy as [_ Hy].
  rewrite Forall_forall in Hx. now apply Hx.
Qed.

Lemma sorted_names (entries : list string) :
  Sorted.StronglySorted (fun a b => String.leb a b = true) (sorted_by String.leb entries).
Proof.
  apply Sorted.Sorted_StronglySorted.
  - intros a b c. apply leb_trans.
  - apply sorted_by_sorted, String.leb_total.
Qed.

Section tree.
Context {W : Type} `{OS W} `{Lib}.

Lemma tree_entries_names rec (w : W) directory exclude_patterns entries ts :
  tree_entries rec w directory exclude_patterns entries = Ok ts ->
  tree_name <$> ts = filter (fun e => kept exclude_patterns e = true) entries.
Proof.
  revert ts. induction entries as [|e entries IH]; intros ts; simpl.
  - intros [= <-]. reflexivity.
  - destruct (existsb _ exclude_patterns) eqn:Hex; simpl.
    + rewrite filter_cons, decide_False by (unfold kept; now rewrite Hex). apply IH.
    + rewrite filter_cons, decide_True by (unfold kept; now rewrite Hex).
      destruct (os_path_isdir w (os_path_join directory e)).
      * destruct (rec _) as [children|err]; simpl; [|discriminate].
        destruct (tree_entries _ _ _ _ entries) as [others|err]; simpl; [|discriminate].
        intros [= <-]. simpl. f_equal. now apply IH.
      * simpl.
        destruct (tree_entries _ _ _ _ entries) as [others|err]; simpl; [|discriminate].
        intros [= <-]. simpl. f_equal. now apply IH.
Qed.

(** X24. The entries of a level of the tree are the directory's entries that
    no pattern excludes, each once, in the order of their names. *)
Theorem build_directory_tree_level (depth : nat) (w : W) (directory : string)
    (exclude_patterns entries : list string) (ts : list tree) :
  os_listdir w directory = Ok entries ->
  build_directory_tree depth w directory exclude_patterns = Ok ts ->
  tree_name <$> ts ≡ₚ filter (fun e => kept exclude_patterns e = true) entries
  /\ Sorted.StronglySorted (fun a b => String.leb a b = true) (tree_name <$> ts).
Proof.
  intros Hl Hb. destruct depth as [|depth]; [discriminate|]. simpl in Hb.
  rewrite Hl in Hb. apply tree_entries_names in Hb. rewrite Hb. split.
  - now rewrite sorted_by_perm.
  - apply sorted_filter, sorted_names.
Qed.

Lemma tree_entries_kept rec (w : W) directory exclude_patterns entries ts :
  (forall p cs, rec p = Ok cs ->
     Forall (fun n => kept exclude_patterns n = true) (concat (map tree_names cs))) ->
  tree_entries rec w directory exclude_patterns entries = Ok ts ->
  Forall (fun n => kept exclude_patterns n = true) (concat (map tree_names ts)).
Proof.
  intros Hrec. revert ts. induction entries as [|e entries IH]; intros ts; simpl.
  - intros [= <-]. constructor.
  - destruct (existsb _ exclude_patterns) eqn:Hex; simpl; [apply IH|].
    assert (kept exclude_patterns e = true) as Hk by (unfold kept; now rewrite Hex).
    destruct (os_path_isdir w (os_path_join directory e)).
    + destruct (rec _) as [children|err] eqn:Hc; simpl; [|discriminate].
      destruct (tree_entries _ _ _ _ entries) as [others|err]; simpl; [|discriminate].
      intros [= <-]. simpl. constructor; [exact Hk|].
      apply Forall_app. split; [now apply (Hrec _ _ Hc) | now apply IH].
    + simpl.
      destruct (tree_entries _ _ _ _ entries) as [others|err]; simpl; [|discriminate].
      intros [= <-]. simpl. constructor; [exact Hk | now apply IH].
Qed.

(** X25. No name anywhere in the tree matches a pattern to exclude: what
    lies below an excluded directory is left out with it. *)
Theorem build_directory_tree_excludes (depth : nat) (w : W) (directory : string)
    (exclude_patterns : list string) (ts : list tree) :
  build_directory_tree depth w directory exclude_patterns = Ok ts ->
  Forall (fun name => kept exclude_patterns name = true) (concat (map tree_names ts)).
Proof.
  revert directory ts. induction depth as [|depth IH]; intros directory ts; simpl.
  - discriminate.
  - destruct (os_listdir w directory) as [entries|[]]; try discriminate.
    + apply tree_entries_kept. intros p cs. apply IH.
    + intros [= <-]. constructor.
Qed.

End tree.


(** ** The tools *)

Section tools.
Context {W : Type} `{OS W} `{Lib}.

Lemma keeps_ret {A} (a : A) : keeps_state (mret a : tool W A).
Proof. intros s. reflexivity. Qed.

Lemma keeps_raise {A} (e : exn) : keeps_state (tool_raise e : tool W A).
Proof. intros s. reflexivity. Qed.

Lemma keeps_get {A} (f : ServerState W -> result A) : keeps_state (tool_get f).
Proof. intros s. reflexivity. Qed.

Lemma keeps_io {A} (m : io W A) : (forall w, (m w).1 = w) -> keeps_state (tool_io m).
Proof.
  intros Hm [dirs w]. unfold tool_io. simpl. specialize (Hm w).
  destruct (m w) as [w' r]. simpl in *. now subst.
Qed.

Lemma keeps_bind {A B} (m : tool W A) (f : A -> tool W B) :
  keeps_state m -> (forall a, keeps_state (f a)) -> keeps_state (m ≫= f).
Proof.
  intros Hm Hf s. unfold mbind, tool_bind. specialize (Hm s).
  destruct (m s) as [s' [a|e]]; simpl in *; subst; [apply Hf | reflexivity].
Qed.

Lemma search_files_keeps (depth : nat) (path pattern : string)
    (exclude_patterns : option (list string)) :
  keeps_state (search_files depth path pattern exclude_patterns).
Proof.
  revert path exclude_patterns.
  induction depth as [|depth IH]; intros path exclude_patterns; simpl.
  - apply keeps_raise.
  - apply keeps_bind; [apply keeps_get|]. intros valid_path.
    apply keeps_bind; [apply IH|]. intros results.
    destruct (negb _); apply keeps_ret.
Qed.

Lemma apply_file_edits_dry_keeps (file_path : string) (edits : list (gmap string string))
    (w : W) :
  (apply_file_edits file_path edits true w).1 = w.
Proof.
  unfold apply_file_edits, mbind, io_bind, io_read, io_pure. simpl.
  destruct (read_file_content w file_path); [|reflexivity].
  destruct (apply_edits _ edits); reflexivity.
Qed.

(** X13. A call that is not meant to change anything (all but [write_file],
    [create_directory], [move_file] and an [edit_file] that is no dry run)
    returns the state it was given: the machine and the allowed
    directories. *)
Theorem read_only_keeps_state (c : tool_call) (s : ServerState W) :
  read_only c = true -> (call_tool c s).1 = s.
Proof.
  intros Hc. revert s. change (keeps_state (call_tool c)).
  destruct c; try discriminate; simpl.
  - unfold read_text_file. destruct (truthy head && truthy tail); [apply keeps_raise|].
    apply keeps_bind; [apply keeps_get|]. intros valid_path.
    destruct (truthy tail); [apply keeps_get|]. destruct (truthy head); apply keeps_get.
  - unfold read_media_file. apply keeps_bind; [apply keeps_get|]. intros valid_path.
    apply keeps_bind; [apply keeps_get|]. intros data. apply keeps_ret.
  - simpl in Hc. subst dry_run. unfold edit_file.
    apply keeps_bind; [apply keeps_get|]. intros valid_path.
    apply keeps_io. apply apply_file_edits_dry_keeps.
  - unfold list_directory. apply keeps_bind; [apply keeps_get|]. intros valid_path.
    apply keeps_bind; [apply keeps_get|]. intros entries. apply keeps_get.
  - unfold list_directory_with_sizes. apply keeps_bind; [apply keeps_get|].
    intros valid_path. apply keeps_bind; [apply keeps_get|]. intros entries.
    apply keeps_get.
  - unfold directory_tree. apply keeps_bind; [apply keeps_get|]. intros valid_path.
    apply keeps_bind; [apply keeps_get|]. intros tree_data. apply keeps_ret.
  - apply search_files_keeps.
  - unfold get_file_info. apply keeps_bind; [apply keeps_get|]. intros valid_path.
    apply keeps_bind; [apply keeps_get|]. intros info. apply keeps_ret.
  - intros s. unfold list_allowed_directories. now destruct (allowed_directories s).
Qed.





(** Allowing more directories refuses no path that was accepted, and
    the path returned is the same. *)
Theorem validate_path_more_roots (s s' : ServerState W) (P V : string) :
  world s' = world s ->
  allowed_directories s ⊆ allowed_directories s' ->
  validate_path s P = Ok V ->
  validate_path s' P = Ok V.
Proof.
  intros Hw Hsub. unfold validate_path. rewrite Hw.
  destruct (normalized_path (world s) P) as [normalized|e]; [| discriminate].
  simpl. rewrite !check_allowed_spec.
  destruct (existsb _ (allowed_directories s)) eqn:Hex; [|discriminate].
  intros [= <-]. apply existsb_exists in Hex as (root & Hin & Hpre).
  replace (existsb _ (allowed_directories s')) with true; [reflexivity|].
  symmetry. apply existsb_exists. exists root. split; [|exact Hpre].
  apply list_elem_of_In, Hsub, list_elem_of_In, Hin.
Qed.

(** [head=0] and [tail=0] count as not given: the tool returns the whole
    file, where [head_file] with no lines returns nothing. *)
Theorem read_text_file_zero (s : ServerState W) (path valid_path : string)
    (tail : option Z) :
  validate_path s path = Ok valid_path ->
  read_text_file path tail (Some 0%Z) s = read_text_file path tail None s
  /\ read_text_file path (Some 0%Z) None s
     = (s, read_file_content (world s) valid_path)
  /\ read_text_file path None (Some 0%Z) s
     = (s, read_file_content (world s) valid_path).
Proof.
  intros Hv. split; [reflexivity|].
  unfold read_text_file, mbind, tool_bind, tool_get. simpl. now rewrite Hv.
Qed.

(** What [main] sets up. *)
Lemma initial_directories_spec (w : W) (args dirs : list string) :
  initial_directories w args = Some dirs ->
  Forall2 (fun directory normalized =>
             exists expanded resolved,
               expand_home w directory = Ok expanded
               /\ os_path_realpath w (os_path_abspath w expanded) = Ok resolved
               /\ normalized = normalize_path resolved
               /\ os_path_isdir w normalized = true) args dirs.
Proof.
  revert dirs. induction args as [|directory args IH]; intros dirs; simpl.
  - intros [= <-]. constructor.
  - destruct (expand_home w directory) as [expanded|e] eqn:He; [|discriminate].
    destruct (os_path_realpath _ _) as [resolved|e] eqn:Hr; [|discriminate].
    destruct (os_path_isdir w (normalize_path resolved)) eqn:Hd; [|discriminate]. simpl.
    destruct (initial_directories w args) as [initial_dirs|]; [|discriminate]. simpl.
    intros [= <-]. constructor; [|now apply IH].
    exists expanded, resolved. now rewrite Hr.
Qed.

(** X26. When [main] starts the server it has been given at least one
    directory, it has left the machine as it was, and the allowed directories
    are, in the order of the arguments, their resolved and normalized paths,
    each an existing directory. *)
Theorem main_serving (args : list string) (s s' : ServerState W) :
  main args s = Serving s' ->
  args <> []
  /\ world s' = world s
  /\ Forall2 (fun directory normalized =>
                exists expanded resolved,
                  expand_home (world s) directory = Ok expanded
                  /\ os_path_realpath (world s) (os_path_abspath (world s) expanded)
                     = Ok resolved
                  /\ normalized = normalize_path resolved
                  /\ os_path_isdir (world s) normalized = true)
             args (allowed_directories s').
Proof.
  unfold main. destruct args as [|directory args]; [discriminate|].
  destruct (initial_directories _ _) as [dirs|] eqn:Hd; [|discriminate].
  intros [= <-]. split; [discriminate|]. split; [reflexivity|].
  now apply initial_directories_spec.
Qed.

End tools.


(** ** Files on the POSIX machine *)

(** *** UTF-8 *)

Lemma utf8_round_trip (text : string) : utf8_decode (utf8_encode text) = Ok text.
Proof.
  induction text as [|c text IH]; [reflexivity|].
  cbn [utf8_encode]. pose proof (nat_ascii_bounded c) as Hb.
  destruct (nat_of_ascii c <? 128)%nat eqn:Hc.
  - cbn [utf8_decode]. rewrite Hc, IH. reflexivity.
  - apply Nat.ltb_ge in Hc. cbn [utf8_decode].
    pose proof (Nat.div_mod_eq (nat_of_ascii c) 64) as Hdm.
    pose proof (Nat.mod_upper_bound (nat_of_ascii c) 64 ltac:(lia)) as Hr.
    set (q := (nat_of_ascii c / 64)%nat) in *.
    set (r := (nat_of_ascii c mod 64)%nat) in *.
    assert (q = 2 \/ q = 3)%nat as Hq by lia.
    rewrite !nat_ascii_embedding by lia.
    replace (192 + q <? 128)%nat with false by (symmetry; apply Nat.ltb_ge; lia).
    replace ((192 + q =? 194)%nat || (192 + q =? 195)%nat) with true
      by (destruct Hq as [-> | ->]; reflexivity).
    replace (128 <=? 128 + r)%nat with true by (symmetry; apply Nat.leb_le; lia).
    replace (128 + r <? 192)%nat with true by (symmetry; apply Nat.ltb_lt; lia).
    simpl andb. cbv iota. rewrite IH. cbn [mbind result_bind]. do 2 f_equal.
    rewrite <- (ascii_nat_embedding c). f_equal. lia.
Qed.

(** *** Machines with the same symlinks *)

Lemma same_links_refl w : same_links w w.
Proof. unfold same_links. now repeat split. Qed.

Lemma same_links_trans w1 w2 w3 : same_links w1 w2 -> same_links w2 w3 -> same_links w1 w3.
Proof.
  intros (A1 & A2 & A3 & A4 & A5 & A6) (B1 & B2 & B3 & B4 & B5 & B6).
  unfold same_links. repeat split; try congruence.
  - intros Hp. now apply B6, A6.
  - intros Hp. now apply A6, B6.
Qed.

Lemma same_links_insert w k n :
  is_symlink n = false -> (forall t, fs w !! k <> Some (Symlink t)) ->
  same_links w (with_fs w (<[k := n]> (fs w))).
Proof.
  intros Hn Hk. unfold same_links. simpl. repeat split; try reflexivity.
  - intros Hp. rewrite lookup_insert. case_decide as E; [|exact Hp].
    subst p. now destruct (Hk t).
  - rewrite lookup_insert. case_decide as E; [|done].
    intros [= ->]. discriminate.
Qed.

Lemma lstat_missing w p msg : lstat w p = Raise (OSError msg) -> fs w !! p = None.
Proof.
  unfold lstat. destruct (str.has_char NUL p); [discriminate|].
  destruct (String.eqb p "/"); [discriminate|].
  now destruct (fs w !! p).
Qed.

Lemma lstat_file w p data : lstat w p = Ok (File data) -> fs w !! p = Some (File data).
Proof.
  unfold lstat. destruct (str.has_char NUL p); [discriminate|].
  destruct (String.eqb p "/"); [discriminate|].
  destruct (fs w !! p); [|discriminate]. now intros [= ->].
Qed.

Lemma symlinks_same w w' : same_links w w' -> posixpath.symlinks w' = posixpath.symlinks w.
Proof.
  intros (_ & _ & _ & _ & _ & Hl). unfold posixpath.symlinks. apply map_eq. intros k.
  rewrite !map_lookup_filter.
  destruct (fs w !! k) as [[| |t]|] eqn:E; destruct (fs w' !! k) as [[| |t']|] eqn:E';
    simpl; try reflexivity;
    try (apply Hl in E; congruence); try (apply Hl in E'; congruence).
Qed.

Lemma link_view_same w w' p : same_links w w' -> link_view w p = link_view w' p.
Proof.
  intros (_ & _ & _ & _ & _ & Hl). unfold link_view, lstat.
  destruct (str.has_char NUL p); [reflexivity|].
  destruct (String.eqb p "/"); [reflexivity|].
  destruct (fs w !! p) as [[| |t]|] eqn:E; destruct (fs w' !! p) as [[| |t']|] eqn:E';
    simpl; try reflexivity;
    try (apply Hl in E; congruence); try (apply Hl in E'; congruence).
Qed.

(** Resolving without [strict] depends on the symlinks only. *)
Lemma walk_same_links rec rec' w w' :
  same_links w w' ->
  (forall path rest seen, rec path rest seen = rec' path rest seen) ->
  forall names path seen,
    posixpath.walk rec w false path names seen
    = posixpath.walk rec' w' false path names seen.
Proof.
  intros Hs Hrec. induction names as [|name rest IH]; intros path seen; [reflexivity|].
  rewrite !walk_cons.
  destruct (String.eqb name "" || String.eqb name "."); [apply IH|].
  destruct (String.eqb name ".."); [apply IH|]. cbv zeta.
  pose proof (link_view_same w w' (posixpath.join path name) Hs) as Hv.
  unfold link_view in Hv.
  destruct (lstat w (posixpath.join path name)) as [[| |t]|e];
    destruct (lstat w' (posixpath.join path name)) as [[| |t']|e'];
    try destruct (is_OSError e) eqn:He; try destruct (is_OSError e') eqn:He';
    simpl in Hv |- *; try discriminate; try apply IH.
  - injection Hv as <-.
    destruct (seen !! posixpath.join path name) as [[p|]|]; [apply IH | reflexivity |].
    rewrite Hrec. destruct (rec' _ _ _) as [[[p [|]] seen1]|]; [apply IH | reflexivity..].
  - injection Hv as <-. reflexivity.
Qed.

Lemma joinrealpath_same_links w w' depth :
  same_links w w' ->
  forall path rest seen,
    posixpath.joinrealpath depth w false path rest seen
    = posixpath.joinrealpath depth w' false path rest seen.
Proof.
  intros Hs. induction depth as [|depth IH]; intros path rest seen; [reflexivity|].
  simpl. destruct (posixpath.isabs rest); now apply walk_same_links.
Qed.

Lemma realpath_same_links w w' p :
  same_links w w' -> posixpath.realpath w' false p = posixpath.realpath w false p.
Proof.
  intros Hs. unfold posixpath.realpath.
  pose proof Hs as (Hc & _ & _ & _ & Hn & _).
  rewrite Hn, <- (joinrealpath_same_links _ _ _ Hs).
  destruct (posixpath.joinrealpath _ w false "" p ∅) as [[[path ok] seen]|]; [|reflexivity].
  simpl. unfold posixpath.abspath. now rewrite Hc.
Qed.

Lemma expanduser_same_links w w' P :
  same_links w w' -> posixpath.expanduser w' P = posixpath.expanduser w P.
Proof.
  intros (_ & Hh & Hu & Hd & _).
  unfold posixpath.expanduser, posixpath.getpwnam_dir. now rewrite Hh, Hu, Hd.
Qed.

Lemma normalized_path_same_links (w w' : posix) P :
  same_links w w' -> normalized_path w' P = normalized_path w P.
Proof.
  intros Hs. unfold normalized_path, expand_home. simpl.
  rewrite (expanduser_same_links _ _ _ Hs).
  destruct (posixpath.expanduser w P) as [expanded|e]; [| reflexivity]. simpl.
  assert (posixpath.abspath w' expanded = posixpath.abspath w expanded) as ->.
  { destruct Hs as (Hc & _). unfold posixpath.abspath. now rewrite Hc. }
  now rewrite (realpath_same_links _ _ _ Hs).
Qed.

(** What [validate_path] answers depends on the symlinks only. *)
Lemma validate_path_same_links (s s' : ServerState posix) P :
  same_links (world s) (world s') ->
  allowed_directories s' = allowed_directories s ->
  validate_path s' P = validate_path s P.
Proof.
  intros Hs Ha. unfold validate_path.
  now rewrite Ha, (normalized_path_same_links _ _ _ Hs).
Qed.

Lemma not_link_same w w' p : same_links w w' -> not_link w p -> not_link w' p.
Proof.
  intros Hs. pose proof (link_view_same w w' p Hs) as Hv. unfold link_view, not_link in *.
  destruct (lstat w p) as [[| |t]|e]; destruct (lstat w' p) as [[| |t']|e'];
    try destruct (is_OSError e) eqn:He; try destruct (is_OSError e') eqn:He';
    simpl in *; try done.
Qed.

Lemma real_same_links w w' cs : same_links w w' -> real w cs -> real w' cs.
Proof.
  intros Hs. induction 1 as [|cs c _ IH Hc Hl]; constructor; eauto using not_link_same.
Qed.

(** *** What the writing calls change *)

Lemma mkdir_same_links path w : same_links w (mkdir path w).1.
Proof.
  unfold mkdir. destruct (parent_and_name w path) as [[d name]|e]; [|apply same_links_refl].
  destruct (lstat w (posixpath.join d name)) as [n|[]] eqn:El; try apply same_links_refl.
  simpl. apply same_links_insert; [reflexivity|].
  intros t. now rewrite (lstat_missing _ _ _ El).
Qed.

Lemma makedirs_same_links fuel : forall name w, same_links w (makedirs fuel name w).1.
Proof.
  induction fuel as [|fuel IH]; intros name w; [apply same_links_refl|].
  simpl. destruct (posixpath.split name) as [head tail].
  destruct (if String.eqb tail "" then posixpath.split head else (head, tail))
    as [head' tail'].
  destruct (negb (String.eqb head' "") && negb (String.eqb tail' "")
            && negb (exists_ w head')).
  - pose proof (IH head' w) as H1. destruct (makedirs fuel head' w) as [w1 r1]. simpl in H1.
    destruct (String.eqb tail' posixpath.curdir); [exact H1|].
    pose proof (mkdir_same_links name w1) as H2.
    destruct (mkdir name w1) as [w2 [[]|[]]]; simpl in *;
      try destruct (isdir w2 name); eauto using same_links_trans.
  - pose proof (mkdir_same_links name w) as H2.
    destruct (mkdir name w) as [w2 [[]|[]]]; simpl in *;
      try destruct (isdir w2 name); eauto using same_links_trans.
Qed.

Lemma open_write_at_same_links links : forall path content w,
  same_links w (open_write_at links path content w).1.
Proof.
  induction links as [|links IH]; intros path content w; simpl;
    (destruct (_ || _); [apply same_links_refl |]);
    (destruct (namei w path) as [r|[]]; try apply same_links_refl;
     [ destruct (lstat w r) as [[| data |t]|e] eqn:El; try apply same_links_refl;
       simpl; apply same_links_insert; [reflexivity |];
       intros t; now rewrite (lstat_file _ _ _ El)
     | destruct (parent_and_name w path) as [[d name]|e]; [| apply same_links_refl];
       destruct (lstat w (posixpath.join d name)) as [[| data |t]|[]] eqn:El;
       try apply same_links_refl; try apply IH;
       simpl; apply same_links_insert; [reflexivity |];
       intros t; now rewrite (lstat_missing _ _ _ El) ]).
Qed.

Lemma open_write_same_links path content w :
  same_links w (posix_open_write path content w).1.
Proof. apply open_write_at_same_links. Qed.

Lemma write_file_content_same_links path content (w : posix) :
  same_links w (write_file_content path content w).1.
Proof.
  unfold write_file_content, mbind, io_bind. simpl.
  pose proof (makedirs_same_links (S (String.length (posixpath.dirname path)))
                (posixpath.dirname path) w) as H1.
  unfold posix_makedirs.
  destruct (makedirs _ _ w) as [w1 [[]|e]]; [|exact H1].
  eapply same_links_trans; [exact H1 | apply open_write_same_links].
Qed.

(** *** Paths whose components exist *)

Lemma existing_real w cs : existing w cs -> real w cs.
Proof.
  induction 1 as [|cs c n _ IH Hc Hl Hn]; constructor; auto.
  unfold not_link. rewrite Hl. now destruct n.
Qed.

Lemma existing_snoc_inv w cs c :
  existing w (cs ++ [c]) ->
  existing w cs /\ plain c
  /\ exists n, lstat w (render (cs ++ [c])) = Ok n /\ is_symlink n = false.
Proof.
  inversion 1 as [E | cs' c' n Hr Hp Hl Hn E].
  - now destruct cs.
  - apply app_inj_tail in E as [-> ->]. eauto.
Qed.

Lemma existing_app_l w a b : existing w (a ++ b) -> existing w a.
Proof.
  induction b as [|x b IH] using rev_ind.
  - now rewrite app_nil_r.
  - rewrite app_assoc. intros (H & _ & _)%existing_snoc_inv. now apply IH.
Qed.

(** Resolving a path whose components exist, [strict] or not, changes
    nothing. *)
Lemma walk_existing rec w strict names : forall cs0 seen,
  existing w (cs0 ++ names) ->
  posixpath.walk rec w strict (render cs0) names seen
  = Ok (render (cs0 ++ names), true, seen).
Proof.
  induction names as [|name rest IH]; intros cs0 seen Hr.
  - now rewrite app_nil_r.
  - rewrite (cons_middle name cs0 rest), app_assoc in Hr.
    pose proof (existing_app_l _ _ _ Hr) as (Hc0 & [Hn Hnul] & n & Hl & Hs)%existing_snoc_inv.
    rewrite walk_cons. destruct (normal_eqb name Hn) as (-> & -> & ->).
    simpl orb. cbv iota zeta.
    destruct Hn as (Hne & _ & _ & Hsep).
    rewrite join_render by (eauto using real_normal, existing_real).
    rewrite (cons_middle name cs0 rest), app_assoc. rewrite Hl.
    destruct n; [now apply IH | now apply IH | discriminate].
Qed.

(** A [strict] walk along a resolved path succeeds only when all its
    components exist. *)
Lemma walk_strict_inv rec w names : forall cs0 seen r ok seen',
  real w (cs0 ++ names) -> existing w cs0 ->
  posixpath.walk rec w true (render cs0) names seen = Ok (r, ok, seen') ->
  r = render (cs0 ++ names) /\ existing w (cs0 ++ names).
Proof.
  induction names as [|name rest IH]; intros cs0 seen r ok seen' Hr He Hw.
  - rewrite app_nil_r. now injection Hw as <- _ _.
  - rewrite (cons_middle name cs0 rest), app_assoc in Hr |- *.
    pose proof (real_app_l _ _ _ Hr) as (Hc0 & [Hn Hnul] & Hl)%real_snoc_inv.
    rewrite walk_cons in Hw. destruct (normal_eqb name Hn) as (E1 & E2 & E3).
    rewrite E1, E2, E3 in Hw. simpl orb in Hw. cbv iota zeta in Hw.
    rewrite join_render in Hw by (destruct Hn as (? & _ & _ & ?); eauto using real_normal).
    unfold not_link in Hl.
    destruct (lstat w (render (cs0 ++ [name]))) as [n|e] eqn:El.
    + assert (is_symlink n = false) as Hs by now destruct n.
      assert (existing w (cs0 ++ [name])) as He' by (econstructor; eauto; now split).
      destruct n; [eapply IH; eauto | eapply IH; eauto | contradiction].
    + rewrite Hl in Hw. discriminate.
Qed.

Lemma join_cwd_render w cs : posixpath.join (cwd w) (render cs) = render cs.
Proof. reflexivity. Qed.

Lemma joinrealpath_normal depth w strict path cs seen :
  Forall normal cs ->
  posixpath.joinrealpath (S depth) w strict path (render cs) seen
  = posixpath.walk (posixpath.joinrealpath depth w strict) w strict "/" cs seen.
Proof.
  intros Hn. simpl. change (str.drop 1 (render cs)) with (str.join "/" cs).
  destruct cs as [|c cs]; [reflexivity|].
  rewrite split_join; [reflexivity | done |].
  eapply Forall_impl; [exact Hn|]. now intros ? (_ & _ & _ & ?).
Qed.

Lemma namei_existing w cs : existing w cs -> namei w (render cs) = Ok (render cs).
Proof.
  intros He. unfold namei. rewrite join_cwd_render.
  rewrite joinrealpath_normal by (eauto using real_normal, existing_real).
  change "/" with (render []). rewrite (walk_existing _ _ _ cs []) by exact He.
  simpl. rewrite abspath_abs by reflexivity.
  now rewrite normpath_render by (eauto using real_normal, existing_real).
Qed.

Lemma namei_real_inv w cs d :
  real w cs -> namei w (render cs) = Ok d -> d = render cs /\ existing w cs.
Proof.
  intros Hr. unfold namei. rewrite join_cwd_render.
  rewrite joinrealpath_normal by (eauto using real_normal).
  change "/" with (render []).
  destruct (posixpath.walk _ w true (render []) cs ∅) as [[[r ok] seen]|e] eqn:Hw;
    [|discriminate].
  apply (walk_strict_inv _ w cs []) in Hw as [-> He]; [|exact Hr|constructor].
  simpl. rewrite abspath_abs by reflexivity.
  rewrite normpath_render by (eauto using real_normal). now intros [= <-].
Qed.

(** *** Reading back what was written *)

Lemma lstat_file_inv w p data :
  lstat w p = Ok (File data) ->
  str.has_char NUL p = false /\ String.eqb p "/" = false /\ fs w !! p = Some (File data).
Proof.
  unfold lstat. destruct (str.has_char NUL p); [discriminate|].
  destruct (String.eqb p "/"); [discriminate|].
  destruct (fs w !! p); [|discriminate]. now intros [= ->].
Qed.

Lemma lstat_missing_inv w p msg :
  lstat w p = Raise (OSError msg) ->
  str.has_char NUL p = false /\ String.eqb p "/" = false /\ fs w !! p = None.
Proof.
  unfold lstat. destruct (str.has_char NUL p); [discriminate|].
  destruct (String.eqb p "/"); [discriminate|].
  now destruct (fs w !! p).
Qed.

Lemma lstat_insert_eq w k n :
  str.has_char NUL k = false -> String.eqb k "/" = false ->
  lstat (with_fs w (<[k := n]> (fs w))) k = Ok n.
Proof. intros Hn Hr. unfold lstat. rewrite Hn, Hr. simpl. now rewrite lookup_insert_eq. Qed.

Lemma lstat_insert_ok w k n p m :
  lstat w p = Ok m -> is_symlink m = false -> is_symlink n = false ->
  exists m', lstat (with_fs w (<[k := n]> (fs w))) p = Ok m' /\ is_symlink m' = false.
Proof.
  unfold lstat. destruct (str.has_char NUL p); [discriminate|].
  destruct (String.eqb p "/"); [eauto|]. simpl.
  rewrite lookup_insert. case_decide; [eauto|].
  destruct (fs w !! p); [|discriminate]. intros [= ->]. eauto.
Qed.

Lemma existing_insert w k n cs :
  is_symlink n = false -> existing w cs -> existing (with_fs w (<[k := n]> (fs w))) cs.
Proof.
  intros Hn. induction 1 as [|cs c m _ IH Hc Hl Hm]; [constructor|].
  destruct (lstat_insert_ok w k n _ _ Hl Hm Hn) as (m' & Hl' & Hm').
  econstructor; eauto.
Qed.

(** The directory and the name of a resolved path, as a call that creates
    an entry takes them. *)
Lemma parent_and_name_render w cs c d name :
  real w (cs ++ [c]) ->
  parent_and_name w (render (cs ++ [c])) = Ok (d, name) ->
  d = render cs /\ name = c /\ existing w cs.
Proof.
  intros Hr. pose proof (real_normal _ _ Hr) as Hn.
  apply real_snoc_inv in Hr as (Hr & [Hc _] & _).
  apply Forall_app in Hn as [Hn _].
  unfold parent_and_name. rewrite join_cwd_render, split_render_snoc by assumption.
  destruct (normal_eqb c Hc) as (E1 & E2 & E3). rewrite E1. cbv beta iota zeta.
  rewrite E1, E2, E3. simpl orb. cbv iota.
  destruct (namei w (render cs)) as [d'|e] eqn:Hd; simpl; [|discriminate].
  apply namei_real_inv in Hd as [-> He]; [|exact Hr].
  destruct (lstat w (render cs)) as [[| |]|]; simpl; try discriminate.
  now intros [= <- <-].
Qed.

Lemma parent_and_name_root w : exists e, parent_and_name w (render []) = Raise e.
Proof. unfold parent_and_name. rewrite join_cwd_render. simpl. eauto. Qed.

Lemma open_write_existing w w' cs content :
  real w cs ->
  posix_open_write (render cs) content w = (w', Ok ()) ->
  existing w' cs /\ lstat w' (render cs) = Ok (File (utf8_encode content)).
Proof.
  intros Hr. unfold posix_open_write.
  assert (Hat : forall links,
             open_write_at links (render cs) content w
             = if String.eqb (posixpath.split (render cs)).2 ""
                  || String.eqb (posixpath.split (render cs)).2 "."
                  || String.eqb (posixpath.split (render cs)).2 ".."
               then (w, Raise (OSError "Is a directory"))
               else
                 match namei w (render cs) with
                 | Ok r =>
                     match lstat w r with
                     | Ok (File _) =>
                         (with_fs w (<[r := File (utf8_encode content)]> (fs w)), Ok ())
                     | Ok _ => (w, Raise (OSError "Is a directory"))
                     | Raise e => (w, Raise e)
                     end
                 | Raise (OSError _) =>
                     match parent_and_name w (render cs) with
                     | Ok (d, name) =>
                         match lstat w (posixpath.join d name) with
                         | Raise (OSError _) =>
                             (with_fs w (<[posixpath.join d name
                                           := File (utf8_encode content)]> (fs w)), Ok ())
                         | Raise e => (w, Raise e)
                         | Ok (Symlink link) =>
                             match links with
                             | S links' =>
                                 open_write_at links' (posixpath.join d link) content w
                             | O => (w, Raise (OSError "Too many levels of symbolic links"))
                             end
                         | Ok _ => (w, Raise (OSError "Not a directory"))
                         end
                     | Raise e => (w, Raise e)
                     end
                 | Raise e => (w, Raise e)
                 end) by (now intros [|links]).
  rewrite Hat. clear Hat.
  destruct (_ || _); [discriminate |].
  destruct (namei w (render cs)) as [r|[]] eqn:Hn; try (intros [= <-]; discriminate).
  - apply namei_real_inv in Hn as [-> He]; [|exact Hr].
    destruct (lstat w (render cs)) as [[| data |t]|e] eqn:El; try discriminate.
    apply lstat_file_inv in El as (Hnul & Hroot & _). intros [= <-].
    split; [now apply existing_insert | now apply lstat_insert_eq].
  - destruct cs as [|c cs _] using rev_ind.
    { destruct (parent_and_name_root w) as [e ->]. discriminate. }
    destruct (parent_and_name w (render (cs ++ [c]))) as [[d name]|e] eqn:Hp;
      [|discriminate].
    pose proof Hr as Hr'.
    apply parent_and_name_render in Hp as (-> & -> & He); [|exact Hr].
    apply real_snoc_inv in Hr' as (_ & Hc & _).
    pose proof Hr as (_ & _ & Hlink)%real_snoc_inv. unfold not_link in Hlink.
    rewrite join_render
      by (destruct Hc as [(? & _ & _ & ?) _]; eauto using real_normal, existing_real).
    destruct (lstat w (render (cs ++ [c]))) as [[| data |link]|[]] eqn:El;
      try discriminate; try contradiction.
    apply lstat_missing_inv in El as (Hnul & Hroot & _). intros [= <-].
    assert (lstat (with_fs w (<[render (cs ++ [c]) := File (utf8_encode content)]> (fs w)))
              (render (cs ++ [c])) = Ok (File (utf8_encode content))) as Hl
      by now apply lstat_insert_eq.
    split; [|exact Hl].
    econstructor; [apply existing_insert; [reflexivity | exact He] | exact Hc | exact Hl
                  | reflexivity].
Qed.

Lemma read_existing_file w cs data :
  existing w cs -> lstat w (render cs) = Ok (File data) ->
  posix_open_read_binary w (render cs) = Ok data.
Proof.
  intros He Hl. unfold posix_open_read_binary, stat_node.
  rewrite namei_existing by exact He. simpl. now rewrite Hl.
Qed.

Lemma read_file_content_encoded (w : posix) p content :
  posix_open_read_binary w p = Ok (utf8_encode content) ->
  read_file_content w p = Ok (str.universal_newlines content).
Proof.
  intros Hb. unfold read_file_content. simpl. unfold posix_open_read. rewrite Hb. simpl.
  now rewrite utf8_round_trip.
Qed.

(** What [write_file_content] has written to a resolved path,
    [read_file_content] reads back, with the line ends that reading in text
    mode gives. *)
Lemma write_file_content_read_back (w w' : posix) (cs : list string)
    (content : string) :
  real w cs ->
  write_file_content (render cs) content w = (w', Ok ()) ->
  read_file_content w' (render cs) = Ok (str.universal_newlines content).
Proof.
  intros Hr. unfold write_file_content, mbind, io_bind. simpl. unfold posix_makedirs.
  pose proof (makedirs_same_links (S (String.length (posixpath.dirname (render cs))))
                (posixpath.dirname (render cs)) w) as Hs.
  destruct (makedirs _ _ w) as [w1 [[]|e]]; [|discriminate]. simpl in Hs.
  intros Hw. apply open_write_existing in Hw as [He Hl]; [|eauto using real_same_links].
  apply read_file_content_encoded. now apply read_existing_file.
Qed.

(** *** What [validate_path] returns *)

Lemma absolute_path_isabs w P :
  posixpath.isabs (cwd w) = true -> posixpath.isabs (absolute_path w P) = true.
Proof. intros Hc. now apply abspath_isabs. Qed.

(** When the path resolves without a symlink loop, [normalized] is the
    resolved path. *)
Lemma normalized_path_resolved (w : posix) P expanded r :
  posixpath.isabs (cwd w) = true ->
  posixpath.expanduser w P = Ok expanded ->
  resolves_to w (absolute_path w P) r ->
  normalized_path w P = Ok r /\ exists cs, r = render cs /\ real w cs.
Proof.
  intros Hc He [seen Hj]. rewrite (normalized_path_posix w P expanded He).
  unfold posixpath.realpath. rewrite Hj. simpl.
  apply joinrealpath_ok_real in Hj as (cs & -> & Hcs); [|now apply absolute_path_isabs].
  rewrite abspath_abs, !normpath_render by (reflexivity || eauto using real_normal).
  eauto.
Qed.

Lemma validate_path_real_inv (s : ServerState posix) (P V r : string) :
  posixpath.isabs (cwd (world s)) = true ->
  resolves_to (world s) (absolute_path (world s) P) r ->
  validate_path s P = Ok V ->
  V = r /\ exists cs, V = render cs /\ real (world s) cs.
Proof.
  intros Hc Hres Hv. destruct (validate_path_expanded _ _ _ Hv) as [expanded He].
  destruct (normalized_path_resolved _ _ _ _ Hc He Hres) as (Hn & cs & -> & Hr).
  apply validate_path_ok in Hv as [Hv _]. rewrite Hn in Hv. injection Hv as <-. eauto.
Qed.



(** *** Creating directories *)

Lemma existing_lstat w cs :
  existing w cs -> exists n, lstat w (render cs) = Ok n /\ is_symlink n = false.
Proof. destruct 1 as [|cs c n _ _ Hl Hn]; [now exists Dir | eauto]. Qed.

Lemma isdir_existing w cs :
  existing w cs -> lstat w (render cs) = Ok Dir -> isdir w (render cs) = true.
Proof.
  intros He Hl. unfold isdir, stat_node. rewrite namei_existing by exact He.
  simpl. now rewrite Hl.
Qed.

Lemma isdir_real_inv w cs :
  real w cs -> isdir w (render cs) = true ->
  existing w cs /\ lstat w (render cs) = Ok Dir.
Proof.
  intros Hr. unfold isdir, stat_node.
  destruct (namei w (render cs)) as [d|e] eqn:Hn; [|discriminate].
  apply namei_real_inv in Hn as [-> He]; [|exact Hr]. simpl.
  destruct (lstat w (render cs)) as [[| |]|]; try discriminate. auto.
Qed.

Lemma mkdir_ok w w' cs c :
  real w (cs ++ [c]) ->
  mkdir (render (cs ++ [c])) w = (w', Ok ()) ->
  existing w' (cs ++ [c]) /\ lstat w' (render (cs ++ [c])) = Ok Dir.
Proof.
  intros Hr. unfold mkdir.
  destruct (parent_and_name w (render (cs ++ [c]))) as [[d name]|e] eqn:Hp; [|discriminate].
  pose proof Hr as Hr'.
  apply parent_and_name_render in Hp as (-> & -> & He); [|exact Hr].
  apply real_snoc_inv in Hr' as (_ & Hc & _).
  rewrite join_render
    by (destruct Hc as [(? & _ & _ & ?) _]; eauto using real_normal, existing_real).
  destruct (lstat w (render (cs ++ [c]))) as [n|[]] eqn:El; try discriminate.
  apply lstat_missing_inv in El as (Hnul & Hroot & _). intros [= <-].
  assert (lstat (with_fs w (<[render (cs ++ [c]) := Dir]> (fs w))) (render (cs ++ [c]))
          = Ok Dir) as Hl by now apply lstat_insert_eq.
  split; [|exact Hl].
  econstructor; [apply existing_insert; [reflexivity | exact He] | exact Hc | exact Hl
                | reflexivity].
Qed.

Lemma mkdir_raise_world path w w' e : mkdir path w = (w', Raise e) -> w' = w.
Proof.
  unfold mkdir. destruct (parent_and_name w path) as [[d name]|e0]; [|now intros [= <-]].
  destruct (lstat w (posixpath.join d name)) as [n|[]]; now intros [= <-].
Qed.

(** The last step of [os.makedirs]: [mkdir], an [OSError] being let pass
    when the directory is there. *)
Lemma mkdir_exist_ok w w' cs c :
  real w (cs ++ [c]) ->
  match mkdir (render (cs ++ [c])) w with
  | (w2, Raise (OSError msg)) =>
      if isdir w2 (render (cs ++ [c])) then (w2, Ok ()) else (w2, Raise (OSError msg))
  | r => r
  end = (w', Ok ()) ->
  isdir w' (render (cs ++ [c])) = true.
Proof.
  intros Hr. destruct (mkdir (render (cs ++ [c])) w) as [w2 [[]|e]] eqn:Hm.
  - intros [= <-]. apply mkdir_ok in Hm as [He Hl]; [|exact Hr].
    now apply isdir_existing.
  - destruct e; try discriminate.
    destruct (isdir w2 (render (cs ++ [c]))) eqn:Hd; [|discriminate].
    now intros [= <-].
Qed.

(** When [os.makedirs] has returned, the directory is there. *)
Lemma makedirs_isdir fuel w w' cs :
  real w cs ->
  makedirs (S fuel) (render cs) w = (w', Ok ()) ->
  isdir w' (render cs) = true.
Proof.
  intros Hr. destruct cs as [|c cs _] using rev_ind.
  { intros _. apply (isdir_existing w' []); [constructor | reflexivity]. }
  pose proof (real_normal _ _ Hr) as Hn. apply Forall_app in Hn as [Hn _].
  pose proof Hr as (_ & [Hc _] & _)%real_snoc_inv.
  cbn [makedirs]. rewrite split_render_snoc by assumption.
  destruct (normal_eqb c Hc) as (E1 & E2 & E3). rewrite E1. cbv beta iota zeta.
  destruct (negb (String.eqb (render cs) "") && negb (String.eqb c "")
            && negb (exists_ w (render cs))).
  - pose proof (makedirs_same_links fuel (render cs) w) as Hs.
    destruct (makedirs fuel (render cs) w) as [w1 r1]. simpl in Hs.
    change posixpath.curdir with ".". rewrite E2.
    apply mkdir_exist_ok. eauto using real_same_links.
  - now apply mkdir_exist_ok.
Qed.

Lemma mkdir_root w : exists msg, mkdir "/" w = (w, Raise (OSError msg)).
Proof. unfold mkdir, parent_and_name. simpl. eauto. Qed.

(** [os.makedirs] of a directory that is there changes nothing. *)
Lemma makedirs_again fuel w cs :
  real w cs -> isdir w (render cs) = true ->
  makedirs (S fuel) (render cs) w = (w, Ok ()).
Proof.
  intros Hr Hd. pose proof Hd as Hd'. apply isdir_real_inv in Hd' as [He Hl]; [|exact Hr].
  destruct cs as [|c cs _] using rev_ind.
  { destruct (mkdir_root w) as [msg Hm]. change (render []) with "/" in *.
    cbn [makedirs]. rewrite split_root. change (String.eqb "" "") with true.
    cbv iota. rewrite split_root. cbv beta iota zeta.
    change (String.eqb "/" "") with false. simpl negb. simpl andb. cbv iota.
    now rewrite Hm, Hd. }
  pose proof (real_normal _ _ Hr) as Hn. apply Forall_app in Hn as [Hn _].
  pose proof Hr as (_ & [Hc _] & _)%real_snoc_inv.
  cbn [makedirs]. rewrite split_render_snoc by assumption.
  destruct (normal_eqb c Hc) as (E1 & E2 & E3). rewrite E1.
  assert (exists_ w (render cs) = true) as ->.
  { unfold exists_, stat_node. apply existing_app_l in He.
    rewrite namei_existing by exact He. simpl.
    now destruct (existing_lstat _ _ He) as (n & -> & _). }
  rewrite andb_false_r.
  assert (exists msg, mkdir (render (cs ++ [c])) w = (w, Raise (OSError msg))) as [msg ->].
  { unfold mkdir, parent_and_name.
    rewrite join_cwd_render, split_render_snoc by assumption. rewrite E1.
    cbv beta iota zeta. rewrite E1, E2, E3. simpl orb. cbv iota.
    rewrite namei_existing by (eapply existing_app_l; exact He). simpl.
    destruct (lstat w (render cs)) as [[| |]|] eqn:El'; simpl; eauto.
    - rewrite join_render by (destruct Hc as (? & _ & _ & ?); auto).
      rewrite Hl. eauto.
    - apply existing_app_l, existing_lstat in He as (n & Hl' & _). congruence. }
  now rewrite Hd.
Qed.

(** X16. [create_directory] makes the directory, and calling it again
    succeeds and changes nothing. *)
Theorem create_directory_idempotent (s s' : ServerState posix) (P msg r : string) :
  posixpath.isabs (cwd (world s)) = true ->
  resolves_to (world s) (absolute_path (world s) P) r ->
  create_directory P s = (s', Ok msg) ->
  validate_path s P = Ok r
  /\ isdir (world s') r = true
  /\ create_directory P s' = (s', Ok msg).
Proof.
  intros Hc Hres. unfold create_directory, mbind, tool_bind, tool_get, tool_io.
  destruct (validate_path s P) as [V|e] eqn:Hv; [|discriminate].
  destruct (validate_path_real_inv _ _ _ _ Hc Hres Hv) as (-> & cs & -> & Hr).
  simpl os_makedirs. unfold posix_makedirs.
  pose proof (makedirs_same_links (S (String.length (render cs))) (render cs) (world s))
    as Hs.
  destruct (makedirs _ (render cs) (world s)) as [w' [[]|e]] eqn:Hm; [|discriminate].
  simpl in Hs. intros [= <- <-]. split; [reflexivity|].
  pose proof (makedirs_isdir _ _ _ _ Hr Hm) as Hd. split; [exact Hd|].
  rewrite (validate_path_same_links
             s {| allowed_directories := allowed_directories s; world := w' |} P Hs eq_refl).
  rewrite Hv. cbn [world allowed_directories]. change (os_makedirs (render cs) w')
    with (makedirs (S (String.length (render cs))) (render cs) w').
  rewrite makedirs_again by (eauto using real_same_links). reflexivity.
Qed.

(** *** Editing, then reading *)

Lemma read_text_file_plain `{OS W} (P : string) (s : ServerState W) :
  read_text_file P None None s
  = match validate_path s P with
    | Ok V => (s, read_file_content (world s) V)
    | Raise e => (s, Raise e)
    end.
Proof. reflexivity. Qed.

(** X5. An [edit_file] that is no dry run writes the edited text: the file
    then holds its UTF-8 encoding, and [read_text_file] returns it. *)
Theorem edit_file_read_back (s s' : ServerState posix) (P diff r : string)
    (edits : list (gmap string string)) :
  posixpath.isabs (cwd (world s)) = true ->
  resolves_to (world s) (absolute_path (world s) P) r ->
  edit_file P edits false s = (s', Ok diff) ->
  exists content new_content,
    read_text_file P None None s = (s, Ok content)
    /\ apply_edits content edits = Ok new_content
    /\ posix_open_read_binary (world s') r = Ok (utf8_encode new_content)
    /\ read_text_file P None None s'
       = (s', Ok (str.universal_newlines new_content)).
Proof.
  intros Hc Hres He. unfold edit_file, mbind, tool_bind, tool_get in He.
  destruct (validate_path s P) as [V|e] eqn:Hv; [|discriminate He].
  destruct (validate_path_real_inv _ _ _ _ Hc Hres Hv) as (-> & cs & -> & Hr).
  unfold tool_io in He.
  destruct (apply_file_edits (render cs) edits false (world s)) as [w' res] eqn:Ha.
  injection He as <- ->.
  unfold apply_file_edits, mbind, io_bind, io_read, io_pure in Ha. cbv beta in Ha.
  destruct (read_file_content (world s) (render cs)) as [content|e] eqn:Hread;
    cbv beta iota in Ha; [|congruence].
  destruct (apply_edits content edits) as [new_content|e] eqn:Hedit;
    cbv beta iota in Ha; [|congruence].
  change (negb false) with true in Ha. cbv beta iota in Ha.
  pose proof (write_file_content_same_links (render cs) new_content (world s)) as Hs.
  destruct (write_file_content (render cs) new_content (world s)) as [w1 [[]|e]] eqn:Hw;
    cbv beta iota in Ha; [|congruence].
  simpl in Hs. injection Ha as <- _. exists content, new_content.
  rewrite !read_text_file_plain.
  rewrite (validate_path_same_links
             s {| allowed_directories := allowed_directories s; world := w1 |} P Hs eq_refl).
  rewrite Hv. cbn [world]. rewrite Hread.
  split; [reflexivity|]. split; [exact Hedit|]. split.
  - revert Hw. unfold write_file_content, mbind, io_bind. simpl. unfold posix_makedirs.
    pose proof (makedirs_same_links (S (String.length (posixpath.dirname (render cs))))
                  (posixpath.dirname (render cs)) (world s)) as Hs1.
    destruct (makedirs _ _ (world s)) as [w2 [[]|e]]; [|discriminate]. simpl in Hs1.
    intros Hw. apply open_write_existing in Hw as [He Hl]; [|eauto using real_same_links].
    now apply read_existing_file.
  - now rewrite (write_file_content_read_back _ _ _ _ Hr Hw).
Qed.

(** *** Symlinks *)

Lemma symlinks_nonempty w p t :
  fs w !! p = Some (Symlink t) -> exists n, size (posixpath.symlinks w) = S n.
Proof.
  intros Hp. destruct (size (posixpath.symlinks w)) as [|n] eqn:Hn; [|eauto].
  apply map_size_empty_iff in Hn.
  assert (posixpath.symlinks w !! p = Some (Symlink t)) as Hl.
  { unfold posixpath.symlinks. rewrite map_lookup_filter, Hp. reflexivity. }
  rewrite Hn, lookup_empty in Hl. discriminate.
Qed.



(** *** The prefix test *)

Lemma join_extend sep cs c x ds :
  exists rest, str.join sep (cs ++ (c +:+ x) :: ds) = str.join sep (cs ++ [c]) +:+ rest.
Proof.
  induction cs as [|d cs [rest IH]].
  - destruct ds as [|e ds]; simpl.
    + exists x. reflexivity.
    + exists (x +:+ sep +:+ str.join sep (e :: ds)). now rewrite append_assoc.
  - exists rest. rewrite <- !app_comm_cons.
    rewrite !join_cons by (now destruct cs). rewrite IH. now rewrite !append_assoc.
Qed.

(** X4. The test is a prefix test on the text of the path: an allowed
    directory lets in every resolved path that goes on from a sibling whose
    name begins with the directory's. *)
Theorem validate_path_sibling (s : ServerState posix) (cs ds : list string)
    (c x : string) :
  real (world s) (cs ++ (c +:+ x) :: ds) ->
  render (cs ++ [c]) ∈ allowed_directories s ->
  validate_path s (render (cs ++ (c +:+ x) :: ds)) = Ok (render (cs ++ (c +:+ x) :: ds)).
Proof.
  intros Hr Hin. apply (validate_path_real s _ (render (cs ++ [c]))); [exact Hr | exact Hin|].
  apply startswith_spec. destruct (join_extend "/" cs c x ds) as [rest Hrest].
  exists rest. unfold render. rewrite Hrest. now rewrite append_assoc.
Qed.

(** *** The form of a validated path *)

(** X9. A path that [validate_path] returns is absolute and normalized: one
    or two slashes, then components none of which is empty, [.] or [..]. *)
Theorem validate_path_normalized (s : ServerState posix) (P V : string) :
  posixpath.isabs (cwd (world s)) = true ->
  validate_path s P = Ok V ->
  exists k cs, (k = 1 \/ k = 2)%nat /\ Forall normal cs
               /\ V = slashes k +:+ str.join "/" cs.
Proof.
  intros Hc Hv. destruct (validate_path_expanded _ _ _ Hv) as [expanded He].
  apply validate_path_ok in Hv as [Hv _].
  rewrite (normalized_path_posix _ P expanded He) in Hv. injection Hv as <-.
  unfold posixpath.realpath.
  destruct (posixpath.joinrealpath _ _ false "" _ ∅) as [[[path ok] seen]|e]; simpl.
  - apply normpath_abs_form. now apply abspath_isabs.
  - apply normpath_abs_form. now apply absolute_path_isabs.
Qed.

(** *** Reading text *)

Lemma utf8_decode_ascii data : is_ascii data = true -> utf8_decode data = Ok data.
Proof.
  induction data as [|c data IH]; [reflexivity|]. simpl.
  intros [Hc Hd]%andb_true_iff. now rewrite Hc, IH.
Qed.

Lemma utf8_decode_cons b rest :
  utf8_decode (String b rest)
  = let n := nat_of_ascii b in
    if (n <? 128)%nat then s ← utf8_decode rest; Ok (String b s)
    else
      match rest with
      | String b2 rest' =>
          let m := nat_of_ascii b2 in
          if ((n =? 194)%nat || (n =? 195)%nat) && (128 <=? m)%nat && (m <? 192)%nat
          then s ← utf8_decode rest';
               Ok (String (ascii_of_nat ((n - 192) * 64 + (m - 128))) s)
          else Raise UnicodeDecodeError
      | "" => Raise UnicodeDecodeError
      end.
Proof. reflexivity. Qed.

Lemma utf8_decode_raise data e : utf8_decode data = Raise e -> e = UnicodeDecodeError.
Proof.
  enough ((forall e, utf8_decode data = Raise e -> e = UnicodeDecodeError)
          /\ (forall c e, utf8_decode (String c data) = Raise e -> e = UnicodeDecodeError))
    as [H _] by (apply H).
  clear e. induction data as [|c2 data [IH1 IH2]].
  - split; [discriminate|]. intros c e. simpl.
    destruct (nat_of_ascii c <? 128)%nat; simpl; [discriminate | now intros [= <-]].
  - split; [apply IH2|]. intros c e. rewrite utf8_decode_cons. cbv zeta.
    destruct (nat_of_ascii c <? 128)%nat.
    + destruct (utf8_decode (String c2 data)) as [t|e'] eqn:Hd; simpl; [discriminate|].
      intros [= <-]. now apply (IH2 c2).
    + destruct (_ && _); [|now intros [= <-]].
      destruct (utf8_decode data) as [t|e'] eqn:Hd; simpl; [discriminate|].
      intros [= <-]. now apply IH1.
Qed.

(** X17. Whatever bytes a file holds, [read_file_content] returns a text: no
    decoding error gets out. ASCII bytes are returned as they are, the line
    ends as text mode gives them. *)
Theorem read_file_content_decodes (w : posix) (file_path data : string) :
  posix_open_read_binary w file_path = Ok data ->
  (exists text, read_file_content w file_path = Ok text)
  /\ (is_ascii data = true ->
      read_file_content w file_path = Ok (str.universal_newlines data)).
Proof.
  intros Hb. unfold read_file_content. simpl. unfold posix_open_read. rewrite Hb. simpl.
  split.
  - destruct (utf8_decode data) as [text|e] eqn:Hd; simpl; [eauto|].
    apply utf8_decode_raise in Hd as ->. eauto.
  - intros Ha. now rewrite utf8_decode_ascii.
Qed.

(** X8. A validated path need not lead into an allowed directory. Where
    resolving gave up on a symlink loop, what is left of the path is
    normalized as text, and the result can be a symlink that leads out:
    with ["/data"] allowed, ["/data/l"] validates to ["/data/m"], which the
    system calls follow to ["/etc/passwd"]. *)
Theorem validate_path_not_confined :
  ~ (forall (s : ServerState posix) (P V d : string),
        validate_path s P = Ok V -> namei (world s) V = Ok d ->
        exists root, root ∈ allowed_directories s /\ str.startswith d root = true).
Proof.
  intros H.
  destruct (H {| allowed_directories := ["/data"]; world := loop_escape |}
              "/data/l" "/data/m" "/etc/passwd"
              ltac:(vm_compute; reflexivity) ltac:(vm_compute; reflexivity))
    as (root & Hin & Hpre).
  apply list_elem_of_singleton in Hin as ->. vm_compute in Hpre. discriminate.
Qed.

(** *** The allowed directories [main] sets *)

(** X27. The directories [main] allows are directories, and each validates
    to itself. *)
Theorem main_roots_valid (args : list string) (s s' : ServerState posix) :
  posixpath.isabs (cwd (world s)) = true ->
  Forall (fun directory =>
            exists r, resolves_to (world s) (absolute_path (world s) directory) r) args ->
  main args s = Serving s' ->
  Forall (fun root => isdir (world s') root = true /\ validate_path s' root = Ok root)
         (allowed_directories s').
Proof.
  intros Hc Hres Hm. unfold main in Hm. destruct args as [|a args]; [discriminate|].
  destruct (initial_directories (world s) (a :: args)) as [dirs|] eqn:Hd; [|discriminate].
  injection Hm as <-. simpl.
  assert (Forall (fun root => isdir (world s) root = true
                              /\ exists cs, root = render cs /\ real (world s) cs) dirs)
    as Hdirs.
  { clear -Hc Hres Hd. revert Hres dirs Hd. generalize (a :: args) as l.
    induction l as [|x l IH]; intros Hres dirs; simpl.
    - intros [= <-]. constructor.
    - apply Forall_cons in Hres as [[r Hr] Hres].
      unfold expand_home. simpl os_path_expanduser.
      destruct (posixpath.expanduser (world s) x) as [expanded|e] eqn:He; [|discriminate].
      destruct (normalized_path_resolved _ _ _ _ Hc He Hr) as (Hn & cs & -> & Hcs).
      rewrite (normalized_path_posix _ _ _ He) in Hn. injection Hn as Hn.
      assert (absolute_path (world s) x = posixpath.abspath (world s) expanded) as Ha
        by (unfold absolute_path; now rewrite He).
      rewrite Ha in Hn, Hr. simpl os_path_abspath. simpl os_path_realpath.
      destruct (posixpath.realpath (world s) false (posixpath.abspath (world s) expanded))
        as [resolved|e] eqn:Hreal.
      + change (normalize_path resolved) with (posixpath.normpath resolved). rewrite Hn.
        destruct (isdir (world s) (render cs)) eqn:Hdir; [|discriminate]. simpl.
        destruct (initial_directories (world s) l) as [ds|] eqn:Hl; [|discriminate].
        simpl. intros [= <-]. constructor; [eauto | now apply IH].
      + destruct Hr as [seen Hj]. unfold posixpath.realpath in Hreal.
        rewrite Hj in Hreal. discriminate. }
  apply Forall_forall. intros root Hin. rewrite Forall_forall in Hdirs.
  destruct (Hdirs root Hin) as (Hdir & cs & -> & Hcs). split; [exact Hdir|].
  apply (validate_path_real _ cs (render cs)); [exact Hcs | exact Hin | apply startswith_refl].
Qed.

(** ** A text compared with itself *)

Lemma filter_ext_in {A} (P Q : A -> Prop) `{forall x, Decision (P x)}
    `{forall x, Decision (Q x)} (l : list A) :
  (forall x, x ∈ l -> P x <-> Q x) -> filter P l = filter Q l.
Proof.
  induction l as [|x l IH]; intros Hpq; [reflexivity|].
  rewrite !filter_cons.
  assert (filter P l = filter Q l) as -> by (apply IH; intros y Hy; apply Hpq; now right).
  destruct (decide (P x)) as [Hp|Hp], (decide (Q x)) as [Hq|Hq]; try reflexivity;
    exfalso; (apply Hpq in Hp || apply Hpq in Hq); try done; now left.
Qed.

Lemma positions_snoc l y x :
  positions (l ++ [y]) x
  = positions l x ++ (if decide (y = x) then [length l] else []).
Proof.
  unfold positions. rewrite length_app. simpl length.
  rewrite Nat.add_1_r, seq_S, filter_app. simpl. f_equal.
  - apply filter_ext_in. intros j Hj. apply elem_of_seq in Hj.
    rewrite lookup_app_l by lia. reflexivity.
  - rewrite filter_cons, filter_nil.
    rewrite lookup_app_r by lia. rewrite Nat.sub_diag. simpl.
    destruct (decide (y = x)) as [->|Hne].
    + now rewrite decide_True.
    + rewrite decide_False; [reflexivity|]. now intros [= ?].
Qed.

Lemma b2j_lookup (l : list string) (x : string) :
  foldl (fun (m : gmap string (list nat)) '(i, elt) =>
           <[elt := default [] (m !! elt) ++ [i]]> m) ∅ (imap pair l) !! x
  = match positions l x with
    | [] => None
    | js => Some js
    end.
Proof.
  induction l as [|y l IH] using rev_ind; [reflexivity|].
  rewrite imap_app, foldl_app. simpl. rewrite Nat.add_0_r, positions_snoc.
  destruct (decide (y = x)) as [->|Hne].
  - rewrite lookup_insert_eq, IH. destruct (positions l x); reflexivity.
  - rewrite lookup_insert_ne, app_nil_r by done. apply IH.
Qed.

Lemma chain_b_positions (a : list string) (x : string) (js : list nat) :
  difflib.chain_b a !! x = Some js -> js = positions a x.
Proof.
  unfold difflib.chain_b. intros Hjs.
  assert (foldl (fun (m : gmap string (list nat)) '(i, elt) =>
                   <[elt := default [] (m !! elt) ++ [i]]> m) ∅ (imap pair a) !! x
          = Some js) as Hfull.
  { destruct (200 <=? length a)%nat; [|exact Hjs].
    now apply map_lookup_filter_Some in Hjs as [Hjs _]. }
  rewrite b2j_lookup in Hfull. destruct (positions a x); congruence.
Qed.

Lemma positions_elem (a : list string) (x : string) (j : nat) :
  j ∈ positions a x <-> a !! j = Some x.
Proof.
  unfold positions. rewrite list_elem_of_filter, elem_of_seq. split; [tauto|].
  intros Hj. split; [exact Hj|]. apply lookup_lt_Some in Hj. lia.
Qed.

Lemma positions_sorted (a : list string) (x : string) :
  forall done j rest, positions a x = done ++ j :: rest ->
    Forall (fun c => c < j)%nat done /\ Forall (fun c => j < c)%nat rest.
Proof.
  unfold positions. generalize 0%nat as start. generalize (length a) as len.
  induction len as [|len IH]; intros start done j rest; simpl.
  - rewrite filter_nil. now destruct done.
  - rewrite filter_cons.
    assert (forall d k r, filter (fun j => a !! j = Some x) (seq (S start) len) = d ++ k :: r
                          -> (start < k)%nat) as Hgt.
    { intros d k r Hk.
      assert (k ∈ filter (fun j => a !! j = Some x) (seq (S start) len)) as Hin
        by (rewrite Hk; apply elem_of_app; right; left).
      apply list_elem_of_filter in Hin as [_ Hin]. apply elem_of_seq in Hin. lia. }
    destruct (decide (a !! start = Some x)) as [Hs|Hs].
    + destruct done as [|d done]; simpl; intros [= <- Hrest].
      * split; [constructor|]. apply Forall_forall. intros c Hc.
        apply list_elem_of_split in Hc as (r1 & r2 & ->). now apply (Hgt r1 c r2).
      * destruct (IH _ _ _ _ Hrest) as [H1 H2]. split; [|exact H2].
        constructor; [now apply (Hgt done j rest) | exact H1].
    + apply IH.
Qed.

Section identical.
Variable a : list string.

Lemma same_known_spec i j :
  same_known a i j = true
  <-> exists x, a !! i = Some x /\ a !! j = Some x /\ is_Some (difflib.chain_b a !! x).
Proof.
  unfold same_known. destruct (a !! i) as [x|], (a !! j) as [y|]; simpl.
  - rewrite andb_true_iff, !bool_decide_eq_true. split.
    + intros [-> Hk]. eauto.
    + intros (z & [= ->] & [= ->] & Hk). auto.
  - split; [discriminate | now intros (z & _ & ? & _)].
  - split; [discriminate | now intros (z & ? & _)].
  - split; [discriminate | now intros (z & ? & _)].
Qed.

Lemma same_known_diag i j :
  same_known a i j = true -> same_known a i i = true /\ same_known a j j = true.
Proof.
  intros (x & Hi & Hj & Hk)%same_known_spec. split; apply same_known_spec; eauto.
Qed.

Lemma run_unfold i j :
  run a i j
  = if same_known a i j then
      S (match i, j with
         | S i', S j' => run a i' j'
         | _, _ => 0
         end)
    else 0.
Proof. destruct i; reflexivity. Qed.

Lemma run_le_diag i : forall j, (run a i j <= run a j j)%nat /\ (run a i j <= run a i i)%nat.
Proof.
  induction i as [|i IH]; intros j; rewrite (run_unfold _ j), (run_unfold j j),
    (run_unfold _ (S i)) || rewrite (run_unfold _ j), (run_unfold j j), (run_unfold 0 0).
  - destruct (same_known a 0 j) eqn:E; [|lia].
    destruct (same_known_diag _ _ E) as [-> ->]. destruct j; lia.
  - destruct (same_known a (S i) j) eqn:E; [|lia].
    destruct (same_known_diag _ _ E) as [-> ->]. destruct j as [|j]; [lia|].
    destruct (IH j). lia.
Qed.

Lemma run_le_index i : forall j, (run a i j <= S i)%nat.
Proof.
  induction i as [|i IH]; intros j; rewrite run_unfold;
    destruct (same_known a _ j); try lia.
  destruct j as [|j]; [lia|]. specialize (IH j). lia.
Qed.

Lemma scan_js_inv i x j2len : forall js done newj2len best,
  (i < length a)%nat -> a !! i = Some x -> is_Some (difflib.chain_b a !! x) ->
  positions a x = done ++ js ->
  (forall c, default 0 (j2len !! c) = prev_run a i c)%nat ->
  diagonal a best ->
  (forall r c, r < i -> run a r c <= best.2)%nat ->
  (forall c, c ∈ done -> run a i c <= best.2)%nat ->
  (forall c, newj2len !! c = if decide (c ∈ done) then Some (run a i c) else None) ->
  let '(newj2len', best') :=
    difflib.scan_js 0 (length a) i j2len js newj2len best in
  diagonal a best'
  /\ (forall r c, r < i -> run a r c <= best'.2)%nat
  /\ (forall c, c ∈ positions a x -> run a i c <= best'.2)%nat
  /\ (forall c, newj2len' !! c
                = if decide (c ∈ positions a x) then Some (run a i c) else None).
Proof.
  induction js as [|j js IH]; intros done newj2len best Hi Hx Hk Hpos Hprev Hd Hrows Hrow Hnew.
  - rewrite app_nil_r in Hpos. simpl. rewrite Hpos. auto.
  - cbn [difflib.scan_js].
    assert (j ∈ positions a x) as Hj by (rewrite Hpos; apply elem_of_app; right; left).
    apply positions_elem in Hj. pose proof (lookup_lt_Some _ _ _ Hj) as Hjn.
    replace (j <? 0)%nat with false by reflexivity.
    replace (length a <=? j)%nat with false by (symmetry; apply Nat.leb_gt; lia).
    assert (same_known a i j = true) as Hsk by (apply same_known_spec; eauto).
    assert (S (difflib.j2len_get j2len j) = run a i j) as Hrun.
    { rewrite run_unfold, Hsk. f_equal. unfold difflib.j2len_get.
      destruct j as [|j']; [now destruct i|]. rewrite Hprev. now destruct i. }
    rewrite Hrun.
    destruct (positions_sorted a x _ _ _ Hpos) as [Hlt Hgt].
    assert (j ∉ done) as Hnd.
    { intros Hin. rewrite Forall_forall in Hlt. specialize (Hlt _ Hin). lia. }
    apply (IH (done ++ [j])); auto.
    + now rewrite <- app_assoc.
    + destruct (best.2 <? run a i j)%nat eqn:Hbetter; [|exact Hd].
      apply Nat.ltb_lt in Hbetter.
      assert (j = i) as ->.
      { destruct (Nat.lt_trichotomy j i) as [Hlt'|[->|Hgt']]; [|reflexivity|].
        - specialize (Hrows j j Hlt'). destruct (run_le_diag i j). lia.
        - assert (i ∈ done) as Hin.
          { assert (i ∈ positions a x) as Hip by now apply positions_elem.
            rewrite Hpos in Hip. apply elem_of_app in Hip as [Hip|Hip]; [exact Hip|].
            apply elem_of_cons in Hip as [->|Hip]; [lia|].
            rewrite Forall_forall in Hgt. specialize (Hgt _ Hip). lia. }
          specialize (Hrow i Hin). destruct (run_le_diag i j). lia. }
      pose proof (run_le_index i i). split; simpl; [reflexivity | lia].
    + intros r c Hr. specialize (Hrows r c Hr).
      destruct (best.2 <? run a i j)%nat eqn:Hbetter; [|exact Hrows].
      apply Nat.ltb_lt in Hbetter. simpl. lia.
    + intros c Hc. apply elem_of_app in Hc as [Hc|Hc].
      * specialize (Hrow c Hc).
        destruct (best.2 <? run a i j)%nat eqn:Hbetter; [|exact Hrow].
        apply Nat.ltb_lt in Hbetter. simpl. lia.
      * apply list_elem_of_singleton in Hc as ->.
        destruct (best.2 <? run a i j)%nat eqn:Hbetter; simpl; [lia|].
        apply Nat.ltb_ge in Hbetter. exact Hbetter.
    + intros c. rewrite lookup_insert. case_decide as Hcj.
      * subst c. rewrite decide_True; [reflexivity|].
        apply elem_of_app. right. now left.
      * rewrite Hnew. destruct (decide (c ∈ done)) as [Hin|Hin].
        -- rewrite decide_True; [reflexivity|]. apply elem_of_app. now left.
        -- rewrite decide_False; [reflexivity|].
           intros [?|?%list_elem_of_singleton]%elem_of_app; congruence.
Qed.

Lemma run_not_known i c : same_known a i c = false -> run a i c = 0%nat.
Proof. intros H. now rewrite run_unfold, H. Qed.

Lemma scan_is_inv : forall len i0 j2len best,
  (i0 + len = length a)%nat ->
  (forall c, default 0 (j2len !! c) = prev_run a i0 c)%nat ->
  diagonal a best ->
  (forall r c, r < i0 -> run a r c <= best.2)%nat ->
  diagonal a (difflib.scan_is a a 0 (length a) (seq i0 len) j2len best).
Proof.
  induction len as [|len IH]; intros i0 j2len best Hlen Hprev Hd Hrows; [exact Hd|].
  cbn [seq difflib.scan_is].
  assert (i0 < length a)%nat as Hi by lia.
  destruct (lookup_lt_is_Some_2 a i0 Hi) as [x Hx]. rewrite Hx.
  destruct (difflib.chain_b a !! x) as [js|] eqn:Hjs; cbn [default from_option id].
  - pose proof (chain_b_positions _ _ _ Hjs) as ->.
    pose proof (scan_js_inv i0 x j2len (positions a x) [] ∅ best Hi Hx
                  ltac:(now rewrite Hjs) eq_refl Hprev Hd Hrows) as Hscan.
    destruct (difflib.scan_js 0 (length a) i0 j2len (positions a x) ∅ best)
      as [newj2len best'].
    destruct Hscan as (Hd' & Hrows' & Hrow' & Hnew').
    { intros c Hc. now apply elem_of_nil in Hc. }
    { intros c. rewrite lookup_empty. rewrite decide_False; [reflexivity|].
      apply not_elem_of_nil. }
    cbv beta iota zeta. apply IH; [lia | | exact Hd' |].
    + intros c. rewrite Hnew'. simpl. destruct (decide (c ∈ positions a x)) as [Hc|Hc].
      * reflexivity.
      * simpl. symmetry. apply run_not_known.
        destruct (same_known a i0 c) eqn:E; [|reflexivity].
        apply same_known_spec in E as (y & Hy & Hc' & _).
        rewrite Hx in Hy. injection Hy as <-. now apply positions_elem in Hc'.
    + intros r c Hr. destruct (decide (r = i0)) as [->|Hne]; [|apply Hrows'; lia].
      destruct (decide (c ∈ positions a x)) as [Hc|Hc]; [now apply Hrow'|].
      rewrite run_not_known; [lia|].
      destruct (same_known a i0 c) eqn:E; [|reflexivity].
      apply same_known_spec in E as (y & Hy & Hc' & _).
      rewrite Hx in Hy. injection Hy as <-. now apply positions_elem in Hc'.
  - cbn [difflib.scan_js].
    assert (forall c, run a i0 c = 0%nat) as Hzero.
    { intros c. apply run_not_known. destruct (same_known a i0 c) eqn:E; [|reflexivity].
      apply same_known_spec in E as (y & Hy & _ & Hk).
      rewrite Hx in Hy. injection Hy as <-. rewrite Hjs in Hk. now destruct Hk. }
    cbv beta iota zeta. apply IH; [lia | | exact Hd |].
    + intros c. rewrite lookup_empty. simpl. now rewrite Hzero.
    + intros r c Hr. destruct (decide (r = i0)) as [->|Hne]; [|apply Hrows; lia].
      rewrite Hzero. lia.
Qed.

Lemma same_line_diag i : (i < length a)%nat -> difflib.same_line a a i i = true.
Proof.
  intros Hi. unfold difflib.same_line.
  destruct (lookup_lt_is_Some_2 a i Hi) as [x ->]. apply String.eqb_refl.
Qed.

Lemma extend_left_diag : forall fuel size,
  (fuel + size <= length a)%nat ->
  difflib.extend_left a a fuel 0 0 (fuel, fuel, size) = (0, 0, size + fuel)%nat.
Proof.
  induction fuel as [|fuel IH]; intros size Hle; simpl.
  - now rewrite Nat.add_0_r.
  - rewrite Nat.sub_0_r, same_line_diag by lia. simpl.
    rewrite IH by lia. f_equal. lia.
Qed.

Lemma extend_right_diag : forall fuel size,
  (size <= length a)%nat -> (length a - size <= fuel)%nat ->
  difflib.extend_right a a fuel (length a) (length a) (0, 0, size)%nat
  = (0, 0, length a)%nat.
Proof.
  induction fuel as [|fuel IH]; intros size Hle Hfuel; simpl.
  - f_equal. lia.
  - destruct (size <? length a)%nat eqn:Hlt; simpl.
    + apply Nat.ltb_lt in Hlt. rewrite same_line_diag by lia. apply IH; lia.
    + apply Nat.ltb_ge in Hlt. f_equal. lia.
Qed.

Lemma find_longest_match_diag :
  difflib.find_longest_match a a 0 (length a) 0 (length a) = (0, 0, length a)%nat.
Proof.
  unfold difflib.find_longest_match.
  pose proof (scan_is_inv (length a) 0 ∅ (0, 0, 0)%nat eq_refl) as Hscan.
  rewrite !Nat.sub_0_r.
  destruct (difflib.scan_is a a 0 (length a) (seq 0 (length a)) ∅ (0, 0, 0)%nat)
    as [[bi bj] bk].
  destruct Hscan as [Hdiag Hle].
  { intros c. now rewrite lookup_empty. }
  { split; simpl; lia. }
  { intros r c Hr. lia. }
  simpl in Hdiag, Hle. subst bj. cbn [fst snd].
  rewrite extend_left_diag by exact Hle. apply extend_right_diag; lia.
Qed.

Lemma get_matching_blocks_same :
  difflib.get_matching_blocks a a
  = match length a with
    | O => [(0, 0, 0)%nat]
    | S n => [(0, 0, S n); (S n, S n, 0)]%nat
    end.
Proof.
  unfold difflib.get_matching_blocks.
  replace (2 * length a + 1)%nat with (S (2 * length a)) by lia.
  cbn [difflib.drain]. rewrite find_longest_match_diag.
  destruct (length a) as [|n] eqn:Hn.
  - destruct (2 * 0)%nat; reflexivity.
  - rewrite Nat.ltb_irrefl. simpl andb. cbv iota.
    replace (0 + S n <? S n)%nat with false by (symmetry; apply Nat.ltb_ge; lia).
    simpl andb. cbv iota.
    assert (forall fuel blocks, difflib.drain a a fuel [] blocks = blocks) as ->
      by (now intros [|fuel] blocks).
    reflexivity.
Qed.

End identical.

Lemma group_codes_single_equal (n i1 i2 j1 j2 : nat) :
  (i2 - i1 <= n + n)%nat ->
  difflib.group_codes n [] [difflib.Opcode difflib.equal i1 i2 j1 j2] = [].
Proof.
  intros Hle. cbn [difflib.group_codes difflib.is_equal difflib.op_tag].
  replace (n + n <? i2 - i1)%nat with false by (symmetry; apply Nat.ltb_ge; lia).
  reflexivity.
Qed.

(** A sequence compared with itself has no hunk. *)
Lemma unified_diff_same (a : list string) (fromfile tofile lineterm : string) :
  difflib.unified_diff a a fromfile tofile lineterm = [].
Proof.
  unfold difflib.unified_diff, difflib.get_grouped_opcodes, difflib.get_opcodes.
  rewrite get_matching_blocks_same. destruct (length a) as [|n]; [reflexivity|].
  assert (difflib.opcodes_from 0 0 [(0, 0, S n); (S n, S n, 0)]%nat
          = [difflib.Opcode difflib.equal 0 (S n) 0 (S n)]) as ->.
  { cbn [difflib.opcodes_from Nat.add]. rewrite !Nat.ltb_irrefl. reflexivity. }
  cbn [difflib.fix_first difflib.fix_last].
  rewrite group_codes_single_equal; [reflexivity | lia].
Qed.

(** ** A text compared with another *)

Section different.
Variables a b : list string.

Lemma same_line_spec i j :
  difflib.same_line a b i j = true <-> exists x, a !! i = Some x /\ b !! j = Some x.
Proof.
  unfold difflib.same_line.
  destruct (a !! i) as [x|], (b !! j) as [y|];
    try (split; [discriminate | now intros (? & ? & ?)]).
  rewrite String.eqb_eq. split.
  - intros ->. eauto.
  - now intros (z & [= ->] & [= ->]).
Qed.

Lemma matching_bound i j k :
  (0 < k)%nat -> matching a b (i, j, k) ->
  (i + k <= length a /\ j + k <= length b)%nat.
Proof.
  intros Hk Hm. specialize (Hm (k - 1)%nat ltac:(simpl; lia)). simpl in Hm.
  apply same_line_spec in Hm as (x & Ha & Hb).
  apply lookup_lt_Some in Ha, Hb. lia.
Qed.

Lemma matching_eq i j k i' j' k' :
  i = i' -> j = j' -> k = k' -> matching a b (i, j, k) -> matching a b (i', j', k').
Proof. now intros -> -> ->. Qed.

Lemma matching_nil i j : matching a b (i, j, 0%nat).
Proof. intros t Ht. simpl in Ht. lia. Qed.

Lemma matching_snoc i j k :
  matching a b (i, j, k) -> difflib.same_line a b (i + k) (j + k) = true ->
  matching a b (i, j, S k).
Proof.
  intros Hm Hs t Ht. simpl in *. destruct (decide (t = k)) as [->|Hne]; [exact Hs |].
  apply Hm. simpl. lia.
Qed.

Lemma matching_cons i j k :
  difflib.same_line a b i j = true -> matching a b (S i, S j, k) ->
  matching a b (i, j, S k).
Proof.
  intros Hs Hm t Ht. simpl in *. destruct t as [|t].
  - now rewrite !Nat.add_0_r.
  - specialize (Hm t ltac:(simpl; lia)). simpl in Hm.
    now replace (i + S t)%nat with (S (i + t)) by lia;
      replace (j + S t)%nat with (S (j + t)) by lia.
Qed.

Lemma matching_app i j k1 k2 :
  matching a b (i, j, k1) -> matching a b (i + k1, j + k1, k2)%nat ->
  matching a b (i, j, k1 + k2)%nat.
Proof.
  intros H1 H2 t Ht. simpl in *. destruct (decide (t < k1)%nat) as [Hlt|Hge].
  - now apply H1.
  - specialize (H2 (t - k1)%nat ltac:(simpl; lia)). simpl in H2.
    now replace (i + k1 + (t - k1))%nat with (i + t)%nat in H2 by lia;
      replace (j + k1 + (t - k1))%nat with (j + t)%nat in H2 by lia.
Qed.

(** *** [find_longest_match] returns a block of equal lines in its ranges *)

Lemma scan_js_ok alo ahi blo bhi i j2len : forall js newj2len best,
  (alo <= i < ahi)%nat ->
  (forall j, j ∈ js -> difflib.same_line a b i j = true) ->
  runs a b alo blo bhi i j2len ->
  runs a b alo blo bhi (S i) newj2len ->
  block_in (alo, ahi, blo, bhi) best -> matching a b best ->
  runs a b alo blo bhi (S i) (difflib.scan_js blo bhi i j2len js newj2len best).1
  /\ block_in (alo, ahi, blo, bhi) (difflib.scan_js blo bhi i j2len js newj2len best).2
  /\ matching a b (difflib.scan_js blo bhi i j2len js newj2len best).2.
Proof.
  intros js. induction js as [|j js IH]; intros newj2len best Hi Hjs Hold Hnew Hin Hm.
  - simpl. auto.
  - simpl. destruct (j <? blo)%nat eqn:Hlo.
    { apply IH; auto. intros j' Hj'. apply Hjs. now right. }
    destruct (bhi <=? j)%nat eqn:Hhi; [simpl; auto |].
    apply Nat.ltb_ge in Hlo. apply Nat.leb_gt in Hhi.
    set (k := S (difflib.j2len_get j2len j)).
    assert (Hrun : (1 <= k /\ k <= S i - alo /\ k <= j + 1 - blo /\ j < bhi)%nat
                   /\ matching a b (S i - k, j + 1 - k, k)%nat).
    { assert (Hij : difflib.same_line a b i j = true) by (apply Hjs; now left).
      assert (Hone : matching a b (i, j, 1%nat)).
      { apply matching_snoc; [apply matching_nil | now rewrite !Nat.add_0_r]. }
      unfold k. destruct j as [|j']; simpl difflib.j2len_get.
      - split; [lia |]. apply (matching_eq i 0%nat 1%nat); [lia | lia | lia | exact Hone].
      - destruct (j2len !! j') as [k'|] eqn:Hk'; simpl default.
        + destruct (Hold _ _ Hk') as [Hb Hmk]. split; [lia |].
          apply (matching_eq (i - k') (j' + 1 - k') (S k'))%nat; [lia | lia | lia |].
          apply matching_snoc; [exact Hmk |].
          replace (i - k' + k')%nat with i by lia.
          now replace (j' + 1 - k' + k')%nat with (S j') by lia.
        + split; [lia |].
          apply (matching_eq i (S j') 1%nat); [lia | lia | lia | exact Hone]. }
    destruct Hrun as [Hb Hmk].
    apply IH; auto.
    + intros j' Hj'. apply Hjs. now right.
    + intros j' k' Hl. rewrite lookup_insert in Hl. case_decide as E.
      * injection Hl as <-. subst j'. split; [lia | exact Hmk].
      * now apply Hnew.
    + destruct (best.2 <? k)%nat; [| exact Hin].
      unfold block_in. simpl. lia.
    + destruct (best.2 <? k)%nat; [| exact Hm].
      apply (matching_eq (S i - k) (j + 1 - k) k)%nat; [lia | lia | lia | exact Hmk].
Qed.

Lemma runs_empty alo blo bhi i : runs a b alo blo bhi i ∅.
Proof. intros j k Hl. now rewrite lookup_empty in Hl. Qed.

Lemma scan_is_ok alo ahi blo bhi : forall len i0 j2len best,
  (alo <= i0)%nat -> (i0 + len <= ahi)%nat ->
  runs a b alo blo bhi i0 j2len ->
  block_in (alo, ahi, blo, bhi) best -> matching a b best ->
  block_in (alo, ahi, blo, bhi) (difflib.scan_is a b blo bhi (seq i0 len) j2len best)
  /\ matching a b (difflib.scan_is a b blo bhi (seq i0 len) j2len best).
Proof.
  induction len as [|len IH]; intros i0 j2len best Hlo Hhi Hruns Hin Hm; [simpl; auto |].
  simpl.
  set (js := match a !! i0 with
             | Some x => default [] (difflib.chain_b b !! x)
             | None => []
             end).
  assert (Hjs : forall j, j ∈ js -> difflib.same_line a b i0 j = true).
  { intros j Hj. unfold js in Hj. destruct (a !! i0) as [x|] eqn:Hx; [| inversion Hj].
    destruct (difflib.chain_b b !! x) as [l|] eqn:Hl; [| inversion Hj]. simpl in Hj.
    apply chain_b_positions in Hl as ->. apply positions_elem in Hj.
    apply same_line_spec. eauto. }
  pose proof (scan_js_ok alo ahi blo bhi i0 j2len js ∅ best ltac:(lia) Hjs Hruns
                (runs_empty _ _ _ _) Hin Hm) as (H1 & H2 & H3).
  destruct (difflib.scan_js blo bhi i0 j2len js ∅ best) as [newj2len best'].
  apply IH; auto; lia.
Qed.

Lemma extend_left_ok alo ahi blo bhi : forall fuel best,
  block_in (alo, ahi, blo, bhi) best -> matching a b best ->
  block_in (alo, ahi, blo, bhi) (difflib.extend_left a b fuel alo blo best)
  /\ matching a b (difflib.extend_left a b fuel alo blo best).
Proof.
  induction fuel as [|fuel IH]; intros [[besti bestj] bestsize] Hin Hm; [simpl; auto |].
  simpl. destruct (_ && _) eqn:E; [| auto].
  apply andb_true_iff in E as [[Hi Hj]%andb_true_iff Hs].
  apply Nat.ltb_lt in Hi, Hj. unfold block_in in Hin. simpl in Hin.
  apply IH.
  - unfold block_in. simpl. lia.
  - apply matching_cons; [exact Hs |].
    now replace (S (besti - 1)) with besti by lia;
      replace (S (bestj - 1)) with bestj by lia.
Qed.

Lemma extend_right_ok alo ahi blo bhi : forall fuel best,
  block_in (alo, ahi, blo, bhi) best -> matching a b best ->
  block_in (alo, ahi, blo, bhi) (difflib.extend_right a b fuel ahi bhi best)
  /\ matching a b (difflib.extend_right a b fuel ahi bhi best).
Proof.
  induction fuel as [|fuel IH]; intros [[besti bestj] bestsize] Hin Hm; [simpl; auto |].
  simpl. destruct (_ && _) eqn:E; [| auto].
  apply andb_true_iff in E as [[Hi Hj]%andb_true_iff Hs].
  apply Nat.ltb_lt in Hi, Hj. unfold block_in in Hin. simpl in Hin.
  apply IH.
  - unfold block_in. simpl. lia.
  - now apply matching_snoc.
Qed.

Lemma find_longest_match_ok alo ahi blo bhi :
  proper (alo, ahi, blo, bhi) ->
  block_in (alo, ahi, blo, bhi) (difflib.find_longest_match a b alo ahi blo bhi)
  /\ matching a b (difflib.find_longest_match a b alo ahi blo bhi).
Proof.
  intros [Ha Hb]. simpl in Ha, Hb. unfold difflib.find_longest_match.
  destruct (scan_is_ok alo ahi blo bhi (ahi - alo) alo ∅ (alo, blo, 0)%nat) as [H1 H2];
    [lia | lia | apply runs_empty | unfold block_in; simpl; lia | apply matching_nil |].
  set (best := difflib.scan_is a b blo bhi (seq alo (ahi - alo)) ∅ (alo, blo, 0%nat)) in *.
  destruct (extend_left_ok alo ahi blo bhi (best.1.1 - alo) best H1 H2) as [H3 H4].
  now apply extend_right_ok.
Qed.


(** *** The matching blocks are in increasing order *)

Lemma apart_sym x y : apart x y -> apart y x.
Proof. unfold apart. tauto. Qed.

Lemma apart_inside x r y :
  (r.1.1.1 <= x.1.1.1 /\ x.1.1.2 <= r.1.1.2 /\ r.1.2 <= x.1.2 /\ x.2 <= r.2)%nat ->
  apart r y -> apart x y.
Proof. unfold apart, before. lia. Qed.

Lemma chain_app_r l1 l2 : chain (l1 ++ l2) -> chain l2.
Proof. induction l1 as [|x l1 IH]; [auto |]. simpl. intros [_ H]. auto. Qed.

Lemma chain_snoc l x : chain l -> Forall (fun y => apart y x) l -> chain (l ++ [x]).
Proof.
  induction l as [|y l IH]; simpl; [auto |].
  intros [Hy Hl] [Hyx Hlx]%Forall_cons. split; [| auto].
  apply Forall_app. split; [exact Hy | now apply Forall_singleton].
Qed.

Lemma drain_ok : forall fuel queue blocks,
  chain (queue ++ (box_of <$> blocks)) -> Forall proper queue ->
  Forall (fun blk => (0 < blk.2)%nat /\ matching a b blk) blocks ->
  chain (box_of <$> difflib.drain a b fuel queue blocks)
  /\ Forall (fun blk => (0 < blk.2)%nat /\ matching a b blk)
            (difflib.drain a b fuel queue blocks).
Proof.
  induction fuel as [|fuel IH]; intros queue blocks Hc Hq Hb.
  { simpl. split; [now apply chain_app_r in Hc | exact Hb]. }
  destruct queue as [|[[[alo ahi] blo] bhi] queue].
  { simpl. split; [exact Hc | exact Hb]. }
  simpl difflib.drain.
  apply Forall_cons in Hq as [Hr Hq].
  destruct (find_longest_match_ok alo ahi blo bhi Hr) as [Hin Hm].
  destruct (difflib.find_longest_match a b alo ahi blo bhi) as [[i j] k].
  simpl in Hc. destruct Hc as [Hr_rest Hc].
  destruct k as [|k]; [now apply IH |].
  unfold block_in in Hin. simpl in Hin.
  set (blk := (i, j, S k)) in *. set (rest := queue ++ (box_of <$> blocks)) in *.
  assert (Hblk : Forall (fun y => apart y (box_of blk)) rest).
  { eapply Forall_impl; [exact Hr_rest |]. intros y Hy. apply apart_sym.
    eapply apart_inside; [| exact Hy]. simpl. lia. }
  assert (Hr1 : Forall (apart (alo, i, blo, j)) rest).
  { eapply Forall_impl; [exact Hr_rest |]. intros y Hy.
    eapply apart_inside; [| exact Hy]. simpl. lia. }
  assert (Hr2 : Forall (apart (i + S k, ahi, j + S k, bhi)%nat) rest).
  { eapply Forall_impl; [exact Hr_rest |]. intros y Hy.
    eapply apart_inside; [| exact Hy]. simpl. lia. }
  assert (Hc' : chain (rest ++ [box_of blk])) by now apply chain_snoc.
  assert (H1' : Forall (apart (alo, i, blo, j)) (rest ++ [box_of blk])).
  { apply Forall_app. split; [exact Hr1 |]. apply Forall_singleton.
    unfold apart, before. simpl. lia. }
  assert (H2' : Forall (apart (i + S k, ahi, j + S k, bhi)%nat) (rest ++ [box_of blk])).
  { apply Forall_app. split; [exact Hr2 |]. apply Forall_singleton.
    unfold apart, before. simpl. lia. }
  set (c1 := (alo <? i)%nat && (blo <? j)%nat).
  set (c2 := (i + S k <? ahi)%nat && (j + S k <? bhi)%nat).
  assert (Hc1 : c1 = true -> (alo < i /\ blo < j)%nat).
  { unfold c1. rewrite andb_true_iff, !Nat.ltb_lt. tauto. }
  assert (Hc2 : c2 = true -> (i + S k < ahi /\ j + S k < bhi)%nat).
  { unfold c2. rewrite andb_true_iff, !Nat.ltb_lt. tauto. }
  apply IH.
  - rewrite fmap_app. simpl fmap.
    destruct c1, c2; simpl; rewrite ?app_assoc; fold rest.
    + split; [| split; [exact H1' | exact Hc']].
      constructor; [unfold apart, before; simpl; lia | exact H2'].
    + split; [exact H1' | exact Hc'].
    + split; [exact H2' | exact Hc'].
    + exact Hc'.
  - destruct c1, c2; repeat constructor; try exact Hq; simpl;
      try (specialize (Hc1 eq_refl)); try (specialize (Hc2 eq_refl)); lia.
  - apply Forall_app. split; [exact Hb |]. apply Forall_singleton.
    split; [simpl; lia | exact Hm].
Qed.

Lemma insert_block_Forall (P : nat * nat * nat -> Prop) x l :
  P x -> Forall P l -> Forall P (difflib.insert_block x l).
Proof.
  intros Hx. induction 1 as [|y l Hy Hl IH]; simpl; [now repeat constructor |].
  destruct (difflib.block_le x y); repeat constructor; auto.
Qed.

Lemma sort_blocks_Forall (P : nat * nat * nat -> Prop) l :
  Forall P l -> Forall P (difflib.sort_blocks l).
Proof.
  induction 1 as [|x l Hx Hl IH]; [constructor |].
  simpl. now apply insert_block_Forall.
Qed.

Lemma block_le_before x y :
  (0 < x.2)%nat -> (0 < y.2)%nat -> apart (box_of x) (box_of y) ->
  if difflib.block_le x y then before (box_of x) (box_of y)
  else before (box_of y) (box_of x).
Proof.
  destruct x as [[i1 j1] k1], y as [[i2 j2] k2]. unfold apart, before. simpl.
  intros Hx Hy Hxy.
  destruct (i1 <? i2)%nat eqn:E1; simpl.
  { apply Nat.ltb_lt in E1. lia. }
  apply Nat.ltb_ge in E1.
  destruct (i1 =? i2)%nat eqn:E2; simpl.
  { apply Nat.eqb_eq in E2. lia. }
  apply Nat.eqb_neq in E2. lia.
Qed.

Lemma insert_block_increasing x l :
  (0 < x.2)%nat -> Forall (fun y => (0 < y.2)%nat) l ->
  Forall (fun y => apart (box_of x) (box_of y)) l ->
  increasing l -> increasing (difflib.insert_block x l).
Proof.
  intros Hx. induction l as [|y l IH]; intros Hpos Hap Hinc; simpl; [auto |].
  apply Forall_cons in Hpos as [Hy Hpos]. apply Forall_cons in Hap as [Hxy Hap].
  destruct Hinc as [Hyl Hinc].
  pose proof (block_le_before x y Hx Hy Hxy) as Hle.
  destruct (difflib.block_le x y).
  - simpl. split; [| auto]. constructor; [exact Hle |].
    eapply Forall_impl; [exact Hyl |]. intros z Hz.
    unfold before, box_of in *. simpl in *. lia.
  - simpl. split; [| now apply IH].
    apply insert_block_Forall; [exact Hle | exact Hyl].
Qed.

Lemma sort_blocks_increasing l :
  chain (box_of <$> l) -> Forall (fun y => (0 < y.2)%nat) l ->
  increasing (difflib.sort_blocks l).
Proof.
  induction l as [|x l IH]; [auto |]. simpl.
  intros [Hx Hc] [Hpx Hpos]%Forall_cons.
  apply insert_block_increasing; auto.
  - now apply sort_blocks_Forall.
  - apply sort_blocks_Forall. revert Hx. rewrite Forall_fmap. intros Hx. exact Hx.
Qed.

Lemma ordered_weaken l : forall i j i' j',
  (i' <= i)%nat -> (j' <= j)%nat -> ordered a b i j l -> ordered a b i' j' l.
Proof.
  destruct l as [|blk l]; simpl; [auto |].
  intros i j i' j' Hi Hj (? & ? & ? & ?). repeat split; auto; lia.
Qed.

Lemma increasing_ordered : forall l i j,
  increasing l ->
  Forall (fun y => (i <= y.1.1 /\ j <= y.1.2)%nat) l ->
  Forall (fun y => (0 < y.2)%nat /\ matching a b y) l ->
  ordered a b i j l.
Proof.
  induction l as [|[[ai bj] k] l IH]; intros i j Hinc Hlo Hv; simpl; [auto |].
  destruct Hinc as [Hbef Hinc]. apply Forall_cons in Hlo as [Hlo _].
  apply Forall_cons in Hv as [[Hk Hm] Hv]. simpl in *.
  split; [exact Hlo |]. split; [exact Hm |].
  split; [now apply matching_bound |].
  apply IH; [exact Hinc | exact Hbef | exact Hv].
Qed.

Lemma collapse_ordered : forall blocks cur i j,
  ordered a b i j (cur :: blocks) -> ordered a b i j (difflib.collapse cur blocks).
Proof.
  induction blocks as [|[[i2 j2] k2] rest IH]; intros [[i1 j1] k1] i j Ho.
  - simpl. destruct k1; [exact I | exact Ho].
  - simpl difflib.collapse. simpl in Ho.
    destruct Ho as (Hlo & Hm1 & Hb1 & Hlo2 & Hm2 & Hb2 & Hrest).
    destruct (_ && _) eqn:E.
    + apply andb_true_iff in E as [Ei Ej]. apply Nat.eqb_eq in Ei, Ej. subst i2 j2.
      apply IH. simpl. split; [exact Hlo |]. split; [now apply matching_app |].
      split; [lia |]. now rewrite !Nat.add_assoc.
    + destruct k1 as [|k1].
      * apply IH. simpl. repeat split; auto; lia.
      * simpl. split; [exact Hlo |]. split; [exact Hm1 |]. split; [exact Hb1 |].
        apply IH. simpl. repeat split; auto; lia.
Qed.

Lemma get_matching_blocks_ordered :
  exists l, difflib.get_matching_blocks a b = l ++ [(length a, length b, 0%nat)]
            /\ ordered a b 0 0 l.
Proof.
  unfold difflib.get_matching_blocks. eexists. split; [reflexivity |].
  destruct (drain_ok (2 * length a + 1) [(0, length a, 0, length b)%nat] [])
    as [Hc Hv].
  { simpl. split; [constructor | exact I]. }
  { apply Forall_singleton. unfold proper. simpl. lia. }
  { constructor. }
  set (blocks := difflib.drain a b _ _ _) in *.
  apply collapse_ordered. simpl. split; [lia |]. split; [apply matching_nil |].
  split; [lia |].
  apply increasing_ordered.
  - apply sort_blocks_increasing; [exact Hc |].
    eapply Forall_impl; [exact Hv |]. now intros y [Hy _].
  - apply sort_blocks_Forall. apply Forall_forall. intros; lia.
  - now apply sort_blocks_Forall.
Qed.

(** *** Opcodes that are all [equal] *)

Lemma opcodes_equal_inv : forall l i,
  ordered a b i i l -> (i <= length a)%nat -> (i <= length b)%nat ->
  (forall x, (x < i)%nat -> a !! x = b !! x) ->
  Forall (fun c => difflib.is_equal c = true)
         (difflib.opcodes_from i i (l ++ [(length a, length b, 0%nat)])) ->
  a = b.
Proof.
  induction l as [|[[ai bj] k] l IH]; intros i Ho Ha Hb Hsame Heq.
  - simpl in Heq.
    destruct (i <? length a)%nat eqn:E1; destruct (i <? length b)%nat eqn:E2;
      simpl in Heq; try (apply Forall_cons in Heq as [Hc _]; discriminate Hc).
    apply Nat.ltb_ge in E1, E2. apply list_eq. intros x.
    destruct (decide (x < i)%nat) as [Hx|Hx]; [now apply Hsame |].
    rewrite !lookup_ge_None_2 by lia. reflexivity.
  - simpl in Ho. destruct Ho as ([Hi Hj] & Hm & [Hba Hbb] & Ho).
    change (difflib.opcodes_from i i (((ai, bj, k) :: l) ++ [(length a, length b, 0%nat)]))
      with ((if (i <? ai)%nat && (i <? bj)%nat
             then [difflib.Opcode difflib.replace i ai i bj]
             else if (i <? ai)%nat then [difflib.Opcode difflib.delete i ai i bj]
             else if (i <? bj)%nat then [difflib.Opcode difflib.insert i ai i bj]
             else [])
            ++ match k with
               | O => []
               | S _ => [difflib.Opcode difflib.equal ai (ai + k) bj (bj + k)]
               end
            ++ difflib.opcodes_from (ai + k) (bj + k)
                 (l ++ [(length a, length b, 0%nat)])) in Heq.
    destruct (i <? ai)%nat eqn:E1; destruct (i <? bj)%nat eqn:E2;
      simpl in Heq; try (apply Forall_cons in Heq as [Hc _]; discriminate Hc).
    apply Nat.ltb_ge in E1, E2.
    assert (ai = i) as -> by lia. assert (bj = i) as -> by lia.
    apply Forall_app in Heq as [_ Heq].
    apply (IH (i + k)%nat); [exact Ho | lia | lia | | exact Heq].
    intros x Hx. destruct (decide (x < i)%nat) as [Hlt|Hge]; [now apply Hsame |].
    specialize (Hm (x - i)%nat ltac:(simpl; lia)). simpl in Hm.
    replace (i + (x - i))%nat with x in Hm by lia.
    apply same_line_spec in Hm as (y & -> & ->). reflexivity.
Qed.

End different.

Lemma fix_first_equal n codes :
  Forall (fun c => difflib.is_equal c = true) (difflib.fix_first n codes) ->
  Forall (fun c => difflib.is_equal c = true) codes.
Proof.
  destruct codes as [|[[] i1 i2 j1 j2] rest]; simpl; auto.
  intros [_ H]%Forall_cons. now constructor.
Qed.

Lemma fix_last_equal n codes :
  Forall (fun c => difflib.is_equal c = true) (difflib.fix_last n codes) ->
  Forall (fun c => difflib.is_equal c = true) codes.
Proof.
  induction codes as [|[t i1 i2 j1 j2] rest IH]; [auto |].
  destruct rest as [|c rest].
  - destruct t; simpl; auto.
  - change (difflib.fix_last n (difflib.Opcode t i1 i2 j1 j2 :: c :: rest))
      with (match t with
            | difflib.equal => difflib.Opcode t i1 i2 j1 j2 :: difflib.fix_last n (c :: rest)
            | _ => difflib.Opcode t i1 i2 j1 j2 :: difflib.fix_last n (c :: rest)
            end).
    destruct t; intros [H1 H2]%Forall_cons; constructor; auto.
Qed.

Lemma group_codes_nil n : forall codes group,
  difflib.group_codes n group codes = [] ->
  Forall (fun c => difflib.is_equal c = true) (group ++ codes).
Proof.
  induction codes as [|[t i1 i2 j1 j2] codes IH]; intros group.
  - simpl. rewrite app_nil_r.
    destruct group as [|c [|c' group]]; [constructor | | discriminate].
    destruct (difflib.is_equal c) eqn:E; [| discriminate]. intros _. now constructor.
  - simpl. destruct (_ && _); [discriminate |].
    intros H%IH. now rewrite <- app_assoc in H.
Qed.

(** [unified_diff] yields nothing for equal sequences only. *)
Lemma unified_diff_nil_inv (a b : list string) (fromfile tofile lineterm : string) :
  difflib.unified_diff a b fromfile tofile lineterm = [] -> a = b.
Proof.
  unfold difflib.unified_diff.
  destruct (difflib.get_grouped_opcodes a b 3) as [|g gs] eqn:Hg; [| discriminate].
  intros _. unfold difflib.get_grouped_opcodes in Hg.
  apply group_codes_nil, fix_last_equal, fix_first_equal in Hg.
  assert (Hcodes : Forall (fun c => difflib.is_equal c = true) (difflib.get_opcodes a b)).
  { destruct (difflib.get_opcodes a b); [constructor | exact Hg]. }
  unfold difflib.get_opcodes in Hcodes.
  destruct (get_matching_blocks_ordered a b) as (l & Hl & Ho).
  rewrite Hl in Hcodes.
  apply (opcodes_equal_inv a b l 0); [exact Ho | lia | lia | intros; lia | exact Hcodes].
Qed.

Section unchanged.
Context {W : Type} `{OS W}.

(** X21. Edits that leave the lines of the text as they were give a diff
    of two lines, the header the function writes itself: a text compared with
    itself has no hunk. *)
Theorem apply_file_edits_unchanged (w : W) (file_path content new_content : string)
    (edits : list (gmap string string)) :
  read_file_content w file_path = Ok content ->
  apply_edits content edits = Ok new_content ->
  str.splitlines new_content = str.splitlines content ->
  apply_file_edits file_path edits true w
  = (w, Ok ("--- " +:+ file_path +:+ LF +:+ "+++ " +:+ file_path))
  /\ (forall w' diff,
        apply_file_edits file_path edits false w = (w', Ok diff) ->
        diff = "--- " +:+ file_path +:+ LF +:+ "+++ " +:+ file_path).
Proof.
  intros Hread Hedit Hlines.
  unfold apply_file_edits, mbind, io_bind, io_read, io_pure.
  rewrite Hread, Hedit. cbv beta iota. rewrite Hlines, unified_diff_same. split.
  - reflexivity.
  - intros w' diff. change (negb false) with true. cbv iota.
    destruct (write_file_content file_path new_content w) as [w1 [[]|e]];
      cbv beta iota; [|discriminate].
    now intros [= _ <-].
Qed.

(** X6. The diff that [apply_file_edits] returns, dry run or not, begins with
    the two header lines the function writes itself. Where the edits leave
    the lines as they were, that is all of it. Where they change a line,
    [unified_diff] yields two header lines of its own, with no file name,
    and the header of the first hunk: the diff has four header lines. *)
Theorem apply_file_edits_headers (w w' : W) (file_path content new_content diff : string)
    (edits : list (gmap string string)) (dry_run : bool) :
  read_file_content w file_path = Ok content ->
  apply_edits content edits = Ok new_content ->
  apply_file_edits file_path edits dry_run w = (w', Ok diff) ->
  (str.splitlines new_content = str.splitlines content
   /\ diff = str.join LF ["--- " +:+ file_path; "+++ " +:+ file_path])
  \/ (str.splitlines new_content <> str.splitlines content
      /\ exists ranges lines,
           diff = str.join LF (("--- " +:+ file_path) :: ("+++ " +:+ file_path)
                               :: "--- " :: "+++ " :: ("@@ -" +:+ ranges) :: lines)).
Proof.
  intros Hread Hedit.
  unfold apply_file_edits, mbind, io_bind, io_read, io_pure.
  rewrite Hread, Hedit. cbv beta iota.
  assert (Hdiff : forall w1,
             (w1, Ok (str.join LF
                        (["--- " +:+ file_path; "+++ " +:+ file_path]
                         ++ difflib.unified_diff (str.splitlines content)
                              (str.splitlines new_content) "" "" "")))
             = (w', Ok diff) ->
             (str.splitlines new_content = str.splitlines content
              /\ diff = str.join LF ["--- " +:+ file_path; "+++ " +:+ file_path])
             \/ (str.splitlines new_content <> str.splitlines content
                 /\ exists ranges lines,
                      diff = str.join LF (("--- " +:+ file_path) :: ("+++ " +:+ file_path)
                                          :: "--- " :: "+++ "
                                          :: ("@@ -" +:+ ranges) :: lines))).
  { intros w1 [= _ <-].
    destruct (decide (str.splitlines new_content = str.splitlines content)) as [E|E].
    - left. split; [exact E |]. now rewrite E, unified_diff_same.
    - right. split; [exact E |].
      destruct (unified_diff_hunk (str.splitlines content) (str.splitlines new_content))
        as [Hnil | (ranges & lines & ->)]; [| eauto].
      apply unified_diff_nil_inv in Hnil. congruence. }
  destruct (negb dry_run).
  - destruct (write_file_content file_path new_content w) as [w1 [[]|e]];
      cbv beta iota; [apply Hdiff | discriminate].
  - apply Hdiff.
Qed.

End unchanged.

(** ** The server after [main] *)

Section after_main.
Context {W : Type} `{OS W} `{Lib}.

(** X10. Once [main] has started the server, [list_allowed_directories]
    lists the directories [main] has set, whatever calls were served in
    between: it never answers that none is configured. *)
Theorem list_allowed_directories_after_main (args : list string)
    (calls : list tool_call) (s s0 : ServerState W) :
  main args s = Serving s0 ->
  exists d dirs,
    allowed_directories s0 = d :: dirs
    /\ list_allowed_directories (serve calls s0).1
       = ((serve calls s0).1,
          Ok ("Allowed directories:" +:+ LF +:+ str.join LF (d :: dirs))).
Proof.
  intros Hm. unfold main in Hm. destruct args as [|a args]; [discriminate|].
  destruct (initial_directories (world s) (a :: args)) as [dirs|] eqn:Hd; [|discriminate].
  injection Hm as <-. simpl in Hd.
  destruct (expand_home (world s) a) as [expanded|]; [|discriminate].
  destruct (os_path_realpath _ _) as [resolved|]; [|discriminate].
  destruct (negb _); [discriminate|].
  destruct (initial_directories (world s) args) as [ds|]; [|discriminate].
  injection Hd as <-. eexists _, _. split; [reflexivity|].
  unfold list_allowed_directories. rewrite serve_preserves. reflexivity.
Qed.

End after_main.

(** ** The properties at work *)

(** [plainb] and [realb] decide [plain] and [real]. *)
Lemma plainb_plain c : plainb c = true -> plain c.
Proof.
  unfold plainb. rewrite !andb_true_iff, !negb_true_iff.
  intros ((((H1 & H2) & H3) & H4) & H5).
  apply String.eqb_neq in H1, H2, H3. repeat split; assumption.
Qed.

Lemma realb_from_real w names : forall cs0,
  real w cs0 -> realb_from w cs0 names = true -> real w (cs0 ++ names).
Proof.
  induction names as [|c rest IH]; intros cs0 Hr; simpl.
  - intros _. now rewrite app_nil_r.
  - rewrite !andb_true_iff. intros [[Hp Hl] Hrest].
    rewrite (cons_middle c cs0 rest), app_assoc. apply IH; [|exact Hrest].
    constructor; [exact Hr | now apply plainb_plain |].
    unfold not_link. now destruct (lstat w (render (cs0 ++ [c]))) as [[| |]|].
Qed.

Lemma realb_real w cs : realb w cs = true -> real w cs.
Proof. apply (realb_from_real w cs []). constructor. Qed.

(** X18 at work: a file of three lines, cut after the first. *)
Lemma head_file_tail_file_partition_witness :
  exists h t,
    head_file (one_file three_lines) "/data/f" 1 = Ok h
    /\ tail_file (one_file three_lines) "/data/f"
         (Z.of_nat (length (str.readlines three_lines)) - 1) = Ok t
    /\ h +:+ t = three_lines.
Proof.
  apply (head_file_tail_file_partition (one_file three_lines) "/data/f" three_lines 1).
  - vm_compute. reflexivity.
  - vm_compute. split; [discriminate | reflexivity].
Defined.

(** X19 at work: five lines asked of a file of three. *)
Lemma head_file_tail_file_whole_witness :
  head_file (one_file three_lines) "/data/f" 5 = Ok three_lines
  /\ tail_file (one_file three_lines) "/data/f" 5 = Ok three_lines.
Proof.
  apply (head_file_tail_file_whole (one_file three_lines) "/data/f" three_lines 5).
  - vm_compute. reflexivity.
  - vm_compute. discriminate.
Defined.

(** X20 at work: [-1] lines asked of a file of three. *)
Lemma head_file_tail_file_nonpositive_witness :
  head_file (one_file three_lines) "/data/f" (- Z.of_nat 1) = Ok ""
  /\ tail_file (one_file three_lines) "/data/f" (- Z.of_nat 1)
     = Ok (str.join "" (drop 1 (str.readlines three_lines))).
Proof.
  apply (head_file_tail_file_nonpositive (one_file three_lines) "/data/f" three_lines 1).
  vm_compute. reflexivity.
Defined.

(** X23 at work: a file of mode [0o100644] has the permissions [644]. *)
Lemma get_file_stats_permissions_witness :
  exists info,
    get_file_stats (one_file "ab") "/data/f" = Ok info
    /\ last info = Some ("permissions", "644").
Proof.
  apply (get_file_stats_permissions (one_file "ab") "/data/f"
           (StatResult 2 33188 "0.0" "0.0" "0.0")).
  - vm_compute. reflexivity.
  - vm_compute. discriminate.
Defined.

(** X24 at work: the tree of [small_tree] without [tmp]. *)
Lemma build_directory_tree_level_witness :
  exists entries ts,
    os_listdir small_tree "/data" = Ok entries
    /\ build_directory_tree 3 small_tree "/data" ["tmp"] = Ok ts
    /\ tree_name <$> ts ≡ₚ filter (fun e => kept ["tmp"] e = true) entries
    /\ Sorted.StronglySorted (fun a b => String.leb a b = true) (tree_name <$> ts).
Proof.
  eexists _, _. split; [vm_compute; reflexivity|]. split; [vm_compute; reflexivity|].
  apply (build_directory_tree_level 3 small_tree "/data" ["tmp"]); vm_compute; reflexivity.
Defined.

(** X25 at work: the tree of [small_tree] without the entries named [x]. *)
Lemma build_directory_tree_excludes_witness :
  exists ts,
    build_directory_tree 3 small_tree "/data" ["x"] = Ok ts
    /\ Forall (fun name => kept ["x"] name = true) (concat (map tree_names ts)).
Proof.
  eexists. split; [vm_compute; reflexivity|].
  apply (build_directory_tree_excludes 3 small_tree "/data" ["x"]). vm_compute. reflexivity.
Defined.

(** X13 at work: listing a directory. *)
Lemma read_only_keeps_state_witness :
  (call_tool (ListDirectory "/data")
             {| allowed_directories := ["/data"]; world := small_tree |}).1
  = {| allowed_directories := ["/data"]; world := small_tree |}.
Proof.
  apply (read_only_keeps_state (ListDirectory "/data")). reflexivity.
Defined.



(** X6 at work: the edit of [ab] to [x], written to the file. *)
Lemma apply_file_edits_headers_witness :
  exists w' diff,
    apply_file_edits "/data/f" [mk_edit "ab" "x"] false (one_file "ab") = (w', Ok diff)
    /\ ((str.splitlines "x" = str.splitlines "ab"
         /\ diff = str.join LF ["--- " +:+ "/data/f"; "+++ " +:+ "/data/f"])
        \/ (str.splitlines "x" <> str.splitlines "ab"
            /\ exists ranges lines,
                 diff = str.join LF (("--- " +:+ "/data/f") :: ("+++ " +:+ "/data/f")
                                     :: "--- " :: "+++ "
                                     :: ("@@ -" +:+ ranges) :: lines))).
Proof.
  eexists _, _. split; [vm_compute; reflexivity |].
  eapply (apply_file_edits_headers (one_file "ab") _ "/data/f" "ab" "x" _
            [mk_edit "ab" "x"] false); vm_compute; reflexivity.
Defined.


(** [validate_path_more_roots] at work: a second allowed directory. *)
Lemma validate_path_more_roots_witness :
  validate_path {| allowed_directories := ["/etc"; "/data"]; world := one_file "x" |}
                "/data/f"
  = Ok "/data/f".
Proof.
  apply (validate_path_more_roots
           {| allowed_directories := ["/data"]; world := one_file "x" |}
           {| allowed_directories := ["/etc"; "/data"]; world := one_file "x" |}).
  - reflexivity.
  - intros root Hin. apply list_elem_of_singleton in Hin as ->. right. left.
  - vm_compute. reflexivity.
Defined.

(** [read_text_file_zero] at work: [head=0] on a file of three lines. *)
Lemma read_text_file_zero_witness :
  read_text_file "/data/f" None (Some 0%Z)
    {| allowed_directories := ["/data"]; world := one_file three_lines |}
  = read_text_file "/data/f" None None
      {| allowed_directories := ["/data"]; world := one_file three_lines |}
  /\ read_text_file "/data/f" (Some 0%Z) None
       {| allowed_directories := ["/data"]; world := one_file three_lines |}
     = ({| allowed_directories := ["/data"]; world := one_file three_lines |},
        read_file_content (one_file three_lines) "/data/f")
  /\ read_text_file "/data/f" None (Some 0%Z)
       {| allowed_directories := ["/data"]; world := one_file three_lines |}
     = ({| allowed_directories := ["/data"]; world := one_file three_lines |},
        read_file_content (one_file three_lines) "/data/f").
Proof.
  apply (read_text_file_zero
           {| allowed_directories := ["/data"]; world := one_file three_lines |}
           "/data/f" "/data/f" None).
  vm_compute. reflexivity.
Defined.

(** X26 at work: the server started with [/data/../data]. *)
Lemma main_serving_witness :
  ["/data/../data"] <> []
  /\ world {| allowed_directories := ["/data"]; world := empty_data |} = empty_data
  /\ Forall2 (fun directory normalized =>
                exists expanded resolved,
                  expand_home empty_data directory = Ok expanded
                  /\ os_path_realpath empty_data (os_path_abspath empty_data expanded)
                     = Ok resolved
                  /\ normalized = normalize_path resolved
                  /\ os_path_isdir empty_data normalized = true)
             ["/data/../data"] ["/data"].
Proof.
  apply (main_serving ["/data/../data"]
           {| allowed_directories := []; world := empty_data |}
           {| allowed_directories := ["/data"]; world := empty_data |}).
  vm_compute. reflexivity.
Defined.

(** X29 at work: [b] replaced by [c] in [ab], and back. *)
Lemma apply_edits_undo_witness : apply_edits "ac" [mk_edit "c" "b"] = Ok "ab".
Proof.
  apply (apply_edits_undo "ab" "b" "c" "ac").
  - vm_compute. reflexivity.
  - intros i j [Hi Hi'] [Hj Hj'].
    destruct i as [|[|[|i]]]; simpl in Hi, Hi'; try discriminate; try lia;
    destruct j as [|[|[|j]]]; simpl in Hj, Hj'; try discriminate; try lia; reflexivity.
Defined.

(** X30 at work: an edit with [oldText] only. *)
Lemma apply_file_edits_missing_key_witness :
  (({["oldText" := "a"]} : gmap string string) !! "oldText" = None ->
   apply_file_edits "/data/f" ([] ++ {["oldText" := "a"]} :: []) false (one_file "abc")
   = (one_file "abc", Raise (KeyError "oldText")))
  /\ (({["oldText" := "a"]} : gmap string string) !! "oldText" <> None ->
      ({["oldText" := "a"]} : gmap string string) !! "newText" = None ->
      apply_file_edits "/data/f" ([] ++ {["oldText" := "a"]} :: []) false (one_file "abc")
      = (one_file "abc", Raise (KeyError "newText"))).
Proof.
  apply (apply_file_edits_missing_key (one_file "abc") "/data/f" "abc" "abc").
  - vm_compute. reflexivity.
  - reflexivity.
Defined.

(** X22 at work: 1536 bytes. *)
Lemma format_size_rounds_witness :
  exists (k : nat) (unit : string) (q : N),
    size_units !! k = Some unit
    /\ format_size 1536
       = str.of_N (q / 10) +:+ "." +:+ str.of_N (q mod 10) +:+ " " +:+ unit
    /\ (k = 0%nat \/ 1024 ^ N.of_nat k <= 1536)%N
    /\ (k = 5%nat \/ 1536 < 1024 ^ N.of_nat (S k))%N
    /\ (2 * Z.abs (10 * Z.of_N 1536 - Z.of_N q * Z.of_N (1024 ^ N.of_nat k))
        <= Z.of_N (1024 ^ N.of_nat k))%Z.
Proof. apply (format_size_rounds 1536). reflexivity. Defined.



(** X16 at work: two levels of new directories. *)
Lemma create_directory_idempotent_witness :
  exists s',
    create_directory "/data/a/b" {| allowed_directories := ["/data"]; world := empty_data |}
    = (s', Ok "Successfully created directory /data/a/b")
    /\ validate_path {| allowed_directories := ["/data"]; world := empty_data |} "/data/a/b"
       = Ok "/data/a/b"
    /\ isdir (world s') "/data/a/b" = true
    /\ create_directory "/data/a/b" s' = (s', Ok "Successfully created directory /data/a/b").
Proof.
  eexists. split; [vm_compute; reflexivity|].
  apply (create_directory_idempotent
           {| allowed_directories := ["/data"]; world := empty_data |} _
           "/data/a/b" "Successfully created directory /data/a/b" "/data/a/b").
  - reflexivity.
  - eexists. vm_compute. reflexivity.
  - vm_compute. reflexivity.
Defined.

(** X5 at work: the edit of [ab] to [x]. *)
Lemma edit_file_read_back_witness :
  exists s' diff,
    edit_file "/data/f" [mk_edit "ab" "x"] false
      {| allowed_directories := ["/data"]; world := one_file "ab" |} = (s', Ok diff)
    /\ exists content new_content,
         read_text_file "/data/f" None None
           {| allowed_directories := ["/data"]; world := one_file "ab" |}
         = ({| allowed_directories := ["/data"]; world := one_file "ab" |}, Ok content)
         /\ apply_edits content [mk_edit "ab" "x"] = Ok new_content
         /\ posix_open_read_binary (world s') "/data/f" = Ok (utf8_encode new_content)
         /\ read_text_file "/data/f" None None s'
            = (s', Ok (str.universal_newlines new_content)).
Proof.
  eexists _, _. split; [vm_compute; reflexivity|].
  eapply (edit_file_read_back
            {| allowed_directories := ["/data"]; world := one_file "ab" |} _
            "/data/f" _ "/data/f" [mk_edit "ab" "x"]).
  - reflexivity.
  - eexists. vm_compute. reflexivity.
  - vm_compute. reflexivity.
Defined.


(** X4 at work: [/data] allowed lets in [/data2/x]. *)
Lemma validate_path_sibling_witness :
  validate_path {| allowed_directories := ["/data"]; world := empty_data |}
                (render ([] ++ ("data" +:+ "2") :: ["x"]))
  = Ok (render ([] ++ ("data" +:+ "2") :: ["x"])).
Proof.
  apply (validate_path_sibling
           {| allowed_directories := ["/data"]; world := empty_data |} [] ["x"] "data" "2").
  - apply realb_real. vm_compute. reflexivity.
  - left.
Defined.

(** X9 at work. *)
Lemma validate_path_normalized_witness :
  exists k cs, (k = 1 \/ k = 2)%nat /\ Forall normal cs
               /\ "/data/v1/f" = slashes k +:+ str.join "/" cs.
Proof.
  apply (validate_path_normalized
           {| allowed_directories := ["/data"]; world := linked_dir |} "/data/./cur//f").
  - reflexivity.
  - vm_compute. reflexivity.
Defined.

(** X17 at work: a file whose first byte is no UTF-8. *)
Lemma read_file_content_decodes_witness :
  (exists text, read_file_content (one_file (String (ascii_of_nat 233) "t")) "/data/f"
                = Ok text)
  /\ (is_ascii (String (ascii_of_nat 233) "t") = true ->
      read_file_content (one_file (String (ascii_of_nat 233) "t")) "/data/f"
      = Ok (str.universal_newlines (String (ascii_of_nat 233) "t"))).
Proof.
  apply (read_file_content_decodes (one_file (String (ascii_of_nat 233) "t")) "/data/f").
  vm_compute. reflexivity.
Defined.

(** X27 at work: the server started with a symlink to a directory. *)
Lemma main_roots_valid_witness :
  Forall (fun root =>
            isdir (world {| allowed_directories := ["/data/v1"]; world := linked_dir |}) root
            = true
            /\ validate_path {| allowed_directories := ["/data/v1"]; world := linked_dir |}
                             root = Ok root)
         (allowed_directories {| allowed_directories := ["/data/v1"]; world := linked_dir |}).
Proof.
  apply (main_roots_valid ["/data/cur"]
           {| allowed_directories := []; world := linked_dir |}
           {| allowed_directories := ["/data/v1"]; world := linked_dir |}).
  - reflexivity.
  - constructor; [|constructor]. eexists. eexists. vm_compute. reflexivity.
  - vm_compute. reflexivity.
Defined.

(** X21 at work: an edit that replaces [b] by [b]. *)
Lemma apply_file_edits_unchanged_witness :
  apply_file_edits "/data/f" [mk_edit "b" "b"] true (one_file "abc")
  = (one_file "abc", Ok ("--- " +:+ "/data/f" +:+ LF +:+ "+++ " +:+ "/data/f"))
  /\ (forall w' diff,
        apply_file_edits "/data/f" [mk_edit "b" "b"] false (one_file "abc")
        = (w', Ok diff) ->
        diff = "--- " +:+ "/data/f" +:+ LF +:+ "+++ " +:+ "/data/f").
Proof.
  apply (apply_file_edits_unchanged (one_file "abc") "/data/f" "abc" "abc");
    vm_compute; reflexivity.
Defined.

(** X10 at work: a listing served in between. *)
Lemma list_allowed_directories_after_main_witness :
  exists d dirs,
    allowed_directories {| allowed_directories := ["/data"]; world := empty_data |}
    = d :: dirs
    /\ list_allowed_directories
         (serve [ListDirectory "/data"]
                {| allowed_directories := ["/data"]; world := empty_data |}).1
       = ((serve [ListDirectory "/data"]
                 {| allowed_directories := ["/data"]; world := empty_data |}).1,
          Ok ("Allowed directories:" +:+ LF +:+ str.join LF (d :: dirs))).
Proof.
  apply (list_allowed_directories_after_main ["/data"] [ListDirectory "/data"]
           {| allowed_directories := []; world := empty_data |}).
  vm_compute. reflexivity.
Defined.
